(** * The Pintos thread scheduler of src/threads/thread.c

    A shallow embedding of the scheduler: the ready, sleeping and
    all-threads lists, priority donation, the MLFQS recomputations and the
    sleep queue, followed by the properties proved about them.

    Conventions of the embedding.
    - A [struct thread *] is an address ([ptr]); the thread structures live
      in a finite map from addresses to records, so that every list holds
      addresses and every update through a pointer is seen by all lists.
    - A C function that can hit an [ASSERT] returns [option]: [None] is the
      kernel panic.
    - [int] arithmetic is written with its 32-bit wrap-around ([int32]),
      [int64_t] with [int64], [unsigned] with [uint32].
    - A function that ends in a context switch is followed up to the switch:
      the state it returns is the machine as the next thread finds it.
    - thread_start, thread_exit, idle and kernel_thread, which live on
      semaphores and on the stack frames of the context switch, are left
      out, as is everything under USERPROG. *)

From stdpp Require Import gmap list sorting.

Open Scope Z_scope.

(** ** Machine integers *)

Definition wrap (w : Z) (z : Z) : Z := (z + 2 ^ (w - 1)) mod 2 ^ w - 2 ^ (w - 1).
Definition int32 (z : Z) : Z := wrap 32 z.
Definition int64 (z : Z) : Z := wrap 64 z.
Definition uint32 (z : Z) : Z := z mod 2 ^ 32.
Definition in_int32 (z : Z) : Prop := - 2 ^ 31 <= z < 2 ^ 31.

(** ** What thread.c takes from its headers *)

(** The fixed-point module ([struct real] and its operations) is used by
    thread.c but defined elsewhere: it is an interface here.  [zeroed] is the
    [struct real] whose bytes are all zero, which is what [memset] leaves in a
    fresh thread.  The one law taken from the arithmetic is that the product
    of two fixed-point values does not depend on their order. *)
Class FixedPoint := {
  real : Type;
  zeroed : real;
  int_to_real : Z -> real;
  real_to_int_toward_nearest : real -> Z;
  add : real -> real -> real;
  multiply : real -> real -> real;
  divide : real -> real -> real;
  multiply_by_int : real -> Z -> real;
  divide_by_int : real -> Z -> real;
  add_real_to_int : real -> Z -> real;
  multiply_comm : ∀ x y, multiply x y = multiply y x;
}.

(** The constants of thread.h. *)
Class ThreadH := {
  PRI_MIN : Z;
  PRI_DEFAULT : Z;
  PRI_MAX : Z;
  TID_ERROR : Z;
}.

(** #define TIME_SLICE 4 *)
Definition TIME_SLICE : Z := 4.

(** ** The list operations of lib/kernel/list.c that thread.c calls *)

(** Modelled from the spec: list_insert_ordered of lib/kernel/list.c is not
    under src/.  The spec asks that insertion keeps the order of the list
    and that insertion order within equal keys is preserved: the element goes
    in front of the first element it is less than, hence behind its equals. *)
Fixpoint list_insert_ordered {A} (less : A -> A -> bool) (x : A) (l : list A) : list A :=
  match l with
  | [] => [x]
  | e :: r => if less x e then x :: e :: r else e :: list_insert_ordered less x r
  end.

(** Insertion step of the stable sort below: skip what is less than [x]. *)
Fixpoint sort_insert {A} (less : A -> A -> bool) (x : A) (l : list A) : list A :=
  match l with
  | [] => [x]
  | e :: r => if less e x then e :: sort_insert less x r else x :: e :: r
  end.

(** Modelled from the spec: list_sort of lib/kernel/list.c is not under
    src/.  The spec's re-sort orders the list by the comparison and keeps
    the relative order of equal elements: a stable sort. *)
Definition list_sort {A} (less : A -> A -> bool) (l : list A) : list A :=
  foldr (sort_insert less) [] l.

(** list_remove, on a list whose elements are distinct addresses. *)
Definition list_remove (x : Z) (l : list Z) : list Z :=
  filter (λ y, y ≠ x) l.

(** ** Data model *)

(** Addresses of thread and lock structures. *)
Abbreviation ptr := Z (only parsing).

Inductive thread_status :=
  | THREAD_RUNNING
  | THREAD_READY
  | THREAD_BLOCKED
  | THREAD_DYING.

Global Instance thread_status_eq_dec : EqDecision thread_status.
Proof. solve_decision. Defined.

(** The donation field of [struct lock]. *)
Record lock := {
  Waiting_threads_max_priority : Z;
}.

Section Model.
Context `{FP : FixedPoint} `{TH : ThreadH}.

(** [struct thread], without the name, the stack pointer and the magic
    number: a valid thread is one present in the map of threads. *)
Record thread := {
  tid : Z;
  status : thread_status;
  priority : Z;
  real_priority : Z;
  Owned_locks : list ptr;
  Waited_on_lock : option ptr;
  nice : Z;
  recent_cpu : real;
  waik_up_time : Z;
}.

Definition upd_tid (v : Z) (t : thread) : thread :=
  {| tid := v; status := status t; priority := priority t;
     real_priority := real_priority t; Owned_locks := Owned_locks t;
     Waited_on_lock := Waited_on_lock t; nice := nice t;
     recent_cpu := recent_cpu t; waik_up_time := waik_up_time t |}.

Definition upd_status (v : thread_status) (t : thread) : thread :=
  {| tid := tid t; status := v; priority := priority t;
     real_priority := real_priority t; Owned_locks := Owned_locks t;
     Waited_on_lock := Waited_on_lock t; nice := nice t;
     recent_cpu := recent_cpu t; waik_up_time := waik_up_time t |}.

Definition upd_priority (v : Z) (t : thread) : thread :=
  {| tid := tid t; status := status t; priority := v;
     real_priority := real_priority t; Owned_locks := Owned_locks t;
     Waited_on_lock := Waited_on_lock t; nice := nice t;
     recent_cpu := recent_cpu t; waik_up_time := waik_up_time t |}.

Definition upd_real_priority (v : Z) (t : thread) : thread :=
  {| tid := tid t; status := status t; priority := priority t;
     real_priority := v; Owned_locks := Owned_locks t;
     Waited_on_lock := Waited_on_lock t; nice := nice t;
     recent_cpu := recent_cpu t; waik_up_time := waik_up_time t |}.

Definition upd_Owned_locks (v : list ptr) (t : thread) : thread :=
  {| tid := tid t; status := status t; priority := priority t;
     real_priority := real_priority t; Owned_locks := v;
     Waited_on_lock := Waited_on_lock t; nice := nice t;
     recent_cpu := recent_cpu t; waik_up_time := waik_up_time t |}.

Definition upd_nice (v : Z) (t : thread) : thread :=
  {| tid := tid t; status := status t; priority := priority t;
     real_priority := real_priority t; Owned_locks := Owned_locks t;
     Waited_on_lock := Waited_on_lock t; nice := v;
     recent_cpu := recent_cpu t; waik_up_time := waik_up_time t |}.

Definition upd_recent_cpu (v : real) (t : thread) : thread :=
  {| tid := tid t; status := status t; priority := priority t;
     real_priority := real_priority t; Owned_locks := Owned_locks t;
     Waited_on_lock := Waited_on_lock t; nice := nice t;
     recent_cpu := v; waik_up_time := waik_up_time t |}.

Definition upd_waik_up_time (v : Z) (t : thread) : thread :=
  {| tid := tid t; status := status t; priority := priority t;
     real_priority := real_priority t; Owned_locks := Owned_locks t;
     Waited_on_lock := Waited_on_lock t; nice := nice t;
     recent_cpu := recent_cpu t; waik_up_time := v |}.

(** The static variables of thread.c, the memory holding the threads and
    the locks, and the interrupt state the file reads and writes. *)
Record sched := {
  threads : gmap Z thread;
  locks : gmap Z lock;
  ready_list : list ptr;
  all_list : list ptr;
  sleeping_list : list ptr;
  idle_thread : option ptr;
  initial_thread : option ptr;
  running : ptr;
  idle_ticks : Z;
  kernel_ticks : Z;
  thread_ticks : Z;
  thread_mlfqs : bool;
  load_avg : real;
  next_tid : Z;
  intr_on : bool;
  intr_ctx : bool;
  yield_on_return : bool;
}.

Definition set_threads (v : gmap Z thread) (s : sched) : sched :=
  {| threads := v; locks := locks s; ready_list := ready_list s;
     all_list := all_list s; sleeping_list := sleeping_list s;
     idle_thread := idle_thread s; initial_thread := initial_thread s;
     running := running s; idle_ticks := idle_ticks s;
     kernel_ticks := kernel_ticks s; thread_ticks := thread_ticks s;
     thread_mlfqs := thread_mlfqs s; load_avg := load_avg s;
     next_tid := next_tid s; intr_on := intr_on s; intr_ctx := intr_ctx s;
     yield_on_return := yield_on_return s |}.

Definition set_ready_list (v : list ptr) (s : sched) : sched :=
  {| threads := threads s; locks := locks s; ready_list := v;
     all_list := all_list s; sleeping_list := sleeping_list s;
     idle_thread := idle_thread s; initial_thread := initial_thread s;
     running := running s; idle_ticks := idle_ticks s;
     kernel_ticks := kernel_ticks s; thread_ticks := thread_ticks s;
     thread_mlfqs := thread_mlfqs s; load_avg := load_avg s;
     next_tid := next_tid s; intr_on := intr_on s; intr_ctx := intr_ctx s;
     yield_on_return := yield_on_return s |}.

Definition set_all_list (v : list ptr) (s : sched) : sched :=
  {| threads := threads s; locks := locks s; ready_list := ready_list s;
     all_list := v; sleeping_list := sleeping_list s;
     idle_thread := idle_thread s; initial_thread := initial_thread s;
     running := running s; idle_ticks := idle_ticks s;
     kernel_ticks := kernel_ticks s; thread_ticks := thread_ticks s;
     thread_mlfqs := thread_mlfqs s; load_avg := load_avg s;
     next_tid := next_tid s; intr_on := intr_on s; intr_ctx := intr_ctx s;
     yield_on_return := yield_on_return s |}.

Definition set_sleeping_list (v : list ptr) (s : sched) : sched :=
  {| threads := threads s; locks := locks s; ready_list := ready_list s;
     all_list := all_list s; sleeping_list := v;
     idle_thread := idle_thread s; initial_thread := initial_thread s;
     running := running s; idle_ticks := idle_ticks s;
     kernel_ticks := kernel_ticks s; thread_ticks := thread_ticks s;
     thread_mlfqs := thread_mlfqs s; load_avg := load_avg s;
     next_tid := next_tid s; intr_on := intr_on s; intr_ctx := intr_ctx s;
     yield_on_return := yield_on_return s |}.

Definition set_running (v : ptr) (s : sched) : sched :=
  {| threads := threads s; locks := locks s; ready_list := ready_list s;
     all_list := all_list s; sleeping_list := sleeping_list s;
     idle_thread := idle_thread s; initial_thread := initial_thread s;
     running := v; idle_ticks := idle_ticks s;
     kernel_ticks := kernel_ticks s; thread_ticks := thread_ticks s;
     thread_mlfqs := thread_mlfqs s; load_avg := load_avg s;
     next_tid := next_tid s; intr_on := intr_on s; intr_ctx := intr_ctx s;
     yield_on_return := yield_on_return s |}.

Definition set_idle_ticks (v : Z) (s : sched) : sched :=
  {| threads := threads s; locks := locks s; ready_list := ready_list s;
     all_list := all_list s; sleeping_list := sleeping_list s;
     idle_thread := idle_thread s; initial_thread := initial_thread s;
     running := running s; idle_ticks := v;
     kernel_ticks := kernel_ticks s; thread_ticks := thread_ticks s;
     thread_mlfqs := thread_mlfqs s; load_avg := load_avg s;
     next_tid := next_tid s; intr_on := intr_on s; intr_ctx := intr_ctx s;
     yield_on_return := yield_on_return s |}.

Definition set_kernel_ticks (v : Z) (s : sched) : sched :=
  {| threads := threads s; locks := locks s; ready_list := ready_list s;
     all_list := all_list s; sleeping_list := sleeping_list s;
     idle_thread := idle_thread s; initial_thread := initial_thread s;
     running := running s; idle_ticks := idle_ticks s;
     kernel_ticks := v; thread_ticks := thread_ticks s;
     thread_mlfqs := thread_mlfqs s; load_avg := load_avg s;
     next_tid := next_tid s; intr_on := intr_on s; intr_ctx := intr_ctx s;
     yield_on_return := yield_on_return s |}.

Definition set_thread_ticks (v : Z) (s : sched) : sched :=
  {| threads := threads s; locks := locks s; ready_list := ready_list s;
     all_list := all_list s; sleeping_list := sleeping_list s;
     idle_thread := idle_thread s; initial_thread := initial_thread s;
     running := running s; idle_ticks := idle_ticks s;
     kernel_ticks := kernel_ticks s; thread_ticks := v;
     thread_mlfqs := thread_mlfqs s; load_avg := load_avg s;
     next_tid := next_tid s; intr_on := intr_on s; intr_ctx := intr_ctx s;
     yield_on_return := yield_on_return s |}.

Definition set_load_avg (v : real) (s : sched) : sched :=
  {| threads := threads s; locks := locks s; ready_list := ready_list s;
     all_list := all_list s; sleeping_list := sleeping_list s;
     idle_thread := idle_thread s; initial_thread := initial_thread s;
     running := running s; idle_ticks := idle_ticks s;
     kernel_ticks := kernel_ticks s; thread_ticks := thread_ticks s;
     thread_mlfqs := thread_mlfqs s; load_avg := v;
     next_tid := next_tid s; intr_on := intr_on s; intr_ctx := intr_ctx s;
     yield_on_return := yield_on_return s |}.

Definition set_next_tid (v : Z) (s : sched) : sched :=
  {| threads := threads s; locks := locks s; ready_list := ready_list s;
     all_list := all_list s; sleeping_list := sleeping_list s;
     idle_thread := idle_thread s; initial_thread := initial_thread s;
     running := running s; idle_ticks := idle_ticks s;
     kernel_ticks := kernel_ticks s; thread_ticks := thread_ticks s;
     thread_mlfqs := thread_mlfqs s; load_avg := load_avg s;
     next_tid := v; intr_on := intr_on s; intr_ctx := intr_ctx s;
     yield_on_return := yield_on_return s |}.

(** intr_set_level; intr_disable is [intr_set_level false] with the old
    level read off the state before. *)
Definition intr_set_level (v : bool) (s : sched) : sched :=
  {| threads := threads s; locks := locks s; ready_list := ready_list s;
     all_list := all_list s; sleeping_list := sleeping_list s;
     idle_thread := idle_thread s; initial_thread := initial_thread s;
     running := running s; idle_ticks := idle_ticks s;
     kernel_ticks := kernel_ticks s; thread_ticks := thread_ticks s;
     thread_mlfqs := thread_mlfqs s; load_avg := load_avg s;
     next_tid := next_tid s; intr_on := v; intr_ctx := intr_ctx s;
     yield_on_return := yield_on_return s |}.

Definition set_yield_on_return (v : bool) (s : sched) : sched :=
  {| threads := threads s; locks := locks s; ready_list := ready_list s;
     all_list := all_list s; sleeping_list := sleeping_list s;
     idle_thread := idle_thread s; initial_thread := initial_thread s;
     running := running s; idle_ticks := idle_ticks s;
     kernel_ticks := kernel_ticks s; thread_ticks := thread_ticks s;
     thread_mlfqs := thread_mlfqs s; load_avg := load_avg s;
     next_tid := next_tid s; intr_on := intr_on s; intr_ctx := intr_ctx s;
     yield_on_return := v |}.

(** Modelled from the spec: intr_yield_on_return of threads/interrupt.c is
    not under src/.  The spec has the tick request that preemption occur at
    the return from the interrupt, never inside interrupt context itself,
    and makes a call outside the documented context fatal: outside external
    interrupt context the request is an assertion failure. *)
Definition intr_yield_on_return (s : sched) : option sched :=
  guard (intr_ctx s = true);;
  Some (set_yield_on_return true s).

(** Writing through a thread pointer. *)
Definition update_thread (f : thread -> thread) (t : ptr) (s : sched) : sched :=
  set_threads (alter f t (threads s)) s.

(** Reading [t->priority], [t->waik_up_time] and a lock's donation field
    through a pointer; the lists only ever hold valid pointers, for which the
    default is never used. *)
Definition prio (s : sched) (t : ptr) : Z :=
  from_option priority 0 (threads s !! t).

Definition wake_time (s : sched) (t : ptr) : Z :=
  from_option waik_up_time 0 (threads s !! t).

Definition lock_pri (s : sched) (l : ptr) : Z :=
  from_option Waiting_threads_max_priority 0 (locks s !! l).

(** ** Comparison functions *)

(** ComparePriority, on two [elem] members. *)
Definition ComparePriority (s : sched) (a b : ptr) : bool :=
  bool_decide (prio s a > prio s b).

(** lock_cmp_priority *)
Definition lock_cmp_priority (s : sched) (a b : ptr) : bool :=
  bool_decide (lock_pri s a > lock_pri s b).

(** thread_less_waik *)
Definition thread_less_waik (s : sched) (a b : ptr) : bool :=
  bool_decide (wake_time s a < wake_time s b).

(** list_less_by_priority_comp *)
Definition list_less_by_priority_comp (s : sched) (a b : ptr) : bool :=
  bool_decide (prio s a <= prio s b).

End Model.

(** init_thread orders all_list with ComparePriority, which applies
    [list_entry (.., struct thread, elem)] to pointers to [allelem] members.
    What that comparison reads depends on the layout of [struct thread] in
    thread.h, so it is left open; nothing below depends on the order of
    all_list. *)
Class ThreadLayout `{FP : FixedPoint} := {
  ComparePriority_on_allelem : sched -> ptr -> ptr -> bool;
}.

Section Operations.
Context `{FP : FixedPoint} `{TH : ThreadH} `{LY : !ThreadLayout}.

(** ** Running thread *)

(** thread_current: running_thread plus its two assertions. *)
Definition thread_current (s : sched) : option ptr :=
  t ← threads s !! running s;
  guard (status t = THREAD_RUNNING);;
  Some (running s).

(** ** Ready list and dispatch *)

(** thread_unblock *)
Definition thread_unblock (t : ptr) (s : sched) : option sched :=
  th ← threads s !! t;
  let old_level := intr_on s in
  let s := intr_set_level false s in
  guard (status th = THREAD_BLOCKED);;
  let s := set_ready_list
             (list_insert_ordered (ComparePriority s) t (ready_list s)) s in
  let s := update_thread (upd_status THREAD_READY) t s in
  Some (intr_set_level old_level s).

(** next_thread_to_run: the thread to run next and the state with it popped
    from the ready list; [None] is a NULL idle_thread. *)
Definition next_thread_to_run (s : sched) : option ptr * sched :=
  match ready_list s with
  | [] => (idle_thread s, s)
  | n :: r => (Some n, set_ready_list r s)
  end.

(** thread_schedule_tail, entered on the stack of the thread switched to.
    palloc_free_page takes the dying thread out of memory. *)
Definition thread_schedule_tail (prev : option ptr) (s : sched) : option sched :=
  let cur := running s in
  guard (intr_on s = false);;
  let s := update_thread (upd_status THREAD_RUNNING) cur s in
  let s := set_thread_ticks 0 s in
  match prev with
  | None => Some s
  | Some p =>
      if bool_decide (from_option status THREAD_RUNNING (threads s !! p) = THREAD_DYING
                      ∧ Some p ≠ initial_thread s)
      then guard (p ≠ cur);; Some (set_threads (delete p (threads s)) s)
      else Some s
  end.

(** schedule.  switch_threads (cur, next) makes [next] the running thread
    and hands [cur] to it as the previous thread. *)
Definition schedule (s : sched) : option sched :=
  let cur := running s in
  let '(next, s) := next_thread_to_run s in
  guard (intr_on s = false);;
  c ← threads s !! cur;
  guard (status c ≠ THREAD_RUNNING);;
  next ← next;
  _ ← threads s !! next;
  if bool_decide (cur ≠ next)
  then thread_schedule_tail (Some cur) (set_running next s)
  else thread_schedule_tail None s.

(** thread_block *)
Definition thread_block (s : sched) : option sched :=
  guard (intr_ctx s = false);;
  guard (intr_on s = false);;
  cur ← thread_current s;
  schedule (update_thread (upd_status THREAD_BLOCKED) cur s).

(** thread_yield.  When schedule switched to another thread the function
    stops there; its last line runs once the caller is dispatched again. *)
Definition thread_yield (s : sched) : option sched :=
  cur ← thread_current s;
  guard (intr_ctx s = false);;
  let old_level := intr_on s in
  let s := intr_set_level false s in
  let s := if bool_decide (Some cur ≠ idle_thread s)
           then set_ready_list
                  (list_insert_ordered (ComparePriority s) cur (ready_list s)) s
           else s in
  let s := update_thread (upd_status THREAD_READY) cur s in
  s ← schedule s;
  Some (if bool_decide (running s = cur) then intr_set_level old_level s else s).

(** thread_foreach *)
Definition thread_foreach (func : ptr -> sched -> sched) (s : sched) : option sched :=
  guard (intr_on s = false);;
  Some (foldl (λ acc t, func t acc) s (all_list s)).

(** ** Creation *)

(** init_thread: the thread at [t] after memset and the assignments that
    follow, then its insertion in all_list. *)
Definition init_thread (t : ptr) (priority : Z) (s : sched) : option sched :=
  guard (PRI_MIN <= priority ∧ priority <= PRI_MAX);;
  let th := {| tid := 0; status := THREAD_BLOCKED; priority := priority;
               real_priority := priority; Owned_locks := [];
               Waited_on_lock := None; nice := 0; recent_cpu := zeroed;
               waik_up_time := 0 |} in
  let s := set_threads (<[t := th]> (threads s)) s in
  let old_level := intr_on s in
  let s := intr_set_level false s in
  let s := set_all_list
             (list_insert_ordered (ComparePriority_on_allelem s) t (all_list s)) s in
  Some (intr_set_level old_level s).

(** allocate_tid.  Taking and releasing tid_lock is the business of synch.c
    and leaves no trace once the function returns. *)
Definition allocate_tid (s : sched) : Z * sched :=
  (next_tid s, set_next_tid (int32 (next_tid s + 1)) s).

(** thread_update_priority_mlfqs: the value computed for [t->priority]. *)
Definition mlfqs_priority (th : thread) : Z :=
  let priority :=
    int32 (int32 (PRI_MAX
                  - real_to_int_toward_nearest (divide_by_int (recent_cpu th) 4))
           - int32 (nice th * 2)) in
  if bool_decide (priority < PRI_MIN) then PRI_MIN
  else if bool_decide (priority > PRI_MAX) then PRI_MAX
  else priority.

(** thread_update_priority_mlfqs *)
Definition thread_update_priority_mlfqs (t : ptr) (s : sched) : sched :=
  update_thread (λ th, upd_priority (mlfqs_priority th) th) t s.

(** thread_init, from the machine as the loader leaves it: the code running
    becomes the thread at [running s]. *)
Definition thread_init (s : sched) : option sched :=
  guard (intr_on s = false);;
  let s := set_sleeping_list [] (set_all_list [] (set_ready_list [] s)) in
  let main := running s in
  let s := {| threads := threads s; locks := locks s; ready_list := ready_list s;
     all_list := all_list s; sleeping_list := sleeping_list s;
     idle_thread := idle_thread s; initial_thread := Some main;
     running := running s; idle_ticks := idle_ticks s;
     kernel_ticks := kernel_ticks s; thread_ticks := thread_ticks s;
     thread_mlfqs := thread_mlfqs s; load_avg := load_avg s;
     next_tid := next_tid s; intr_on := intr_on s; intr_ctx := intr_ctx s;
     yield_on_return := yield_on_return s |} in
  s ← init_thread main PRI_DEFAULT s;
  let s := update_thread (upd_status THREAD_RUNNING) main s in
  let '(id, s) := allocate_tid s in
  let s := update_thread (upd_tid id) main s in
  Some (if thread_mlfqs s
        then set_load_avg (int_to_real 0)
               (update_thread (upd_recent_cpu (int_to_real 0))
                  main (update_thread (upd_nice 0) main s))
        else s).

(** thread_create.  [page] is what palloc_get_page returned; the stack frames
    built for the new thread belong to the context switch and are left out. *)
Definition thread_create (page : option ptr) (priority : Z) (s : sched)
  : option (Z * sched) :=
  match page with
  | None => Some (TID_ERROR, s)
  | Some t =>
      s ← init_thread t priority s;
      let '(id, s) := allocate_tid s in
      let s := update_thread (upd_tid id) t s in
      s ← (if thread_mlfqs s
           then cur ← thread_current s;
                c ← threads s !! cur;
                let s := update_thread (upd_recent_cpu (recent_cpu c)) t s in
                cur ← thread_current s;
                c ← threads s !! cur;
                let s := update_thread (upd_nice (nice c)) t s in
                Some (thread_update_priority_mlfqs t s)
           else Some s);
      s ← thread_unblock t s;
      cur ← thread_current s;
      if bool_decide (prio s cur < priority)
      then s ← thread_yield s; Some (id, s)
      else Some (id, s)
  end.

(** ** Priorities *)

(** thread_set_priority *)
Definition thread_set_priority (new_priority : Z) (s : sched) : option sched :=
  if thread_mlfqs s then Some s
  else
    let old_level := intr_on s in
    let s := intr_set_level false s in
    cur ← thread_current s;
    c ← threads s !! cur;
    let old_priority := priority c in
    let s := update_thread (upd_real_priority new_priority) cur s in
    let flag := bool_decide (Owned_locks c = [] ∨ new_priority > old_priority) in
    let s := if flag then update_thread (upd_priority new_priority) cur s else s in
    let s := intr_set_level old_level s in
    if flag then thread_yield s else Some s.

(** thread_get_priority *)
Definition thread_get_priority (s : sched) : option Z :=
  cur ← thread_current s; Some (prio s cur).

(** thread_try_yeild *)
Definition thread_try_yeild (s : sched) : option sched :=
  if intr_ctx s then Some s
  else
    let old_level := intr_on s in
    let s := intr_set_level false s in
    flag ← match ready_list s with
           | [] => Some false
           | max_priority_thread :: _ =>
               cur ← thread_current s;
               Some (bool_decide (prio s max_priority_thread > prio s cur))
           end;
    let s := intr_set_level old_level s in
    if flag : bool then thread_yield s else Some s.

(** thread_set_nice *)
Definition thread_set_nice (new_nice : Z) (s : sched) : option sched :=
  t ← thread_current s;
  let s := update_thread (upd_nice new_nice) t s in
  let s := thread_update_priority_mlfqs t s in
  thread_try_yeild s.

(** thread_get_nice *)
Definition thread_get_nice (s : sched) : option Z :=
  cur ← thread_current s; c ← threads s !! cur; Some (nice c).

(** thread_update_priority *)
Definition thread_update_priority (t : ptr) (s : sched) : option sched :=
  let old_level := intr_on s in
  let s := intr_set_level false s in
  th ← threads s !! t;
  let max_pri := real_priority th in
  let '(max_pri, s) :=
    if bool_decide (Owned_locks th ≠ [])
    then
      let sorted := list_sort (lock_cmp_priority s) (Owned_locks th) in
      let s := update_thread (upd_Owned_locks sorted) t s in
      let lock_pri := from_option (lock_pri s) 0 (head sorted) in
      (if bool_decide (max_pri < lock_pri) then lock_pri else max_pri, s)
    else (max_pri, s) in
  let s := update_thread (upd_priority max_pri) t s in
  Some (intr_set_level old_level s).

(** thread_donate_priority *)
Definition thread_donate_priority (t : ptr) (s : sched) : option sched :=
  let old_level := intr_on s in
  let s := intr_set_level false s in
  s ← thread_update_priority t s;
  th ← threads s !! t;
  let s := if bool_decide (status th = THREAD_READY)
           then
             let s := set_ready_list (list_remove t (ready_list s)) s in
             set_ready_list
               (list_insert_ordered (ComparePriority s) t (ready_list s)) s
           else s in
  Some (intr_set_level old_level s).

(** ** MLFQS *)

(** get_ready_threads *)
Definition get_ready_threads (s : sched) : option Z :=
  cur ← thread_current s;
  Some (int32 (Z.of_nat (length (ready_list s))
               + (if bool_decide (Some cur ≠ idle_thread s) then 1 else 0))).

(** thread_update_recent_cpu *)
Definition thread_update_recent_cpu (t : ptr) (s : sched) : sched :=
  let recent_coff :=
    divide (multiply_by_int (load_avg s) 2)
           (add_real_to_int (multiply_by_int (load_avg s) 2) 1) in
  let s := update_thread
             (λ th, upd_recent_cpu
                      (add_real_to_int (multiply (recent_cpu th) recent_coff)
                                       (nice th)) th) t s in
  thread_update_priority_mlfqs t s.

(** thread_update_recent_cpu_and_load_avg *)
Definition thread_update_recent_cpu_and_load_avg (s : sched) : option sched :=
  ready_threads ← get_ready_threads s;
  let _59_60 := divide (int_to_real 59) (int_to_real 60) in
  let _1_60 := divide (int_to_real 1) (int_to_real 60) in
  let s := set_load_avg
             (add (multiply _59_60 (load_avg s))
                  (multiply _1_60 (int_to_real ready_threads))) s in
  s ← thread_foreach thread_update_recent_cpu s;
  thread_try_yeild s.

(** thread_update_priority_mlfqs_all *)
Definition thread_update_priority_mlfqs_all (s : sched) : option sched :=
  s ← thread_foreach thread_update_priority_mlfqs s;
  Some (set_ready_list (list_sort (ComparePriority s) (ready_list s)) s).

(** inc_recent_cpu *)
Definition inc_recent_cpu (t : ptr) (s : sched) : sched :=
  if bool_decide (Some t ≠ idle_thread s)
  then update_thread (λ th, upd_recent_cpu (add_real_to_int (recent_cpu th) 1) th) t s
  else s.

(** ** Sleeping *)

(** thread_sleep *)
Definition thread_sleep (ticks current_time : Z) (s : sched) : option sched :=
  let wake_up_time := int64 (current_time + ticks) in
  cur ← thread_current s;
  let s := update_thread (upd_waik_up_time wake_up_time) cur s in
  cur ← thread_current s;
  let s := set_sleeping_list
             (list_insert_ordered (thread_less_waik s) cur (sleeping_list s)) s in
  thread_block s.

(** The loop of thread_tick over the sleeping list: [l] is the list from
    [iter] on. *)
Fixpoint wake_loop (current_time : Z) (l : list ptr) (s : sched) : option sched :=
  match l with
  | [] => Some s
  | thr :: rest =>
      if bool_decide (current_time < wake_time s thr) then Some s
      else
        s ← thread_unblock thr s;
        wake_loop current_time rest
          (set_sleeping_list (list_remove thr (sleeping_list s)) s)
  end.

(** thread_tick, without USERPROG; [current_time] is what timer_ticks
    returns.  The function is written for the timer interrupt handler: at
    the end of a time slice it calls intr_yield_on_return, which panics
    outside external interrupt context. *)
Definition thread_tick (current_time : Z) (s : sched) : option sched :=
  t ← thread_current s;
  let s := if bool_decide (Some t = idle_thread s)
           then set_idle_ticks (int64 (idle_ticks s + 1)) s
           else set_kernel_ticks (int64 (kernel_ticks s + 1)) s in
  s ← wake_loop current_time (sleeping_list s) s;
  let s := set_thread_ticks (uint32 (thread_ticks s + 1)) s in
  if bool_decide (thread_ticks s >= TIME_SLICE)
  then intr_yield_on_return s else Some s.

(** ** Identity and exit *)

(** thread_tid *)
Definition thread_tid (s : sched) : option Z :=
  cur ← thread_current s; c ← threads s !! cur; Some (tid c).

(** thread_exit, without USERPROG.  schedule never comes back to a dying
    thread; when there is nothing to switch to but the caller itself, control
    reaches NOT_REACHED, a panic. *)
Definition thread_exit (s : sched) : option sched :=
  guard (intr_ctx s = false);;
  let s := intr_set_level false s in
  cur ← thread_current s;
  let s := set_all_list (list_remove cur (all_list s)) s in
  cur ← thread_current s;
  let s := update_thread (upd_status THREAD_DYING) cur s in
  s ← schedule s;
  if bool_decide (running s = cur) then None else Some s.

End Operations.

(** ** Sequences of operations and predicates used in the statements *)

Section Statements.
Context `{FP : FixedPoint} `{TH : ThreadH} `{LY : !ThreadLayout}.

(** A run of thread_unblock calls, one per element of [ts], in order. *)
Fixpoint unblock_all (ts : list ptr) (s : sched) : option sched :=
  match ts with
  | [] => Some s
  | t :: r => s' ← thread_unblock t s; unblock_all r s'
  end.

(** [t] points to a thread whose status is [st]. *)
Definition has_status (st : thread_status) (s : sched) (t : ptr) : Prop :=
  status <$> threads s !! t = Some st.

(** The list is in descending order of priority, equal priorities allowed. *)
Definition descending (s : sched) (l : list ptr) : Prop :=
  StronglySorted (λ a b, prio s a >= prio s b) l.

(** The list is in strictly descending order of priority. *)
Definition strictly_descending (s : sched) (l : list ptr) : Prop :=
  StronglySorted (λ a b, prio s a > prio s b) l.

(** What the spec asks of the donation recomputation: the greatest of the
    base priority and the donation fields of the locks the thread owns. *)
Definition donation_max (s : sched) (th : thread) : Z :=
  foldr Z.max (real_priority th) (lock_pri s <$> Owned_locks th).

(** The ready list as thread_yield leaves it for schedule: the running
    thread put back in its place, unless it is the idle thread. *)
Definition queue_at_yield (s : sched) : list ptr :=
  if bool_decide (Some (running s) ≠ idle_thread s)
  then list_insert_ordered (ComparePriority s) (running s) (ready_list s)
  else ready_list s.

(** The thread next_thread_to_run picks from a ready list [q]. *)
Definition next_from (s : sched) (q : list ptr) : option ptr :=
  match q with
  | [] => idle_thread s
  | n :: _ => Some n
  end.

(** The variables a dispatch leaves alone. *)
Definition same_globals (s s' : sched) : Prop :=
  locks s' = locks s ∧ all_list s' = all_list s
  ∧ sleeping_list s' = sleeping_list s ∧ idle_thread s' = idle_thread s
  ∧ initial_thread s' = initial_thread s ∧ thread_mlfqs s' = thread_mlfqs s
  ∧ load_avg s' = load_avg s ∧ intr_ctx s' = intr_ctx s
  ∧ next_tid s' = next_tid s.

(** Every pointer of the list points to a thread. *)
Definition all_valid (s : sched) (l : list ptr) : Prop :=
  Forall (λ t, is_Some (threads s !! t)) l.

(** The front of the ready list has a priority strictly above that of the
    running thread. *)
Definition front_outranks (s : sched) : bool :=
  match ready_list s with
  | [] => false
  | f :: _ => bool_decide (prio s f > prio s (running s))
  end.

(** The spec's recurrences: load_avg' = (59/60)*load_avg + (1/60)*ready_count
    and recent_cpu' = (2*load_avg / (2*load_avg + 1)) * recent_cpu + nice. *)
Definition next_load_avg (la : real) (ready_count : Z) : real :=
  add (multiply (divide (int_to_real 59) (int_to_real 60)) la)
      (multiply (divide (int_to_real 1) (int_to_real 60))
                (int_to_real ready_count)).

Definition next_recent_cpu (la : real) (rc : real) (ni : Z) : real :=
  add_real_to_int
    (multiply (divide (multiply_by_int la 2)
                      (add_real_to_int (multiply_by_int la 2) 1)) rc) ni.

(** A thread after the per-second recomputation under load average [la]:
    the new recent_cpu, then the priority derived from it. *)
Definition recomputed (la : real) (th : thread) : thread :=
  let th1 := upd_recent_cpu (next_recent_cpu la (recent_cpu th) (nice th)) th in
  upd_priority (mlfqs_priority th1) th1.

(** The spec's clamp of [x] into the range from [lo] to [hi]. *)
Definition clamp (x lo hi : Z) : Z := Z.max lo (Z.min x hi).

(** The MLFQS derivation read over the integers, for any thread at [t]: the
    priority thread_update_priority_mlfqs writes is the clamp of PRI_MAX
    minus the rounded recent_cpu / 4 minus twice nice. *)
Definition writes_clamped_formula (t : ptr) (s : sched) : Prop :=
  ∀ th, threads s !! t = Some th ->
    prio (thread_update_priority_mlfqs t s) t
    = clamp (PRI_MAX
             - real_to_int_toward_nearest (divide_by_int (recent_cpu th) 4)
             - nice th * 2) PRI_MIN PRI_MAX.

(** The list is in ascending order of wake-up time. *)
Definition ascending_wake (s : sched) (l : list ptr) : Prop :=
  StronglySorted (λ a b, wake_time s a <= wake_time s b) l.

(** The sleeping list as thread_sleep and thread_tick keep it: no thread
    twice, blocked threads only, ascending wake-up times. *)
Definition sleep_inv (s : sched) : Prop :=
  NoDup (sleeping_list s)
  ∧ Forall (has_status THREAD_BLOCKED s) (sleeping_list s)
  ∧ ascending_wake s (sleeping_list s).

(** The spec's exclusive membership, as far as sleeping needs it: the
    running thread is in neither list, it is not the idle thread, and neither
    a ready thread nor the idle thread is in the sleeping list. *)
Definition exclusive (s : sched) : Prop :=
  (running s ∉ sleeping_list s) ∧ (running s ∉ ready_list s)
  ∧ idle_thread s ≠ Some (running s)
  ∧ Forall (λ x, x ∉ sleeping_list s) (ready_list s)
  ∧ from_option (λ i, i ∉ sleeping_list s) True (idle_thread s).

(** The reading of "no preemption is forced" put to the test for
    thread_set_priority: whenever the call lowers the priority of the running
    thread, the same thread is still running afterwards and the ready list is
    as it was. *)
Definition lowering_forces_no_switch (new_priority : Z) (s : sched) : Prop :=
  ∀ s', thread_set_priority new_priority s = Some s' ->
        prio s' (running s) < prio s (running s) ->
        running s' = running s ∧ ready_list s' = ready_list s.

(** The relation the spec states between the two priorities of a thread:
    the effective priority is at least the base priority, and equal to it
    when the thread owns no lock. *)
Definition priorities_related (th : thread) : Prop :=
  real_priority th <= priority th
  ∧ (Owned_locks th = [] -> priority th = real_priority th).

Definition donation_inv (s : sched) : Prop :=
  map_Forall (λ _ th, priorities_related th) (threads s).

(** The public operations that write priorities. *)
Inductive op :=
  | OpCreate (page : option ptr) (priority : Z)
  | OpSetPriority (new_priority : Z)
  | OpDonate (t : ptr)
  | OpRecompute (t : ptr)
  | OpSetNice (new_nice : Z)
  | OpPerSecond.

Definition run_op (o : op) (s : sched) : option sched :=
  match o with
  | OpCreate page priority => snd <$> thread_create page priority s
  | OpSetPriority n => thread_set_priority n s
  | OpDonate t => thread_donate_priority t s
  | OpRecompute t => thread_update_priority t s
  | OpSetNice n => thread_set_nice n s
  | OpPerSecond => thread_update_recent_cpu_and_load_avg s
  end.

Fixpoint run_ops (os : list op) (s : sched) : option sched :=
  match os with
  | [] => Some s
  | o :: r => s' ← run_op o s; run_ops r s'
  end.

(** The operations of the donation protocol, as opposed to those that
    derive the priority from nice and recent_cpu. *)
Definition donation_op (o : op) : Prop :=
  match o with
  | OpSetNice _ | OpPerSecond => False
  | _ => True
  end.

(** What a re-sort followed by the yield check would leave behind: a ready
    list in descending order of priority, none of whose threads outranks the
    running thread. *)
Definition sorted_and_not_outranked (s : sched) : Prop :=
  descending s (ready_list s)
  ∧ Forall (λ t, prio s t <= prio s (running s)) (ready_list s).

(** The machine [s] as an external interrupt handler finds it: in
    interrupt context, with interrupts off; nothing else differs. *)
Definition in_interrupt_context (s : sched) : sched :=
  {| threads := threads s; locks := locks s; ready_list := ready_list s;
     all_list := all_list s; sleeping_list := sleeping_list s;
     idle_thread := idle_thread s; initial_thread := initial_thread s;
     running := running s; idle_ticks := idle_ticks s;
     kernel_ticks := kernel_ticks s; thread_ticks := thread_ticks s;
     thread_mlfqs := thread_mlfqs s; load_avg := load_avg s;
     next_tid := next_tid s; intr_on := false; intr_ctx := true;
     yield_on_return := yield_on_return s |}.

(** A run of timer ticks at the given times. *)
Fixpoint tick_all (times : list Z) (s : sched) : option sched :=
  match times with
  | [] => Some s
  | now :: r => s' ← thread_tick now s; tick_all r s'
  end.

(** The machine schedule leaves when the running thread is [c] and the
    thread to run next is [next]: [next] is taken off the ready list when it
    came from there, runs with a fresh time slice, and the page of a dying
    thread other than the initial thread is freed. *)
Definition dispatched (s : sched) (c : thread) (next : ptr) : sched :=
  let s1 := set_thread_ticks 0
              (update_thread (upd_status THREAD_RUNNING) next
                 (set_running next
                    (set_ready_list (tail (ready_list s)) s))) in
  if bool_decide (running s ≠ next ∧ status c = THREAD_DYING
                  ∧ Some (running s) ≠ initial_thread s)
  then set_threads (delete (running s) (threads s1)) s1
  else s1.

(** The bookkeeping of thread states: the running thread is the one and only
    thread with status THREAD_RUNNING, and the ready list holds threads with
    status THREAD_READY, none of them twice. *)
Definition sched_wf (s : sched) : Prop :=
  has_status THREAD_RUNNING s (running s)
  ∧ map_Forall (λ t th, status th = THREAD_RUNNING -> t = running s)
       (threads s)
  ∧ Forall (has_status THREAD_READY s) (ready_list s)
  ∧ NoDup (ready_list s).

(** The functions of thread.c that act on a running system, as operations. *)
Inductive sched_op :=
  | SUnblock (t : ptr)
  | SYield
  | SBlock
  | SExit
  | STick (current_time : Z)
  | SSleep (ticks current_time : Z)
  | SSetPriority (new_priority : Z)
  | STryYield
  | SSetNice (new_nice : Z)
  | SUpdatePriority (t : ptr)
  | SDonate (t : ptr)
  | SRecentCpuAndLoadAvg
  | SPriorityMlfqsAll
  | SIncRecentCpu (t : ptr).

Definition run_sched_op (o : sched_op) (s : sched) : option sched :=
  match o with
  | SUnblock t => thread_unblock t s
  | SYield => thread_yield s
  | SBlock => thread_block s
  | SExit => thread_exit s
  | STick now => thread_tick now s
  | SSleep ticks now => thread_sleep ticks now s
  | SSetPriority p => thread_set_priority p s
  | STryYield => thread_try_yeild s
  | SSetNice n => thread_set_nice n s
  | SUpdatePriority t => thread_update_priority t s
  | SDonate t => thread_donate_priority t s
  | SRecentCpuAndLoadAvg => thread_update_recent_cpu_and_load_avg s
  | SPriorityMlfqsAll => thread_update_priority_mlfqs_all s
  | SIncRecentCpu t => Some (inc_recent_cpu t s)
  end.

Fixpoint run_sched_ops (os : list sched_op) (s : sched) : option sched :=
  match os with
  | [] => Some s
  | o :: r => s' ← run_sched_op o s; run_sched_ops r s'
  end.

(** The operations after which the ready list is in priority order again
    when it was before.  thread_update_priority changes the priority of a
    thread and leaves its place in the list to the caller, and
    thread_update_recent_cpu_and_load_avg recomputes every priority without
    sorting the list. *)
Definition keeps_order (o : sched_op) : bool :=
  match o with
  | SUpdatePriority _ | SRecentCpuAndLoadAvg => false
  | _ => true
  end.

(** The ready list is consistent and in descending order of priority. *)
Definition ordered (s : sched) : Prop :=
  sched_wf s ∧ descending s (ready_list s).

(** The operations by which the running thread gives up the processor or
    offers to. *)
Definition gives_up (o : sched_op) : bool :=
  match o with
  | SYield | SBlock | SExit | SSleep _ _ | STryYield => true
  | _ => false
  end.

(** all_list holds no thread twice and only pointers to threads. *)
Definition all_live (s : sched) : Prop :=
  NoDup (all_list s) ∧ all_valid s (all_list s).

(** From [s] to [s'] all_list is the same and no page has been freed. *)
Definition pages_kept (s s' : sched) : Prop :=
  all_list s' = all_list s
  ∧ ∀ x, is_Some (threads s !! x) -> is_Some (threads s' !! x).

(** The operations that free no page: all but thread_exit. *)
Definition frees_no_page (o : sched_op) : bool :=
  match o with
  | SExit => false
  | _ => true
  end.

(** Every thread has a tid below the next one to be handed out. *)
Definition tids_below (s : sched) : Prop :=
  map_Forall (λ _ th, tid th < next_tid s) (threads s).

End Statements.

(** ** Instances used to run the model on concrete states *)

(** Modelled from the spec: the fixed-point module is not under src/.  The
    spec asks for signed fixed-point values with from-integer,
    to-integer-round-nearest, add, multiply, divide, scale-by-integer and
    add-integer; this is the 17.14 format on 32-bit integers with 64-bit
    intermediate products.  The general theorems hold for any instance; this
    one only serves to evaluate the model. *)
Definition FRACTION : Z := 2 ^ 14.

#[local] Instance fixed_17_14 : FixedPoint := {|
  real := Z;
  zeroed := 0;
  int_to_real n := int32 (n * FRACTION);
  real_to_int_toward_nearest x :=
    if bool_decide (x >= 0) then Z.quot (x + Z.quot FRACTION 2) FRACTION
    else Z.quot (x - Z.quot FRACTION 2) FRACTION;
  add x y := int32 (x + y);
  multiply x y := int32 (Z.quot (x * y) FRACTION);
  divide x y := int32 (Z.quot (x * FRACTION) y);
  multiply_by_int x n := int32 (x * n);
  divide_by_int x n := int32 (Z.quot x n);
  add_real_to_int x n := int32 (x + n * FRACTION);
  multiply_comm x y := f_equal (λ p, int32 (Z.quot p FRACTION)) (Z.mul_comm x y);
|}.

(** thread.h is not under src/: the theorems take its constants as
    parameters, and these are the values of stock Pintos, used to evaluate
    the model. *)
#[local] Instance pintos_thread_h : ThreadH := {|
  PRI_MIN := 0;
  PRI_DEFAULT := 31;
  PRI_MAX := 63;
  TID_ERROR := -1;
|}.

(** A layout under which the comparison made on all_list never holds: a new
    thread goes to the back of all_list. *)
#[local] Instance layout_back : ThreadLayout := {|
  ComparePriority_on_allelem _ _ _ := false;
|}.

(** A thread structure with the given fields and nothing else set. *)
Definition mk_thread (id : Z) (st : thread_status) (pri base : Z)
    (owned : list ptr) (waits : option ptr) (ni : Z) (rc : Z) (wake : Z)
  : thread :=
  {| tid := id; status := st; priority := pri; real_priority := base;
     Owned_locks := owned; Waited_on_lock := waits; nice := ni;
     recent_cpu := rc; waik_up_time := wake |}.

(** A machine with the given threads, locks and lists, the thread at [cur]
    running, no idle thread yet, a zero load average. *)
Definition mk_sched (ths : list (Z * thread)) (lks : list (Z * lock))
    (ready all sleeping : list ptr) (cur : ptr) (mlfqs : bool)
    (level in_handler : bool) : sched :=
  {| threads := list_to_map ths; locks := list_to_map lks;
     ready_list := ready; all_list := all; sleeping_list := sleeping;
     idle_thread := None; initial_thread := Some cur; running := cur;
     idle_ticks := 0; kernel_ticks := 0; thread_ticks := 0;
     thread_mlfqs := mlfqs; load_avg := 0; next_tid := 10;
     intr_on := level; intr_ctx := in_handler; yield_on_return := false |}.

(** Three blocked threads of priorities 5, 9 and 7 beside the running
    thread. *)
Definition three_blocked : sched :=
  mk_sched [(100, mk_thread 1 THREAD_RUNNING 31 31 [] None 0 0 0);
            (200, mk_thread 2 THREAD_BLOCKED 5 5 [] None 0 0 0);
            (300, mk_thread 3 THREAD_BLOCKED 9 9 [] None 0 0 0);
            (400, mk_thread 4 THREAD_BLOCKED 7 7 [] None 0 0 0)]
           [] [] [100; 200; 300; 400] [] 100 false true false.

(** The chain of the spec: A (at 100, base 1) holds L1 (at 1000); B (at
    200, base 2) holds L2 (at 2000) and is blocked on L1, to whose holder it
    has donated 2; C (at 300, priority 5) is about to block on L2, whose
    donation field already carries its priority. *)
Definition thread_A : thread := mk_thread 1 THREAD_READY 2 1 [1000] None 0 0 0.

Definition donation_chain : sched :=
  mk_sched [(100, thread_A);
            (200, mk_thread 2 THREAD_BLOCKED 2 2 [2000] (Some 1000) 0 0 0);
            (300, mk_thread 3 THREAD_RUNNING 5 5 [] (Some 2000) 0 0 0)]
           [(1000, {| Waiting_threads_max_priority := 2 |});
            (2000, {| Waiting_threads_max_priority := 5 |})]
           [100] [300; 100; 200] [] 300 false false false.

(** The machine as the loader leaves it in MLFQS mode: the code running on
    the page at 4096 is about to become the thread "main". *)
Definition boot_mlfqs : sched :=
  {| threads := ∅; locks := ∅; ready_list := []; all_list := [];
     sleeping_list := []; idle_thread := None; initial_thread := None;
     running := 4096; idle_ticks := 0; kernel_ticks := 0; thread_ticks := 0;
     thread_mlfqs := true; load_avg := 0; next_tid := 1;
     intr_on := false; intr_ctx := false; yield_on_return := false |}.

(** An MLFQS thread: priority, nice and recent_cpu (in fixed point). *)
Definition mlfqs_thread (id : Z) (st : thread_status) (pri ni rc : Z) : thread :=
  mk_thread id st pri 31 [] None ni rc 0.

(** An MLFQS machine inside the timer interrupt: the running thread (nice 20)
    and one ready thread (nice 0). *)
Definition second_in_handler : sched :=
  mk_sched [(100, mlfqs_thread 1 THREAD_RUNNING 23 20 0);
            (200, mlfqs_thread 2 THREAD_READY 63 0 0)]
           [] [200] [100; 200] [] 100 true false true.

(** An MLFQS machine outside interrupt context, interrupts off: the running
    thread (nice 5) and two ready threads, in the order their priorities gave
    them: nice 10 with no recent_cpu (priority 43), then nice 0 with a
    recent_cpu of 100 (priority 38). *)
Definition second_in_thread : sched :=
  mk_sched [(100, mlfqs_thread 1 THREAD_RUNNING 53 5 0);
            (200, mlfqs_thread 2 THREAD_READY 43 10 0);
            (300, mlfqs_thread 3 THREAD_READY 38 0 (100 * FRACTION))]
           [] [200; 300] [100; 200; 300] [] 100 true false false.

(** A thread about to call timer_sleep at tick 0 for 100 ticks, interrupts
    already off: one ready thread, two sleepers due at 50 and at 150. *)
Definition before_sleep : sched :=
  mk_sched [(100, mk_thread 1 THREAD_RUNNING 31 31 [] None 0 0 0);
            (200, mk_thread 2 THREAD_READY 31 31 [] None 0 0 0);
            (300, mk_thread 3 THREAD_BLOCKED 31 31 [] None 0 0 50);
            (400, mk_thread 4 THREAD_BLOCKED 31 31 [] None 0 0 150)]
           [] [200] [100; 200; 300; 400] [300; 400] 100 false false false.

(** The MLFQS machine once thread_init has run: "main" at priority 31. *)
Definition after_init_mlfqs : sched :=
  from_option id boot_mlfqs (thread_init boot_mlfqs).

(** An MLFQS machine whose only thread has nice 20, hence priority 23. *)
Definition nice_creator : sched :=
  mk_sched [(100, mlfqs_thread 1 THREAD_RUNNING 23 20 0)]
           [] [] [100] [] 100 true true false.

(** The machine once that thread is asleep. *)
Definition after_sleep : sched :=
  from_option id before_sleep (thread_sleep 100 0 before_sleep).

(** That machine once its thread has asked for a nice of -2^30, which
    thread_set_nice takes as it comes. *)
Definition extreme_nice : sched :=
  from_option id nice_creator (thread_set_nice (-1073741824) nice_creator).

(** An MLFQS machine outside interrupt context, interrupts off: the running
    thread has nice 20, the one ready thread nice 0. *)
Definition second_outranked : sched :=
  mk_sched [(100, mlfqs_thread 1 THREAD_RUNNING 23 20 0);
            (200, mlfqs_thread 2 THREAD_READY 63 0 0)]
           [] [200] [100; 200] [] 100 true false false.



(** The timer interrupt arrives while the thread at 100 runs, at the start
    of its time slice: one ready thread, two sleepers due at 50 and at
    150. *)
Definition in_timer_interrupt : sched := in_interrupt_context before_sleep.

(** A run of the donation protocol from the chain above: a thread is created
    at priority 40 and preempts, lowers its priority to 10, then B receives
    the donation of C and A is recomputed. *)
Definition donation_run : list op :=
  [OpCreate (Some 8192) 40; OpSetPriority 10; OpDonate 200; OpRecompute 100].

Definition after_donation_run : sched :=
  from_option id donation_chain (run_ops donation_run donation_chain).

(** The running thread at priority 31 with no lock, one ready thread at
    priority 20. *)
Definition one_ready_below : sched :=
  mk_sched [(100, mk_thread 1 THREAD_RUNNING 31 31 [] None 0 0 0);
            (200, mk_thread 2 THREAD_READY 20 20 [] None 0 0 0)]
           [] [200] [100; 200] [] 100 false true false.

(** A busy stretch on the machine about to sleep: the running thread sleeps,
    a sleeper wakes, threads yield, change priority, exit and block, and the
    MLFQS recomputations run. *)
Definition busy_run : list sched_op :=
  [SSleep 100 0; STick 50; SYield; SSetPriority 40; SDonate 200; STryYield;
   SExit; STick 100; SBlock; SSetNice 5; SIncRecentCpu 100;
   SUpdatePriority 200; SPriorityMlfqsAll; SRecentCpuAndLoadAvg; SUnblock 200].

Definition after_busy_run : sched :=
  from_option id before_sleep (run_sched_ops busy_run before_sleep).

(** The same stretch without the two operations that leave the order of the
    ready list to their caller. *)
Definition ordered_run : list sched_op :=
  [SSleep 100 0; STick 50; SYield; SSetPriority 40; SDonate 200; STryYield;
   SExit; STick 100; SBlock; SSetNice 5; SIncRecentCpu 100;
   SPriorityMlfqsAll; SUnblock 200].

Definition after_ordered_run : sched :=
  from_option id before_sleep (run_sched_ops ordered_run before_sleep).

(** Four timer ticks, none of which wakes a sleeper. *)
Definition after_four_ticks : sched :=
  from_option id in_timer_interrupt (tick_all [1; 2; 3; 4] in_timer_interrupt).

(** A thread of priority 40 created on the page at 8192 by the thread of
    priority 31. *)
Definition after_create : sched :=
  (from_option id (0, one_ready_below)
     (thread_create (Some 8192) 40 one_ready_below)).2.

(** The machine once the running thread has yielded to its equal. *)
Definition after_yield : sched :=
  from_option id before_sleep (thread_yield before_sleep).

(** * Properties *)

Section ListFacts.
Context {A : Type} (k : A -> Z).

Lemma list_insert_ordered_ext (less less' : A -> A -> bool) x l :
  (∀ a b, less a b = less' a b) ->
  list_insert_ordered less x l = list_insert_ordered less' x l.
Proof.
  intros E. induction l as [|e r IH]; simpl; [done|].
  rewrite E, IH. done.
Qed.

Lemma list_insert_ordered_perm (less : A -> A -> bool) x l :
  list_insert_ordered less x l ≡ₚ x :: l.
Proof.
  induction l as [|e r IH]; simpl; [done|].
  destruct (less x e); [done|].
  rewrite IH. apply Permutation_swap.
Qed.

Lemma foldl_insert_ordered_ext (less less' : A -> A -> bool) xs : ∀ l,
  (∀ a b, less a b = less' a b) ->
  foldl (λ acc x, list_insert_ordered less x acc) l xs
  = foldl (λ acc x, list_insert_ordered less' x acc) l xs.
Proof.
  induction xs as [|x r IH]; intros l E; simpl; [done|].
  rewrite (list_insert_ordered_ext less less') by done. by apply IH.
Qed.

Lemma foldl_insert_ordered_perm (less : A -> A -> bool) xs : ∀ l,
  foldl (λ acc x, list_insert_ordered less x acc) l xs ≡ₚ l ++ xs.
Proof.
  induction xs as [|x r IH]; intros l; simpl.
  - by rewrite app_nil_r.
  - rewrite IH, list_insert_ordered_perm. simpl. apply Permutation_middle.
Qed.

Lemma elem_of_list_insert_ordered (less : A -> A -> bool) x y l :
  y ∈ list_insert_ordered less x l <-> y = x ∨ y ∈ l.
Proof. rewrite list_insert_ordered_perm. apply elem_of_cons. Qed.

(** Inserting with "key of new > key of old" keeps a descending list
    descending. *)
Lemma list_insert_ordered_descending x l :
  StronglySorted (λ a b, k a >= k b) l ->
  StronglySorted (λ a b, k a >= k b)
    (list_insert_ordered (λ a b, bool_decide (k a > k b)) x l).
Proof.
  induction 1 as [|e r Hs IH Hall]; simpl.
  - repeat constructor.
  - case_bool_decide as Hc.
    + constructor; [by constructor|].
      constructor; [lia|].
      eapply Forall_impl; [exact Hall|]. simpl. intros; lia.
    + constructor; [exact IH|].
      apply Forall_forall. intros y Hy.
      apply elem_of_list_insert_ordered in Hy as [->|Hy]; [lia|].
      rewrite Forall_forall in Hall. by apply Hall.
Qed.

(** Inserting with "key of new < key of old" keeps an ascending list
    ascending. *)
Lemma list_insert_ordered_ascending x l :
  StronglySorted (λ a b, k a <= k b) l ->
  StronglySorted (λ a b, k a <= k b)
    (list_insert_ordered (λ a b, bool_decide (k a < k b)) x l).
Proof.
  induction 1 as [|e r Hs IH Hall]; simpl.
  - repeat constructor.
  - case_bool_decide as Hc.
    + constructor; [by constructor|].
      constructor; [lia|].
      eapply Forall_impl; [exact Hall|]. simpl. intros; lia.
    + constructor; [exact IH|].
      apply Forall_forall. intros y Hy.
      apply elem_of_list_insert_ordered in Hy as [->|Hy]; [lia|].
      rewrite Forall_forall in Hall. by apply Hall.
Qed.

Lemma foldl_insert_ordered_descending xs : ∀ l,
  StronglySorted (λ a b, k a >= k b) l ->
  StronglySorted (λ a b, k a >= k b)
    (foldl (λ acc x, list_insert_ordered (λ a b, bool_decide (k a > k b)) x acc)
           l xs).
Proof.
  induction xs as [|x r IH]; intros l Hl; simpl; [done|].
  by apply IH, list_insert_ordered_descending.
Qed.

Lemma sort_insert_perm (less : A -> A -> bool) x l :
  sort_insert less x l ≡ₚ x :: l.
Proof.
  induction l as [|e r IH]; simpl; [done|].
  destruct (less e x); [|done].
  rewrite IH. apply Permutation_swap.
Qed.

Lemma list_sort_perm (less : A -> A -> bool) l : list_sort less l ≡ₚ l.
Proof.
  induction l as [|e r IH]; simpl; [done|].
  fold (list_sort less r). by rewrite sort_insert_perm, IH.
Qed.

Lemma sort_insert_descending x l :
  StronglySorted (λ a b, k a >= k b) l ->
  StronglySorted (λ a b, k a >= k b)
    (sort_insert (λ a b, bool_decide (k a > k b)) x l).
Proof.
  induction 1 as [|e r Hs IH Hall]; simpl.
  - repeat constructor.
  - case_bool_decide as Hc.
    + constructor; [exact IH|].
      apply Forall_forall. intros y Hy.
      rewrite sort_insert_perm in Hy.
      apply elem_of_cons in Hy as [->|Hy]; [lia|].
      rewrite Forall_forall in Hall. by apply Hall.
    + constructor; [by constructor|].
      constructor; [lia|].
      eapply Forall_impl; [exact Hall|]. simpl. intros; lia.
Qed.

(** list_sort with a "greater key first" comparison sorts in descending
    order. *)
Lemma list_sort_descending l :
  StronglySorted (λ a b, k a >= k b)
    (list_sort (λ a b, bool_decide (k a > k b)) l).
Proof.
  induction l as [|e r IH]; simpl; [constructor|].
  by apply sort_insert_descending.
Qed.

(** The front of the sorted list is an element of greatest key. *)
Lemma list_sort_head_max l h :
  head (list_sort (λ a b, bool_decide (k a > k b)) l) = Some h ->
  h ∈ l ∧ ∀ y, y ∈ l -> k y <= k h.
Proof.
  intros Hh. pose proof (list_sort_descending l) as Hs.
  pose proof (list_sort_perm (λ a b, bool_decide (k a > k b)) l) as Hp.
  destruct (list_sort _ l) as [|x r]; simplify_eq/=.
  split; [rewrite <- Hp; left|].
  intros y Hy. rewrite <- Hp in Hy.
  apply StronglySorted_inv in Hs as [_ Hall].
  apply elem_of_cons in Hy as [->|Hy]; [lia|].
  rewrite Forall_forall in Hall. specialize (Hall y Hy). lia.
Qed.

Lemma list_remove_head (x : Z) (l : list Z) :
  x ∉ l -> list_remove x (x :: l) = l.
Proof.
  intros Hx. unfold list_remove. rewrite filter_cons_False by (intros H; by apply H).
  induction l as [|y r IH]; [done|].
  apply not_elem_of_cons in Hx as [Hne Hx].
  rewrite filter_cons_True by done. by rewrite IH.
Qed.

Lemma StronglySorted_key_ext_in {B} (f g : B -> Z) (R : Z -> Z -> Prop) (l : list B) :
  (∀ x, x ∈ l -> g x = f x) ->
  StronglySorted (λ a b, R (f a) (f b)) l ->
  StronglySorted (λ a b, R (g a) (g b)) l.
Proof.
  intros E H. induction H as [|e r Hs IH Hall]; constructor.
  - apply IH. intros x Hx. apply E. by right.
  - rewrite Forall_forall in *. intros x Hx.
    rewrite !E by (by constructor). by apply Hall.
Qed.

Lemma StronglySorted_key_ext {B} (f g : B -> Z) (R : Z -> Z -> Prop) (l : list B) :
  (∀ x, g x = f x) ->
  StronglySorted (λ a b, R (f a) (f b)) l ->
  StronglySorted (λ a b, R (g a) (g b)) l.
Proof. intros E. apply StronglySorted_key_ext_in. intros; apply E. Qed.

Lemma foldr_max_lower (b : Z) (zs : list Z) : b <= foldr Z.max b zs.
Proof. induction zs as [|z q IH]; cbn [foldr]; lia. Qed.

Lemma foldr_max_elem (b : Z) (zs : list Z) z : z ∈ zs -> z <= foldr Z.max b zs.
Proof.
  induction zs as [|z' q IH]; intros Hin; [by apply elem_of_nil in Hin|].
  cbn [foldr]. apply elem_of_cons in Hin as [->|Hin]; [lia|].
  specialize (IH Hin). lia.
Qed.

Lemma foldr_max_upper (b m : Z) (zs : list Z) :
  b <= m -> (∀ z, z ∈ zs -> z <= m) -> foldr Z.max b zs <= m.
Proof.
  intros Hb. induction zs as [|z q IH]; intros Hall; cbn [foldr]; [done|].
  assert (z <= m) by (apply Hall; left).
  assert (foldr Z.max b q <= m) by (apply IH; intros y Hy; apply Hall; by right).
  lia.
Qed.

Lemma foldr_max_perm (b : Z) (l1 l2 : list Z) :
  l1 ≡ₚ l2 -> foldr Z.max b l1 = foldr Z.max b l2.
Proof.
  induction 1 as [|x l l' _ IH|x y l|l l' l'' _ IH1 _ IH2]; cbn [foldr];
    [done|by rewrite IH|lia|congruence].
Qed.

(** The greatest of [b] and the keys of [l], when [h] has the greatest key
    of [l]. *)
Lemma foldr_max_greatest (b : Z) l h :
  h ∈ l -> (∀ y, y ∈ l -> k y <= k h) ->
  foldr Z.max b (k <$> l) = Z.max b (k h).
Proof.
  intros Hin Hmax.
  pose proof (foldr_max_lower b (k <$> l)).
  assert (k h <= foldr Z.max b (k <$> l))
    by (by apply foldr_max_elem, list_elem_of_fmap_2).
  assert (foldr Z.max b (k <$> l) <= Z.max b (k h)).
  { apply foldr_max_upper; [lia|]. intros z Hz.
    apply list_elem_of_fmap in Hz as (y & -> & Hy). specialize (Hmax y Hy). lia. }
  lia.
Qed.

(** With distinct keys a descending list is strictly descending. *)
Lemma descending_distinct_strict l :
  StronglySorted (λ a b, k a >= k b) l ->
  NoDup (k <$> l) ->
  StronglySorted (λ a b, k a > k b) l.
Proof.
  induction 1 as [|e r Hs IH Hall]; intros Hnd; [constructor|].
  rewrite fmap_cons in Hnd. apply NoDup_cons in Hnd as [Hne Hnd].
  constructor; [by apply IH|].
  rewrite Forall_forall in *. intros y Hy.
  specialize (Hall y Hy).
  assert (k y ≠ k e).
  { intros E. apply Hne. rewrite <- E. by apply list_elem_of_fmap_2. }
  lia.
Qed.

(** The head of a descending list carries the greatest key. *)
Lemma descending_head_max x l y :
  StronglySorted (λ a b, k a >= k b) (x :: l) -> y ∈ x :: l -> k y <= k x.
Proof.
  intros Hs Hy. apply StronglySorted_inv in Hs as [_ Hall].
  apply elem_of_cons in Hy as [->|Hy]; [lia|].
  rewrite Forall_forall in Hall. specialize (Hall y Hy). lia.
Qed.

(** Where list_insert_ordered puts an element with a "greater key first"
    comparison: behind every element it does not beat, in front of the first
    one it beats. *)
Lemma list_insert_ordered_split x l :
  ∃ l1 l2, l = l1 ++ l2
           ∧ list_insert_ordered (λ a b, bool_decide (k a > k b)) x l
             = l1 ++ x :: l2
           ∧ Forall (λ e, k x <= k e) l1
           ∧ (∀ e, head l2 = Some e -> k e < k x).
Proof.
  induction l as [|e r IH]; simpl.
  - exists [], []. repeat split; [constructor|]. intros e; simpl; done.
  - case_bool_decide as Hc.
    + exists [], (e :: r). repeat split; [constructor|].
      intros e' [= <-]. lia.
    + destruct IH as (l1 & l2 & -> & -> & Hall & Hhd).
      exists (e :: l1), l2. repeat split; [|done].
      constructor; [lia|done].
Qed.

Lemma StronglySorted_filter_keep (R : A -> A -> Prop) (P : A -> Prop)
    `{∀ x, Decision (P x)} (l : list A) :
  StronglySorted R l -> StronglySorted R (filter P l).
Proof.
  induction 1 as [|e r Hs IH Hall]; [constructor|].
  destruct (decide (P e)).
  - rewrite filter_cons_True by done. constructor; [done|].
    rewrite Forall_forall in *. intros x Hx.
    apply list_elem_of_filter in Hx as [_ Hx]. by apply Hall.
  - by rewrite filter_cons_False.
Qed.


End ListFacts.

Section Properties.
Context `{FP : FixedPoint} `{TH : ThreadH} `{LY : !ThreadLayout}.

(** ** Writing through a pointer *)

Lemma lookup_update_thread f t s x :
  threads (update_thread f t s) !! x
  = if decide (t = x) then f <$> threads s !! t else threads s !! x.
Proof. unfold update_thread; simpl. apply lookup_alter. Qed.

Lemma lookup_update_thread_eq f t s :
  threads (update_thread f t s) !! t = f <$> threads s !! t.
Proof. rewrite lookup_update_thread. by rewrite decide_True. Qed.

Lemma lookup_update_thread_ne f t s x :
  t ≠ x -> threads (update_thread f t s) !! x = threads s !! x.
Proof. intros. rewrite lookup_update_thread. by rewrite decide_False. Qed.

Lemma prio_update_thread f t s x :
  (∀ th, priority (f th) = priority th) ->
  prio (update_thread f t s) x = prio s x.
Proof.
  intros Hf. unfold prio. rewrite lookup_update_thread.
  case_decide as E; [subst x|done].
  destruct (threads s !! t); simpl; [apply Hf|done].
Qed.

(** ** thread_unblock *)

(** What thread_unblock does, the interrupt level put back. *)
Lemma thread_unblock_eq t s :
  thread_unblock t s
  = th ← threads s !! t;
    guard (status th = THREAD_BLOCKED);;
    Some (update_thread (upd_status THREAD_READY) t
            (set_ready_list
               (list_insert_ordered (ComparePriority s) t (ready_list s)) s)).
Proof.
  unfold thread_unblock. destruct (threads s !! t) as [th|]; simpl; [|done].
  case_guard; simpl; [|done]. destruct s; reflexivity.
Qed.

Lemma thread_unblock_blocked t s :
  has_status THREAD_BLOCKED s t ->
  thread_unblock t s
  = Some (update_thread (upd_status THREAD_READY) t
            (set_ready_list
               (list_insert_ordered (ComparePriority s) t (ready_list s)) s)).
Proof.
  unfold has_status. rewrite thread_unblock_eq. intros H.
  destruct (threads s !! t) as [th|]; simpl in *; [|done].
  rewrite option_guard_True; [done|congruence].
Qed.

Lemma thread_unblock_inv t s s' :
  thread_unblock t s = Some s' ->
  has_status THREAD_BLOCKED s t
  ∧ s' = update_thread (upd_status THREAD_READY) t
           (set_ready_list
              (list_insert_ordered (ComparePriority s) t (ready_list s)) s).
Proof.
  rewrite thread_unblock_eq. unfold has_status. intros H.
  destruct (threads s !! t) as [th|]; simpl in *; [|done].
  case_guard; simplify_eq/=. split; [congruence|done].
Qed.

Lemma ComparePriority_ext s s' :
  (∀ x, prio s' x = prio s x) ->
  ∀ a b, ComparePriority s' a b = ComparePriority s a b.
Proof. intros E a b. unfold ComparePriority. by rewrite !E. Qed.

(** A run of unblock calls on distinct blocked threads succeeds, changes no
    priority, and inserts the threads one after the other. *)
Lemma unblock_all_ready ts : ∀ s,
  Forall (has_status THREAD_BLOCKED s) ts ->
  NoDup ts ->
  ∃ s', unblock_all ts s = Some s'
        ∧ (∀ x, prio s' x = prio s x)
        ∧ (∀ x, x ∉ ts -> threads s' !! x = threads s !! x)
        ∧ Forall (has_status THREAD_READY s') ts
        ∧ ready_list s'
          = foldl (λ l t, list_insert_ordered (ComparePriority s) t l)
                  (ready_list s) ts.
Proof.
  induction ts as [|t r IH]; intros s Hb Hnd; simpl.
  - exists s. repeat split; done.
  - apply Forall_cons in Hb as [Ht Hr]. apply NoDup_cons in Hnd as [Hnot Hnd].
    rewrite (thread_unblock_blocked _ _ Ht). simpl.
    set (s1 := update_thread _ t _).
    assert (Hp1 : ∀ x, prio s1 x = prio s x).
    { intros x. unfold s1. by rewrite prio_update_thread. }
    destruct (IH s1) as (s' & Hrun & Hp & Hfr & Hst & Hrl); [|done|].
    { rewrite Forall_forall in *. intros x Hx. unfold has_status, s1.
      rewrite lookup_update_thread_ne; [by apply Hr|]. by intros ->. }
    exists s'. split; [done|]. split; [intros x; by rewrite Hp|].
    split.
    { intros x Hx. apply not_elem_of_cons in Hx as [Hxt Hx].
      rewrite Hfr by done. unfold s1.
      by rewrite lookup_update_thread_ne. }
    split.
    { constructor; [|done]. unfold has_status. rewrite Hfr by done.
      unfold s1. rewrite lookup_update_thread_eq. simpl.
      unfold has_status in Ht. by destruct (threads s !! t). }
    rewrite Hrl. unfold s1; simpl.
    apply foldl_insert_ordered_ext, ComparePriority_ext, Hp1.
Qed.

(** C1.  Take a machine whose ready list is in descending order of priority
    and a sequence of blocked threads such that the priorities of the ready
    threads and of the threads of the sequence are pairwise distinct.  After
    any number of the thread_unblock calls of the sequence, made in order,
    every call has succeeded without changing a priority, the ready list
    holds the threads that were ready plus the threads unblocked so far, it
    is in strictly descending order of priority, and its front element has
    the greatest priority of all threads in it, strictly greater than that of
    any element behind it. *)
Theorem C1_unblock_keeps_max_priority_in_front (s : sched) (ts pre suf : list ptr) :
  descending s (ready_list s) ->
  Forall (has_status THREAD_BLOCKED s) ts ->
  NoDup (prio s <$> (ready_list s ++ ts)) ->
  ts = pre ++ suf ->
  ∃ s', unblock_all pre s = Some s'
        ∧ (∀ x, prio s' x = prio s x)
        ∧ Forall (has_status THREAD_READY s') pre
        ∧ ready_list s' ≡ₚ ready_list s ++ pre
        ∧ strictly_descending s' (ready_list s')
        ∧ ∀ front rest, ready_list s' = front :: rest ->
            (∀ t, t ∈ ready_list s' -> prio s' t <= prio s' front)
            ∧ (∀ t, t ∈ rest -> prio s' t < prio s' front).
Proof.
  intros Hdesc Hb Hnd ->.
  apply Forall_app in Hb as [Hb _].
  assert (Hnd' : NoDup (prio s <$> (ready_list s ++ pre))).
  { rewrite app_assoc, fmap_app in Hnd. by apply NoDup_app in Hnd as [? _]. }
  clear Hnd.
  assert (Hpre : NoDup pre).
  { rewrite fmap_app in Hnd'. apply NoDup_app in Hnd' as (_ & _ & H).
    by apply NoDup_fmap_1 in H. }
  destruct (unblock_all_ready pre s Hb Hpre) as (s' & Hrun & Hp & _ & Hst & Hrl).
  assert (Hperm : ready_list s' ≡ₚ ready_list s ++ pre).
  { rewrite Hrl. apply foldl_insert_ordered_perm. }
  assert (Hge : StronglySorted (λ a b, prio s a >= prio s b) (ready_list s')).
  { rewrite Hrl. unfold ComparePriority.
    by apply (foldl_insert_ordered_descending (prio s)). }
  assert (Hgt : StronglySorted (λ a b, prio s a > prio s b) (ready_list s')).
  { apply descending_distinct_strict; [done|]. by rewrite Hperm. }
  assert (Hext : ∀ (R : Z -> Z -> Prop) l,
             StronglySorted (λ a b, R (prio s a) (prio s b)) l ->
             StronglySorted (λ a b, R (prio s' a) (prio s' b)) l).
  { intros R l. induction 1 as [|e r Hs IH Hall]; constructor; [done|].
    eapply Forall_impl; [exact Hall|]. simpl. intros x. by rewrite !Hp. }
  exists s'. do 4 (split; [done|]).
  split; [by apply (Hext (λ a b, a > b))|].
  intros front rest Hfr. rewrite Hfr in Hge, Hgt. split.
  - intros t Ht. rewrite !Hp. rewrite Hfr in Ht.
    by apply (descending_head_max (prio s) front rest).
  - intros t Ht. rewrite !Hp.
    apply StronglySorted_inv in Hgt as [_ Hall].
    rewrite Forall_forall in Hall. specialize (Hall t Ht). lia.
Qed.

(** ** Priority donation *)

(** thread_update_priority as one write to the thread: the owned locks are
    left sorted and the priority is the donated maximum. *)
Lemma thread_update_priority_eq t s th :
  threads s !! t = Some th ->
  thread_update_priority t s
  = Some (update_thread
            (λ x, upd_priority (donation_max s th)
                    (if bool_decide (Owned_locks th ≠ [])
                     then upd_Owned_locks
                            (list_sort (lock_cmp_priority s) (Owned_locks th)) x
                     else x)) t s).
Proof.
  intros Hth. unfold thread_update_priority. simpl. rewrite Hth. simpl.
  assert (Hmax :
    (if bool_decide (Owned_locks th ≠ [])
     then
       let m := from_option (lock_pri s) 0
                  (head (list_sort (lock_cmp_priority s) (Owned_locks th))) in
       if bool_decide (real_priority th < m) then m else real_priority th
     else real_priority th) = donation_max s th).
  { unfold donation_max. case_bool_decide as Hne.
    - destruct (head (list_sort (lock_cmp_priority s) (Owned_locks th)))
        as [h|] eqn:Hh.
      + apply (list_sort_head_max (lock_pri s)) in Hh as [Hin Hall].
        rewrite (foldr_max_greatest (lock_pri s) _ _ h Hin Hall). simpl.
        case_bool_decide; lia.
      + apply head_None in Hh.
        pose proof (list_sort_perm (lock_cmp_priority s) (Owned_locks th)) as Hp.
        rewrite Hh in Hp. apply Permutation_nil_l in Hp. congruence.
    - by rewrite Hne. }
  rewrite <- Hmax. f_equal.
  unfold update_thread. destruct s; simpl in *.
  case_bool_decide; simpl.
  - f_equal. rewrite alter_alter_eq. done.
  - done.
Qed.

(** The recomputation touches one thread and no lock. *)
Lemma thread_update_priority_frame t s s' :
  thread_update_priority t s = Some s' ->
  (∀ x, x ≠ t -> threads s' !! x = threads s !! x)
  ∧ locks s' = locks s
  ∧ ready_list s' = ready_list s
  ∧ (∀ th, threads s !! t = Some th ->
       ∃ th', threads s' !! t = Some th'
              ∧ real_priority th' = real_priority th
              ∧ status th' = status th
              ∧ Owned_locks th' ≡ₚ Owned_locks th).
Proof.
  destruct (threads s !! t) as [th|] eqn:Hth.
  - rewrite (thread_update_priority_eq _ _ _ Hth). intros [= <-].
    split; [intros x Hx; by rewrite lookup_update_thread_ne|].
    do 2 (split; [done|]). intros th0 [= <-].
    eexists. rewrite lookup_update_thread_eq, Hth. split; [done|].
    case_bool_decide; simpl; repeat split; try done.
    apply list_sort_perm.
  - unfold thread_update_priority. simpl. rewrite Hth. done.
Qed.

(** What the recomputation yields depends on the thread and the locks only. *)
Lemma donation_max_frame s s' th th' :
  locks s' = locks s ->
  real_priority th' = real_priority th ->
  Owned_locks th' ≡ₚ Owned_locks th ->
  donation_max s' th' = donation_max s th.
Proof.
  intros Hl Hr Hp. unfold donation_max. rewrite Hr.
  assert (Hk : ∀ l, lock_pri s' l = lock_pri s l).
  { intros l. unfold lock_pri. by rewrite Hl. }
  rewrite (list_fmap_ext (lock_pri s') (lock_pri s)) by (intros; apply Hk).
  apply foldr_max_perm. by rewrite Hp.
Qed.

(** thread_donate_priority: the recomputation, then the thread put back in
    its place in the ready list when it is ready. *)
Lemma thread_donate_priority_eq t s th :
  threads s !! t = Some th ->
  thread_donate_priority t s
  = s1 ← thread_update_priority t s;
    Some (if bool_decide (status th = THREAD_READY)
          then set_ready_list
                 (list_insert_ordered (ComparePriority s1) t
                    (list_remove t (ready_list s))) s1
          else s1).
Proof.
  intros Hth. unfold thread_donate_priority.
  rewrite (thread_update_priority_eq t (intr_set_level false s) th Hth).
  rewrite (thread_update_priority_eq t s th Hth).
  cbn [mbind option_bind].
  rewrite lookup_update_thread_eq. cbn [threads intr_set_level].
  rewrite Hth. cbn [fmap option_fmap option_map mbind option_bind].
  assert (Hst : ∀ m, status
            (upd_priority m
               (if bool_decide (Owned_locks th ≠ [])
                then upd_Owned_locks
                       (list_sort (lock_cmp_priority (intr_set_level false s))
                          (Owned_locks th)) th
                else th)) = status th) by (intros; by case_bool_decide).
  rewrite Hst. by destruct (bool_decide (status th = THREAD_READY)).
Qed.

(** thread_donate_priority recomputes [t] and touches no other thread and no
    lock. *)
Lemma thread_donate_priority_frame t s s' :
  thread_donate_priority t s = Some s' ->
  (∀ x, x ≠ t -> threads s' !! x = threads s !! x)
  ∧ locks s' = locks s
  ∧ ∃ s1, thread_update_priority t s = Some s1 ∧ threads s' = threads s1.
Proof.
  destruct (threads s !! t) as [th|] eqn:Hth.
  - rewrite (thread_donate_priority_eq _ _ _ Hth).
    destruct (thread_update_priority t s) as [s1|] eqn:H1; [|done].
    cbn [mbind option_bind]. intros [= <-].
    apply thread_update_priority_frame in H1 as (Hfr & Hlk & _).
    split; [intros x Hx; rewrite <- Hfr by done; by case_bool_decide|].
    split; [rewrite <- Hlk; by case_bool_decide|].
    exists s1. split; [done|]. by case_bool_decide.
  - unfold thread_donate_priority, thread_update_priority. simpl.
    rewrite Hth. done.
Qed.

(** C2.  For a thread [t], thread_update_priority succeeds and sets the
    priority of [t] to the greatest of its base priority and the donation
    fields (max_waiter_priority) of the locks it owns, which is the base
    priority when it owns no lock.  The recomputation writes to no other
    thread and to no lock, and so is single-level: after a donation to any
    other thread [b] (which raises [b] alone), recomputing [t] gives the
    priority it gave before, whatever [b] has become. *)
Theorem C2_recompute_is_single_level_max (s : sched) (t : ptr) (th : thread) :
  threads s !! t = Some th ->
  ∃ s', thread_update_priority t s = Some s'
        ∧ prio s' t = donation_max s th
        ∧ (Owned_locks th = [] -> prio s' t = real_priority th)
        ∧ (∀ l, l ∈ Owned_locks th -> lock_pri s l <= prio s' t)
        ∧ real_priority th <= prio s' t
        ∧ (∀ x, x ≠ t -> threads s' !! x = threads s !! x)
        ∧ locks s' = locks s
        ∧ ∀ b s1 s2, b ≠ t ->
            thread_donate_priority b s = Some s1 ->
            thread_update_priority t s1 = Some s2 ->
            prio s2 t = prio s' t ∧ locks s1 = locks s.
Proof.
  intros Hth. pose proof (thread_update_priority_eq _ _ _ Hth) as E.
  eexists. split; [exact E|].
  assert (Hp : ∀ s0 th0, threads s0 !! t = Some th0 ->
            ∀ s0', thread_update_priority t s0 = Some s0' ->
            prio s0' t = donation_max s0 th0).
  { intros s0 th0 H0 s0' E0. rewrite (thread_update_priority_eq _ _ _ H0) in E0.
    injection E0 as <-. unfold prio. rewrite lookup_update_thread_eq, H0. done. }
  pose proof (Hp _ _ Hth _ E) as Hprio.
  split; [done|]. split.
  { intros Hnil. rewrite Hprio. unfold donation_max. by rewrite Hnil. }
  split.
  { intros l Hl. rewrite Hprio. unfold donation_max.
    by apply foldr_max_elem, list_elem_of_fmap_2. }
  split; [rewrite Hprio; apply foldr_max_lower|].
  destruct (thread_update_priority_frame _ _ _ E) as (Hfr & Hlk & _).
  do 2 (split; [done|]).
  intros b s1 s2 Hb Hd Hu.
  apply thread_donate_priority_frame in Hd as (Hfr1 & Hlk1 & _).
  assert (H1 : threads s1 !! t = Some th) by (rewrite Hfr1; done).
  rewrite (Hp _ _ H1 _ Hu), Hprio. split; [|done].
  by apply donation_max_frame.
Qed.

(** ** Dispatch *)

Lemma thread_current_Some s :
  has_status THREAD_RUNNING s (running s) -> thread_current s = Some (running s).
Proof.
  unfold thread_current, has_status. intros H.
  destruct (threads s !! running s) as [c|]; simpl in *; [|done].
  rewrite option_guard_True; [done|congruence].
Qed.

Lemma thread_current_inv s c :
  thread_current s = Some c ->
  c = running s ∧ has_status THREAD_RUNNING s (running s).
Proof.
  unfold thread_current, has_status. intros H.
  destruct (threads s !! running s) as [th|]; simpl in *; [|done].
  rewrite option_guard_bool_decide in H. case_bool_decide; simplify_eq/=.
  split; [done|congruence].
Qed.

(** thread_tick step by step: the tick is counted, the sleepers that are
    due are woken, and at the end of the time slice, which has to be in
    interrupt context, the yield is asked for. *)
Lemma thread_tick_inv now s s' :
  thread_tick now s = Some s' ->
  ∃ s1,
    has_status THREAD_RUNNING s (running s)
    ∧ wake_loop now
        (sleeping_list
           (if bool_decide (Some (running s) = idle_thread s)
            then set_idle_ticks (int64 (idle_ticks s + 1)) s
            else set_kernel_ticks (int64 (kernel_ticks s + 1)) s))
        (if bool_decide (Some (running s) = idle_thread s)
         then set_idle_ticks (int64 (idle_ticks s + 1)) s
         else set_kernel_ticks (int64 (kernel_ticks s + 1)) s) = Some s1
    ∧ (uint32 (thread_ticks s1 + 1) >= TIME_SLICE -> intr_ctx s1 = true)
    ∧ s' = if bool_decide (uint32 (thread_ticks s1 + 1) >= TIME_SLICE)
           then set_yield_on_return true
                  (set_thread_ticks (uint32 (thread_ticks s1 + 1)) s1)
           else set_thread_ticks (uint32 (thread_ticks s1 + 1)) s1.
Proof.
  intros H. unfold thread_tick in H.
  destruct (thread_current s) as [cur|] eqn:Hcur; [|done].
  apply thread_current_inv in Hcur as [-> Hrun].
  cbn [mbind option_bind] in H.
  destruct (wake_loop _ _ _) as [s1|] eqn:Hw; [|done].
  cbn [mbind option_bind] in H. exists s1. do 2 (split; [done|]).
  cbn [thread_ticks set_thread_ticks] in H.
  destruct (bool_decide (uint32 (thread_ticks s1 + 1) >= TIME_SLICE)) eqn:Hb.
  - unfold intr_yield_on_return in H. cbn [intr_ctx set_thread_ticks] in H.
    destruct (decide (intr_ctx s1 = true)) as [Hc|Hc].
    + rewrite option_guard_True in H by done. cbn [mbind option_bind] in H.
      injection H as <-. done.
    + by rewrite option_guard_False in H.
  - injection H as <-. split; [|done]. intros Hge.
    apply bool_decide_eq_false in Hb. done.
Qed.

(** schedule, called for a running thread that has given up the processor
    without dying: the front of the ready list, or the idle thread, becomes
    the running thread; no thread structure is freed. *)
Lemma schedule_inv s s' st :
  schedule s = Some s' ->
  has_status st s (running s) -> st ≠ THREAD_DYING ->
  ∃ next, next_from s (ready_list s) = Some next
          ∧ is_Some (threads s !! next)
          ∧ st ≠ THREAD_RUNNING
          ∧ intr_on s = false
          ∧ running s' = next
          ∧ ready_list s' = tail (ready_list s)
          ∧ threads s' = alter (upd_status THREAD_RUNNING) next (threads s)
          ∧ intr_on s' = false
          ∧ same_globals s s'.
Proof.
  unfold schedule, has_status, next_thread_to_run. intros H Hst Hdy.
  destruct (threads s !! running s) as [c|] eqn:Hc; [|done].
  simpl in Hst. injection Hst as Hst.
  assert (Hgen : ∀ (q : list ptr) (nx : option ptr),
    (guard (intr_on s = false);;
     c0 ← threads s !! running s;
     guard (status c0 ≠ THREAD_RUNNING);;
     next ← nx;
     _ ← threads s !! next;
     if bool_decide (running s ≠ next)
     then thread_schedule_tail (Some (running s))
            (set_running next (set_ready_list q s))
     else thread_schedule_tail None (set_ready_list q s)) = Some s' ->
    ∃ next, nx = Some next ∧ is_Some (threads s !! next)
            ∧ st ≠ THREAD_RUNNING ∧ intr_on s = false
            ∧ running s' = next ∧ ready_list s' = q
            ∧ threads s' = alter (upd_status THREAD_RUNNING) next (threads s)
            ∧ intr_on s' = false ∧ same_globals s s').
  { intros q nx Hq.
    case_guard as Hi; simpl in Hq; [|done].
    rewrite Hc in Hq. simpl in Hq.
    case_guard as Hr; simpl in Hq; [|done].
    destruct nx as [next|]; simpl in Hq; [|done].
    destruct (threads s !! next) as [n|] eqn:Hn; simpl in Hq; [|done].
    exists next. split; [done|]. split; [by eexists|].
    split; [congruence|]. split; [done|].
    unfold thread_schedule_tail in Hq. simpl in Hq.
    rewrite option_guard_True in Hq by done. simpl in Hq.
    case_bool_decide as Hne; simpl in Hq.
    - rewrite lookup_alter_ne in Hq by done. rewrite Hc in Hq. simpl in Hq.
      rewrite bool_decide_false in Hq by (intros [? _]; congruence).
      injection Hq as <-. simpl. unfold same_globals. simpl. done.
    - rewrite option_guard_True in Hq by done. simpl in Hq.
      injection Hq as <-. simpl. rewrite <- Hne.
      unfold same_globals. simpl. done. }
  destruct (ready_list s) as [|n r] eqn:Hrl.
  - apply (Hgen [] (idle_thread s)). simpl in H.
    replace (set_ready_list [] s) with s; [exact H|].
    destruct s; simpl in *; by subst.
  - simpl. apply (Hgen r (Some n)). exact H.
Qed.

(** schedule does not panic when interrupts are off, the caller has left the
    running state without dying, and the thread to run next is a thread. *)
Lemma schedule_total s st next :
  intr_on s = false ->
  has_status st s (running s) -> st ≠ THREAD_RUNNING -> st ≠ THREAD_DYING ->
  next_from s (ready_list s) = Some next ->
  is_Some (threads s !! next) ->
  is_Some (schedule s).
Proof.
  unfold schedule, has_status, next_thread_to_run, next_from.
  intros Hi Hst Hr Hd Hnx [n Hn].
  destruct (threads s !! running s) as [c|] eqn:Hc; [|done].
  simpl in Hst. injection Hst as Hst.
  assert (Hgen : ∀ q,
    is_Some
      (guard (intr_on s = false);;
       c0 ← threads s !! running s;
       guard (status c0 ≠ THREAD_RUNNING);;
       next ← Some next;
       _ ← threads s !! next;
       if bool_decide (running s ≠ next)
       then thread_schedule_tail (Some (running s))
              (set_running next (set_ready_list q s))
       else thread_schedule_tail None (set_ready_list q s))).
  { intros q. rewrite option_guard_True by done. simpl. rewrite Hc. simpl.
    rewrite option_guard_True by congruence. simpl. rewrite Hn. simpl.
    unfold thread_schedule_tail. simpl.
    rewrite option_guard_True by done. simpl.
    case_bool_decide as Hne; simpl.
    - rewrite lookup_alter_ne by done. rewrite Hc. simpl.
      rewrite bool_decide_false by (intros [? _]; congruence). by eexists.
    - rewrite option_guard_True by done. by eexists. }
  destruct (ready_list s) as [|m r] eqn:Hrl.
  - rewrite Hnx. specialize (Hgen []).
    replace (set_ready_list [] s) with s in Hgen; [exact Hgen|].
    destruct s; simpl in *; by subst.
  - injection Hnx as ->. apply Hgen.
Qed.

(** thread_yield: the caller goes back to the ready list in the place its
    priority gives it (the idle thread does not), and the front of the
    ready list runs. *)
Lemma thread_yield_inv s s' :
  thread_yield s = Some s' ->
  has_status THREAD_RUNNING s (running s) ∧ intr_ctx s = false
  ∧ ∃ next, next_from s (queue_at_yield s) = Some next
            ∧ is_Some (threads s !! next)
            ∧ running s' = next
            ∧ ready_list s' = tail (queue_at_yield s)
            ∧ threads s' = alter (upd_status THREAD_RUNNING) next
                             (alter (upd_status THREAD_READY) (running s)
                                (threads s))
            ∧ same_globals s s'.
Proof.
  unfold thread_yield. intros H.
  destruct (thread_current s) as [cur|] eqn:Hcur; simpl in H; [|done].
  apply thread_current_inv in Hcur as [-> Hst].
  rewrite option_guard_bool_decide in H.
  case_bool_decide as Hctx; [|done].
  do 2 (split; [done|]). unfold has_status in Hst.
  destruct (threads s !! running s) as [c|] eqn:Hc; [|done].
  match type of H with
  | context [schedule ?X] =>
      set (X0 := X) in *; destruct (schedule X0) as [s1|] eqn:Hs
  end; simpl in H; [|done].
  assert (Eq : ready_list X0 = queue_at_yield s
               ∧ idle_thread X0 = idle_thread s
               ∧ threads X0 = alter (upd_status THREAD_READY) (running s) (threads s)
               ∧ same_globals s X0
               ∧ running X0 = running s).
  { subst X0. unfold queue_at_yield, same_globals. simpl.
    by destruct (bool_decide (Some (running s) ≠ idle_thread s)). }
  destruct Eq as (Eq1 & Eq2 & Eq3 & Eq4 & Eq5).
  apply (schedule_inv _ _ THREAD_READY) in Hs; [| |done].
  2:{ unfold has_status. rewrite Eq5, Eq3, lookup_alter_eq, Hc. done. }
  destruct Hs as (next & Hnx & Hval & _ & _ & Hr & Hrl & Hth & Hoff & Hg).
  exists next. split.
  { rewrite <- Eq1. unfold next_from in *. by rewrite <- Eq2. }
  split.
  { rewrite Eq3 in Hval. destruct Hval as [x Hx].
    apply lookup_alter_Some in Hx as [(_ & y & Hy & _)|[_ Hy]]; by eexists. }
  assert (Hfin : running s' = running s1 ∧ ready_list s' = ready_list s1
                 ∧ threads s' = threads s1 ∧ same_globals s1 s').
  { injection H as <-. unfold same_globals. by case_bool_decide. }
  destruct Hfin as (F1 & F2 & F3 & F4).
  split; [congruence|]. split; [congruence|]. split; [congruence|].
  unfold same_globals in *. intuition congruence.
Qed.

(** thread_yield does not panic when the caller is the running thread,
    outside interrupt context, and the ready list holds threads. *)
Lemma thread_yield_total s :
  has_status THREAD_RUNNING s (running s) ->
  intr_ctx s = false ->
  all_valid s (ready_list s) ->
  is_Some (thread_yield s).
Proof.
  unfold thread_yield, thread_current, has_status. intros Hst Hctx Hval.
  destruct (threads s !! running s) as [c|] eqn:Hc; simpl in *; [|done].
  injection Hst as Hst.
  rewrite option_guard_True by done. simpl.
  rewrite option_guard_True by done. simpl.
  match goal with
  | |- context [schedule ?X] => set (X0 := X) in *
  end.
  assert (Eq : ready_list X0 = queue_at_yield s
               ∧ idle_thread X0 = idle_thread s
               ∧ running X0 = running s
               ∧ intr_on X0 = false
               ∧ threads X0 = alter (upd_status THREAD_READY) (running s) (threads s)).
  { subst X0. unfold queue_at_yield. simpl.
    by destruct (bool_decide (Some (running s) ≠ idle_thread s)). }
  destruct Eq as (Eq1 & Eq2 & Eq3 & Eq4 & Eq5).
  assert (Hq : ∃ next, next_from s (queue_at_yield s) = Some next
                       ∧ is_Some (threads s !! next)).
  { unfold queue_at_yield, next_from. case_bool_decide as Hidle.
    - destruct (list_insert_ordered (ComparePriority s) (running s)
                  (ready_list s)) as [|n r] eqn:Hins.
      + pose proof (list_insert_ordered_perm (ComparePriority s) (running s)
                      (ready_list s)) as Hp.
        rewrite Hins in Hp. by apply Permutation_nil_cons in Hp.
      + exists n. split; [done|].
        assert (Hn : n ∈ list_insert_ordered (ComparePriority s) (running s)
                          (ready_list s)) by (rewrite Hins; left).
        apply elem_of_list_insert_ordered in Hn as [->|Hn]; [by eexists|].
        unfold all_valid in Hval. rewrite Forall_forall in Hval. by apply Hval.
    - destruct (ready_list s) as [|n r] eqn:Hrl.
      + exists (running s). split; [by rewrite Hidle|by eexists].
      + exists n. split; [done|].
        apply Forall_cons in Hval as [Hn _]. exact Hn. }
  destruct Hq as (next & Hnx & [n Hn]).
  destruct (schedule_total X0 THREAD_READY next) as [s1 Hs1]; try done.
  - unfold has_status. rewrite Eq3, Eq5, lookup_alter_eq, Hc. done.
  - rewrite Eq1. unfold next_from in *. by rewrite Eq2.
  - rewrite Eq5. destruct (decide (running s = next)) as [<-|Hne].
    + rewrite lookup_alter_eq, Hc. by eexists.
    + rewrite lookup_alter_ne by done. by eexists.
  - rewrite Hs1. simpl. by eexists.
Qed.

(** ** The yield check *)

Lemma intr_level_restored s : intr_set_level (intr_on s) (intr_set_level false s) = s.
Proof. by destruct s. Qed.

(** thread_try_yeild, for a caller that is the running thread. *)
Lemma thread_try_yeild_cases s :
  has_status THREAD_RUNNING s (running s) ->
  thread_try_yeild s
  = if intr_ctx s then Some s
    else if front_outranks s then thread_yield s else Some s.
Proof.
  intros Hst. unfold thread_try_yeild, front_outranks.
  destruct (intr_ctx s); [done|]. cbn [ready_list intr_set_level].
  destruct (ready_list s) as [|f r] eqn:Hrl; cbn [mbind option_bind].
  - by rewrite intr_level_restored.
  - assert (Hc : thread_current (intr_set_level false s) = Some (running s))
      by (by apply (thread_current_Some (intr_set_level false s))).
    rewrite Hc. cbn [mbind option_bind].
    change (prio (intr_set_level false s)) with (prio s).
    rewrite intr_level_restored. done.
Qed.

(** A yield only rewrites the status of threads. *)
Lemma thread_yield_status_only s s' :
  thread_yield s = Some s' ->
  same_globals s s'
  ∧ ∀ x th, threads s !! x = Some th ->
      ∃ st, threads s' !! x = Some (upd_status st th).
Proof.
  intros H. apply thread_yield_inv in H
    as (_ & _ & next & _ & _ & _ & _ & Hth & Hg).
  split; [done|]. intros x th Hx. rewrite Hth.
  destruct (decide (next = x)) as [->|Hn].
  - rewrite lookup_alter_eq.
    destruct (decide (running s = x)) as [->|Hc].
    + rewrite lookup_alter_eq, Hx. by eexists.
    + rewrite lookup_alter_ne, Hx by done. by eexists.
  - rewrite lookup_alter_ne by done.
    destruct (decide (running s = x)) as [->|Hc].
    + rewrite lookup_alter_eq, Hx. by eexists.
    + rewrite lookup_alter_ne, Hx by done. exists (status th). by destruct th.
Qed.

Lemma thread_try_yeild_inv s s' :
  thread_try_yeild s = Some s' ->
  s' = s
  ∨ (intr_ctx s = false ∧ front_outranks s = true ∧ thread_yield s = Some s').
Proof.
  unfold thread_try_yeild, front_outranks.
  destruct (intr_ctx s); [intros [= <-]; by left|].
  cbn [ready_list intr_set_level]. rewrite intr_level_restored.
  destruct (ready_list s) as [|f r]; cbn [mbind option_bind].
  - intros [= <-]; by left.
  - destruct (thread_current (intr_set_level false s)) as [cur|] eqn:Hc;
      cbn [mbind option_bind]; [|done].
    apply thread_current_inv in Hc as [-> _].
    change (prio (intr_set_level false s)) with (prio s).
    change (running (intr_set_level false s)) with (running s).
    destruct (bool_decide (prio s f > prio s (running s)));
      [intros H; by right|intros [= <-]; by left].
Qed.

Lemma thread_try_yeild_status_only s s' :
  thread_try_yeild s = Some s' ->
  same_globals s s'
  ∧ ∀ x th, threads s !! x = Some th ->
      ∃ st, threads s' !! x = Some (upd_status st th).
Proof.
  intros H. apply thread_try_yeild_inv in H as [->|(_ & _ & H)].
  - split; [by unfold same_globals|].
    intros x th Hx. exists (status th). rewrite Hx. by destruct th.
  - by apply thread_yield_status_only.
Qed.

Lemma thread_try_yeild_total s :
  has_status THREAD_RUNNING s (running s) ->
  all_valid s (ready_list s) ->
  is_Some (thread_try_yeild s).
Proof.
  intros Hst Hval. rewrite thread_try_yeild_cases by done.
  destruct (intr_ctx s) eqn:Hctx; [by eexists|].
  destruct (front_outranks s); [|by eexists].
  by apply thread_yield_total.
Qed.

(** A yield while the front of the ready list has a priority at least the
    caller's: the front takes the processor and the caller, ready, waits in
    the list. *)
Lemma thread_yield_front_takes_over s f r :
  has_status THREAD_RUNNING s (running s) -> intr_ctx s = false ->
  all_valid s (ready_list s) ->
  ready_list s = f :: r -> prio s (running s) <= prio s f -> f ≠ running s ->
  ∃ s', thread_yield s = Some s'
        ∧ running s' = f
        ∧ has_status THREAD_RUNNING s' f
        ∧ has_status THREAD_READY s' (running s)
        ∧ (Some (running s) ≠ idle_thread s -> running s ∈ ready_list s')
        ∧ threads s' !! running s
          = upd_status THREAD_READY <$> threads s !! running s
        ∧ (∀ x, prio s' x = prio s x).
Proof.
  intros Hst Hctx Hval Hrl Hle Hne.
  destruct (thread_yield_total s Hst Hctx Hval) as [s' Hs'].
  exists s'. split; [done|].
  apply thread_yield_inv in Hs'
    as (_ & _ & next & Hnx & [n Hn] & Hr & Hrl' & Hth & _).
  assert (Hq : ∃ q, queue_at_yield s = f :: q
                    ∧ (Some (running s) ≠ idle_thread s -> running s ∈ q)).
  { unfold queue_at_yield. rewrite Hrl.
    destruct (bool_decide (Some (running s) ≠ idle_thread s)) eqn:Hb.
    - cbn [list_insert_ordered]. unfold ComparePriority at 1.
      rewrite bool_decide_false by lia. eexists. split; [done|].
      intros _. apply elem_of_list_insert_ordered. by left.
    - exists r. split; [done|]. intros Hi.
      apply bool_decide_eq_false in Hb. done. }
  destruct Hq as (q & Hq & Hin). rewrite Hq in Hnx, Hrl'.
  cbn [next_from] in Hnx. injection Hnx as <-.
  cbn [tail] in Hrl'.
  split; [done|]. split.
  { unfold has_status. by rewrite Hth, lookup_alter_eq, lookup_alter_ne, Hn. }
  assert (Hcur : threads s' !! running s
                 = upd_status THREAD_READY <$> threads s !! running s).
  { by rewrite Hth, lookup_alter_ne, lookup_alter_eq. }
  split.
  { unfold has_status in *. rewrite Hcur.
    by destruct (threads s !! running s). }
  split; [intros Hi; rewrite Hrl'; by apply Hin|]. split; [done|].
  intros x. unfold prio. rewrite Hth.
  destruct (decide (f = x)) as [<-|Hx].
  - rewrite lookup_alter_eq, lookup_alter_ne, Hn by done. done.
  - rewrite lookup_alter_ne by done.
    destruct (decide (running s = x)) as [<-|Hx'].
    + rewrite lookup_alter_eq. by destruct (threads s !! running s).
    + by rewrite lookup_alter_ne.
Qed.

(** The yield check when the front of the ready list outranks the caller,
    outside interrupt context. *)
Lemma thread_try_yeild_outranked s f r :
  has_status THREAD_RUNNING s (running s) -> intr_ctx s = false ->
  all_valid s (ready_list s) ->
  ready_list s = f :: r -> prio s f > prio s (running s) ->
  ∃ s', thread_try_yeild s = Some s'
        ∧ running s' = f
        ∧ has_status THREAD_RUNNING s' f
        ∧ has_status THREAD_READY s' (running s)
        ∧ (Some (running s) ≠ idle_thread s -> running s ∈ ready_list s')
        ∧ threads s' !! running s
          = upd_status THREAD_READY <$> threads s !! running s
        ∧ (∀ x, prio s' x = prio s x).
Proof.
  intros Hst Hctx Hval Hrl Hgt.
  rewrite thread_try_yeild_cases, Hctx by done.
  unfold front_outranks. rewrite Hrl, bool_decide_true by done.
  apply (thread_yield_front_takes_over s f r); try done; [lia|].
  intros ->. lia.
Qed.

(** ** MLFQS *)

Lemma int32_id z : in_int32 z -> int32 z = z.
Proof.
  unfold in_int32, int32, wrap. intros H.
  rewrite Z.mod_small; lia.
Qed.

Lemma mlfqs_priority_no_overflow th :
  let r := real_to_int_toward_nearest (divide_by_int (recent_cpu th) 4) in
  PRI_MIN <= PRI_MAX ->
  in_int32 (nice th * 2) -> in_int32 (PRI_MAX - r) ->
  in_int32 (PRI_MAX - r - nice th * 2) ->
  mlfqs_priority th = clamp (PRI_MAX - r - nice th * 2) PRI_MIN PRI_MAX.
Proof.
  intros r Hle H1 H2 H3. unfold mlfqs_priority, clamp. fold r.
  rewrite (int32_id (nice th * 2)) by done.
  rewrite (int32_id (PRI_MAX - r)) by done.
  rewrite (int32_id (PRI_MAX - r - nice th * 2)) by done.
  repeat case_bool_decide; lia.
Qed.

(** C4, amended.  For a thread [t] whose recent_cpu and nice keep the [int]
    computation free of overflow, thread_update_priority_mlfqs sets the
    priority of [t] to PRI_MAX minus the round-to-nearest integer value of
    recent_cpu / 4 minus 2 * nice, clamped into the range from PRI_MIN to
    PRI_MAX; it changes nothing else in [t] and no other thread. *)
Theorem C4_mlfqs_priority_is_clamped_formula (s : sched) (t : ptr) (th : thread) :
  let r := real_to_int_toward_nearest (divide_by_int (recent_cpu th) 4) in
  threads s !! t = Some th ->
  PRI_MIN <= PRI_MAX ->
  in_int32 (nice th * 2) -> in_int32 (PRI_MAX - r) ->
  in_int32 (PRI_MAX - r - nice th * 2) ->
  prio (thread_update_priority_mlfqs t s) t
    = clamp (PRI_MAX - r - nice th * 2) PRI_MIN PRI_MAX
  ∧ PRI_MIN <= prio (thread_update_priority_mlfqs t s) t <= PRI_MAX
  ∧ threads (thread_update_priority_mlfqs t s) !! t
    = Some (upd_priority (prio (thread_update_priority_mlfqs t s) t) th)
  ∧ ∀ x, x ≠ t ->
      threads (thread_update_priority_mlfqs t s) !! x = threads s !! x.
Proof.
  intros r Hth Hle H1 H2 H3.
  assert (Hl : threads (thread_update_priority_mlfqs t s) !! t
               = Some (upd_priority (mlfqs_priority th) th)).
  { unfold thread_update_priority_mlfqs.
    by rewrite lookup_update_thread_eq, Hth. }
  assert (Hp : prio (thread_update_priority_mlfqs t s) t = mlfqs_priority th).
  { unfold prio. by rewrite Hl. }
  rewrite Hp, Hl, (mlfqs_priority_no_overflow th) by done. fold r.
  split; [done|]. split; [unfold clamp; lia|]. split; [done|].
  intros x Hx. unfold thread_update_priority_mlfqs.
  by rewrite lookup_update_thread_ne.
Qed.

Lemma thread_update_recent_cpu_eq t s :
  thread_update_recent_cpu t s
  = update_thread (recomputed (load_avg s)) t s.
Proof.
  unfold thread_update_recent_cpu, thread_update_priority_mlfqs, update_thread.
  destruct s; unfold set_threads; simpl. f_equal.
  rewrite alter_alter_eq. apply alter_ext. intros th _.
  unfold recomputed, next_recent_cpu. simpl. by rewrite multiply_comm.
Qed.

(** thread_foreach with thread_update_recent_cpu: every thread of the list
    is recomputed once, under the load average the walk started with, and
    nothing but the thread structures changes. *)
Lemma foreach_update_recent_cpu l : ∀ s0,
  NoDup l ->
  let s1 := foldl (λ acc t, thread_update_recent_cpu t acc) s0 l in
  (∀ x, threads s1 !! x
        = if decide (x ∈ l)
          then recomputed (load_avg s0) <$> threads s0 !! x
          else threads s0 !! x)
  ∧ s1 = set_threads (threads s1) s0.
Proof.
  induction l as [|t r IH]; intros s0 Hnd; cbn [foldl].
  - split; [intros x; rewrite decide_False; [done|apply not_elem_of_nil]|].
    by destruct s0.
  - apply NoDup_cons in Hnd as [Hnot Hnd].
    destruct (IH (thread_update_recent_cpu t s0) Hnd) as [Hl Hfr].
    rewrite thread_update_recent_cpu_eq in Hl, Hfr |- *.
    split.
    + intros x. rewrite Hl. cbn [load_avg update_thread set_threads].
      destruct (decide (x = t)) as [->|Hne].
      * rewrite decide_False by done. rewrite decide_True by left.
        unfold update_thread. simpl. by rewrite lookup_alter_eq.
      * unfold update_thread. simpl. rewrite lookup_alter_ne by done.
        destruct (decide (x ∈ r)) as [Hin|Hin].
        -- rewrite decide_True by (by right). done.
        -- rewrite decide_False; [done|]. by apply not_elem_of_cons.
    + rewrite Hfr at 1. by destruct s0.
Qed.

(** The per-second recomputation, cut at the yield check: [ready_count]
    threads counted, the load average replaced, every thread of all_list
    recomputed. *)
Lemma per_second_eq s :
  has_status THREAD_RUNNING s (running s) ->
  intr_on s = false ->
  thread_update_recent_cpu_and_load_avg s
  = thread_try_yeild
      (foldl (λ acc t, thread_update_recent_cpu t acc)
         (set_load_avg
            (next_load_avg (load_avg s)
               (int32 (Z.of_nat (length (ready_list s))
                       + (if bool_decide (Some (running s) ≠ idle_thread s)
                          then 1 else 0)))) s)
         (all_list s)).
Proof.
  intros Hst Hoff. unfold thread_update_recent_cpu_and_load_avg, get_ready_threads.
  rewrite thread_current_Some by done. cbn [mbind option_bind].
  unfold thread_foreach. cbn [intr_on set_load_avg].
  rewrite option_guard_True by done. done.
Qed.

(** The walk over all_list changes thread structures only, and in them
    neither the status nor the base priority nor the owned locks. *)
Lemma foreach_update_recent_cpu_frame l : ∀ s0,
  let s1 := foldl (λ acc t, thread_update_recent_cpu t acc) s0 l in
  s1 = set_threads (threads s1) s0
  ∧ ∀ x, status <$> threads s1 !! x = status <$> threads s0 !! x.
Proof.
  induction l as [|t r IH]; intros s0; cbn [foldl].
  - split; [by destruct s0|done].
  - destruct (IH (thread_update_recent_cpu t s0)) as [Hfr Hst].
    rewrite thread_update_recent_cpu_eq in Hfr, Hst |- *.
    split; [rewrite Hfr at 1; by destruct s0|].
    intros x. rewrite Hst, lookup_update_thread.
    case_decide as E; [subst x|done].
    destruct (threads s0 !! t); reflexivity.
Qed.

(** C3.  Called by the running thread with interrupts off, on a machine
    whose all_list has no repetition and whose ready list holds threads, the
    per-second recomputation succeeds; it sets load_avg to
    (59/60)*load_avg + (1/60)*ready_count, where ready_count is the length of
    the ready list plus 1 if the running thread is not the idle thread; and
    every thread of all_list gets recent_cpu
    (2*load_avg / (2*load_avg + 1))*recent_cpu + nice computed with the new
    load_avg, all in the operations of the fixed-point module, its nice
    unchanged and its priority derived from the new recent_cpu.  A thread
    outside all_list keeps its recent_cpu and priority. *)
Theorem C3_per_second_load_avg_and_recent_cpu (s : sched) :
  let ready_count :=
    Z.of_nat (length (ready_list s))
    + (if bool_decide (Some (running s) ≠ idle_thread s) then 1 else 0) in
  has_status THREAD_RUNNING s (running s) ->
  intr_on s = false ->
  NoDup (all_list s) ->
  all_valid s (ready_list s) ->
  Z.of_nat (length (ready_list s)) + 1 < 2 ^ 31 ->
  ∃ s', thread_update_recent_cpu_and_load_avg s = Some s'
        ∧ load_avg s' = next_load_avg (load_avg s) ready_count
        ∧ (∀ t th, t ∈ all_list s -> threads s !! t = Some th ->
             ∃ th', threads s' !! t = Some th'
                    ∧ recent_cpu th'
                      = next_recent_cpu (load_avg s') (recent_cpu th) (nice th)
                    ∧ nice th' = nice th
                    ∧ priority th' = mlfqs_priority th')
        ∧ (∀ t th, t ∉ all_list s -> threads s !! t = Some th ->
             ∃ th', threads s' !! t = Some th'
                    ∧ recent_cpu th' = recent_cpu th
                    ∧ priority th' = priority th).
Proof.
  intros rc Hst Hoff Hnd Hval Hlen.
  rewrite per_second_eq by done.
  subst rc. rewrite int32_id by (unfold in_int32; case_bool_decide; lia).
  set (rc := Z.of_nat (length (ready_list s)) + _).
  set (s0 := set_load_avg (next_load_avg (load_avg s) rc) s).
  destruct (foreach_update_recent_cpu (all_list s) s0 Hnd) as [Hl Hfr].
  set (s1 := foldl _ s0 (all_list s)) in *.
  assert (Hst1 : has_status THREAD_RUNNING s1 (running s1)).
  { rewrite Hfr. cbn [running set_threads s0 set_load_avg].
    unfold has_status in *. rewrite Hl. cbn [threads s0 set_load_avg].
    destruct (threads s !! running s) as [c|]; [|done].
    by case_decide. }
  assert (Hval1 : all_valid s1 (ready_list s1)).
  { rewrite Hfr. cbn [ready_list set_threads s0 set_load_avg].
    unfold all_valid in *. eapply Forall_impl; [exact Hval|].
    intros x [c Hc]. rewrite Hl. cbn [threads s0 set_load_avg].
    rewrite Hc. case_decide; by eexists. }
  destruct (thread_try_yeild_total s1 Hst1 Hval1) as [s' Hs'].
  exists s'. split; [exact Hs'|].
  apply thread_try_yeild_status_only in Hs' as [Hg Hth].
  assert (Hla : load_avg s' = next_load_avg (load_avg s) rc).
  { destruct Hg as (_ & _ & _ & _ & _ & _ & -> & _). by rewrite Hfr. }
  split; [done|]. split.
  - intros t th Hin Ht.
    destruct (Hth t (recomputed (load_avg s0) th)) as [st Hst'].
    { rewrite Hl, decide_True by done. cbn [threads s0 set_load_avg].
      by rewrite Ht. }
    eexists. split; [exact Hst'|]. rewrite Hla. done.
  - intros t th Hin Ht.
    destruct (Hth t th) as [st Hst'].
    { rewrite Hl, decide_False by done. done. }
    eexists. split; [exact Hst'|]. done.
Qed.

(** C8, amended.  Called by the running thread with interrupts off, the
    per-second recomputation is the recomputation of load_avg and of every
    thread of all_list, which leaves the machine [s1], followed by the yield
    check on [s1].  In interrupt context the check is skipped and the result
    is [s1].  Outside interrupt context, when the front of the ready list of
    [s1] has a priority strictly above the running thread's, the running
    thread yields: the front thread runs and the caller, ready, waits in the
    ready list; otherwise the result is [s1], with the caller still
    running. *)
Theorem C8_recomputation_then_yield_check (s : sched) :
  has_status THREAD_RUNNING s (running s) ->
  intr_on s = false ->
  ∃ s1, thread_foreach thread_update_recent_cpu
          (set_load_avg
             (next_load_avg (load_avg s)
                (int32 (Z.of_nat (length (ready_list s))
                        + (if bool_decide (Some (running s) ≠ idle_thread s)
                           then 1 else 0)))) s) = Some s1
        ∧ thread_update_recent_cpu_and_load_avg s = thread_try_yeild s1
        ∧ intr_ctx s1 = intr_ctx s
        ∧ running s1 = running s
        ∧ ready_list s1 = ready_list s
        ∧ (intr_ctx s = true ->
             thread_update_recent_cpu_and_load_avg s = Some s1)
        ∧ (intr_ctx s = false -> front_outranks s1 = true ->
             thread_update_recent_cpu_and_load_avg s = thread_yield s1)
        ∧ (intr_ctx s = false -> front_outranks s1 = false ->
             thread_update_recent_cpu_and_load_avg s = Some s1)
        ∧ (intr_ctx s = false -> all_valid s (ready_list s) ->
           ∀ f r, ready_list s = f :: r ->
             prio s1 f > prio s1 (running s) ->
             ∃ s', thread_update_recent_cpu_and_load_avg s = Some s'
                   ∧ running s' = f
                   ∧ has_status THREAD_RUNNING s' f
                   ∧ has_status THREAD_READY s' (running s)
                   ∧ (Some (running s) ≠ idle_thread s ->
                      running s ∈ ready_list s')
                   ∧ (∀ x, prio s' x = prio s1 x)).
Proof.
  intros Hst Hoff. rewrite per_second_eq by done.
  unfold thread_foreach. cbn [intr_on set_load_avg].
  rewrite option_guard_True by done.
  set (s0 := set_load_avg _ s).
  destruct (foreach_update_recent_cpu_frame (all_list s) s0) as [Hfr Hsts].
  change (all_list s0) with (all_list s).
  set (s1 := foldl _ s0 (all_list s)) in *.
  assert (Hctx : intr_ctx s1 = intr_ctx s) by (by rewrite Hfr).
  assert (Hrun : running s1 = running s) by (by rewrite Hfr).
  assert (Hrl : ready_list s1 = ready_list s) by (by rewrite Hfr).
  assert (Hidle : idle_thread s1 = idle_thread s) by (by rewrite Hfr).
  assert (Hst1 : has_status THREAD_RUNNING s1 (running s1)).
  { unfold has_status. by rewrite Hsts, Hrun. }
  exists s1. split; [done|]. split; [done|]. split; [done|]. split; [done|].
  split; [done|].
  split; [|split; [|split]].
  - intros Hc. rewrite thread_try_yeild_cases by done. by rewrite Hctx, Hc.
  - intros Hc Hf. rewrite thread_try_yeild_cases by done.
    by rewrite Hctx, Hc, Hf.
  - intros Hc Hf. rewrite thread_try_yeild_cases by done.
    by rewrite Hctx, Hc, Hf.
  - intros Hc Hval f r Hf Hgt.
    destruct (thread_try_yeild_outranked s1 f r)
      as (s' & Hs' & H1 & H2 & H3 & H4 & _ & H5); try done.
    + congruence.
    + unfold all_valid in *. rewrite Hrl.
      eapply Forall_impl; [exact Hval|]. cbv beta. intros x [c Hc'].
      pose proof (Hsts x) as E. change (threads s0) with (threads s) in E.
      rewrite Hc' in E. destruct (threads s1 !! x); [by eexists|done].
    + congruence.
    + by rewrite Hrun.
    + exists s'. split; [done|]. split; [done|]. split; [done|].
      rewrite Hrun, Hidle in *. done.
Qed.


(** ** The sleep queue *)

(** The loop of thread_tick on a sleeping list that satisfies its invariant:
    it unblocks a prefix of the list, the threads that are due, and leaves the
    rest, of which none is due. *)
Lemma wake_loop_spec now l : ∀ s,
  sleeping_list s = l -> NoDup l ->
  Forall (has_status THREAD_BLOCKED s) l ->
  ascending_wake s l ->
  ∃ s' woken rest,
    wake_loop now l s = Some s'
    ∧ l = woken ++ rest
    ∧ sleeping_list s' = rest
    ∧ Forall (λ t, wake_time s t <= now) woken
    ∧ Forall (λ t, now < wake_time s t) rest
    ∧ (∀ x, wake_time s' x = wake_time s x)
    ∧ (∀ x, x ∉ woken -> threads s' !! x = threads s !! x)
    ∧ Forall (has_status THREAD_READY s') woken
    ∧ (∀ x, x ∈ ready_list s ∨ x ∈ woken <-> x ∈ ready_list s')
    ∧ s' = set_sleeping_list (sleeping_list s')
             (set_ready_list (ready_list s') (set_threads (threads s') s)).
Proof.
  induction l as [|thr rest IH]; intros s Hsl Hnd Hbl Hasc; cbn [wake_loop].
  - exists s, [], []. rewrite Hsl. repeat split; try done.
    + intros [H|H]; [done|by apply elem_of_nil in H].
    + intros H; by left.
    + destruct s; simpl in *; by subst.
  - apply NoDup_cons in Hnd as [Hnot Hnd].
    apply Forall_cons in Hbl as [Hthr Hbl].
    pose proof Hasc as Hasc0.
    apply StronglySorted_inv in Hasc as [Hasc Hle].
    case_bool_decide as Hdue.
    + exists s, [], (thr :: rest). repeat split; try done.
      * constructor; [done|]. eapply Forall_impl; [exact Hle|].
        simpl. intros; lia.
      * intros [H|H]; [done|by apply elem_of_nil in H].
      * intros H; by left.
      * rewrite Hsl. destruct s; simpl in *; by subst.
    + rewrite (thread_unblock_blocked _ _ Hthr). cbn [mbind option_bind].
      set (s2 := set_sleeping_list _ _).
      assert (Hth2 : threads s2
                     = alter (upd_status THREAD_READY) thr (threads s)) by done.
      assert (Hw2 : ∀ x, wake_time s2 x = wake_time s x).
      { intros x. unfold wake_time. rewrite Hth2, lookup_alter.
        case_decide as E; [subst x|done]. by destruct (threads s !! thr). }
      destruct (IH s2) as (s' & woken & rest' & Hrun & Hsplit & Hsl' & Hdue'
                           & Hnd' & Hw & Hfr & Hrd & Hin & Heq).
      { unfold s2. cbn [sleeping_list set_sleeping_list update_thread
                        set_threads set_ready_list].
        rewrite Hsl. by apply list_remove_head. }
      { done. }
      { rewrite Forall_forall in *. intros x Hx. unfold has_status.
        rewrite Hth2, lookup_alter_ne; [by apply Hbl|]. by intros ->. }
      { unfold ascending_wake in *.
        by apply (StronglySorted_key_ext (wake_time s) (wake_time s2)
                    (λ a b, a <= b)). }
      assert (Hthr_not : thr ∉ woken).
      { intros H. apply Hnot. rewrite Hsplit. apply elem_of_app. by left. }
      exists s', (thr :: woken), rest'. split; [exact Hrun|].
      split; [by rewrite Hsplit|]. split; [done|].
      split.
      { constructor; [lia|]. eapply Forall_impl; [exact Hdue'|].
        simpl. intros x. by rewrite Hw2. }
      split.
      { eapply Forall_impl; [exact Hnd'|]. simpl. intros x. by rewrite Hw2. }
      split; [intros x; by rewrite Hw, Hw2|].
      split.
      { intros x Hx. apply not_elem_of_cons in Hx as [Hne Hx].
        rewrite Hfr, Hth2 by done. by rewrite lookup_alter_ne. }
      split.
      { constructor; [|done]. unfold has_status.
        rewrite Hfr, Hth2, lookup_alter_eq by done.
        unfold has_status in Hthr. by destruct (threads s !! thr). }
      split.
      { intros x. rewrite <- Hin. unfold s2.
        cbn [ready_list set_sleeping_list update_thread set_threads set_ready_list].
        rewrite elem_of_list_insert_ordered, elem_of_cons. tauto. }
      rewrite Heq at 1. unfold s2. by destruct s.
Qed.

(** One timer tick, in interrupt context, on a machine whose sleeping list
    satisfies its invariant. *)
Lemma thread_tick_spec now s :
  has_status THREAD_RUNNING s (running s) -> sleep_inv s ->
  intr_ctx s = true ->
  ∃ s' woken,
    thread_tick now s = Some s'
    ∧ sleeping_list s = woken ++ sleeping_list s'
    ∧ Forall (λ t, wake_time s t <= now) woken
    ∧ Forall (λ t, now < wake_time s t) (sleeping_list s')
    ∧ (∀ x, wake_time s' x = wake_time s x)
    ∧ (∀ x, x ∉ woken -> threads s' !! x = threads s !! x)
    ∧ Forall (has_status THREAD_READY s') woken
    ∧ (∀ x, x ∈ ready_list s ∨ x ∈ woken <-> x ∈ ready_list s')
    ∧ running s' = running s
    ∧ sleep_inv s'
    ∧ has_status THREAD_RUNNING s' (running s')
    ∧ intr_ctx s' = true.
Proof.
  intros Hst (Hnd & Hbl & Hasc) Hctx. unfold thread_tick.
  rewrite thread_current_Some by done. cbn [mbind option_bind].
  set (sa := if bool_decide (Some (running s) = idle_thread s)
             then set_idle_ticks (int64 (idle_ticks s + 1)) s
             else set_kernel_ticks (int64 (kernel_ticks s + 1)) s).
  assert (Ha : threads sa = threads s ∧ sleeping_list sa = sleeping_list s
               ∧ ready_list sa = ready_list s ∧ running sa = running s).
  { unfold sa. by case_bool_decide. }
  destruct Ha as (Ha1 & Ha2 & Ha3 & Ha4).
  assert (Hwa : ∀ x, wake_time sa x = wake_time s x)
    by (intros x; unfold wake_time; by rewrite Ha1).
  destruct (wake_loop_spec now (sleeping_list sa) sa) as
    (s1 & woken & rest & Hrun & Hsplit & Hsl & Hdue & Hnot & Hw & Hfr & Hrd
     & Hin & Heq); [done|by rewrite Ha2| |..].
  { rewrite Ha2. eapply Forall_impl; [exact Hbl|].
    intros x. unfold has_status. by rewrite Ha1. }
  { rewrite Ha2. unfold ascending_wake in *.
    by apply (StronglySorted_key_ext (wake_time s) (wake_time sa) (λ a b, a <= b)). }
  rewrite Hrun. cbn [mbind option_bind].
  assert (Hctx1 : intr_ctx s1 = true).
  { rewrite Heq. cbn [intr_ctx set_sleeping_list set_ready_list set_threads].
    unfold sa. by destruct (bool_decide (Some (running s) = idle_thread s)). }
  unfold intr_yield_on_return. cbn [intr_ctx set_thread_ticks].
  rewrite option_guard_True by done. cbn [mbind option_bind].
  set (b := bool_decide _).
  set (s2 := set_thread_ticks _ s1).
  replace (if b then Some (set_yield_on_return true s2) else Some s2)
    with (Some (if b then set_yield_on_return true s2 else s2))
    by (by destruct b).
  set (s' := if b then _ else _).
  assert (Hs' : threads s' = threads s1 ∧ sleeping_list s' = sleeping_list s1
                ∧ ready_list s' = ready_list s1 ∧ running s' = running s1
                ∧ intr_ctx s' = intr_ctx s1).
  { unfold s'. by destruct b. }
  destruct Hs' as (E1 & E2 & E3 & E4 & E5).
  assert (Hw' : ∀ x, wake_time s' x = wake_time s x).
  { intros x. unfold wake_time at 1. rewrite E1.
    change (wake_time s1 x = wake_time s x). by rewrite Hw, Hwa. }
  assert (Hrun1 : running s1 = running s) by (rewrite Heq; done).
  assert (Hnw : running s ∉ woken).
  { intros Hx. rewrite Ha2 in Hsplit.
    rewrite Forall_forall in Hbl. specialize (Hbl (running s)).
    unfold has_status in Hbl, Hst. rewrite Hst in Hbl.
    assert (Some THREAD_RUNNING = Some THREAD_BLOCKED); [|done].
    apply Hbl. rewrite Hsplit. apply elem_of_app. by left. }
  exists s', woken. split; [done|].
  rewrite E2, Hsl. rewrite Ha2 in Hsplit.
  split; [done|].
  split; [eapply Forall_impl; [exact Hdue|]; intros x; simpl; by rewrite Hwa|].
  split; [eapply Forall_impl; [exact Hnot|]; intros x; simpl; by rewrite Hwa|].
  split; [done|].
  split; [intros x Hx; by rewrite E1, Hfr, Ha1|].
  split.
  { eapply Forall_impl; [exact Hrd|]. intros x. unfold has_status. by rewrite E1. }
  split; [intros x; by rewrite E3, <- Hin, Ha3|].
  split; [by rewrite E4, Hrun1|].
  split.
  - unfold sleep_inv. rewrite E2, Hsl. rewrite Hsplit in Hnd, Hbl, Hasc.
    split; [by apply NoDup_app in Hnd as (_ & _ & ?)|].
    split.
    + apply NoDup_app in Hnd as (_ & Hdis & _).
      apply Forall_app in Hbl as [_ Hbl].
      rewrite Forall_forall in *. intros x Hx. unfold has_status.
      rewrite E1, Hfr, Ha1; [by apply Hbl|].
      intros Hxw. by apply (Hdis x).
    + unfold ascending_wake in *.
      apply (StronglySorted_key_ext (wake_time s) (wake_time s') (λ a b, a <= b));
        [done|].
      by apply StronglySorted_app_1_r in Hasc.
  - split; [|by rewrite E5].
    unfold has_status. rewrite E4, Hrun1, E1, Hfr, Ha1 by done. exact Hst.
Qed.

(** thread_sleep puts the caller in the sleeping list at the place its
    deadline gives it and blocks it; the sleeping list keeps its invariant. *)
Lemma thread_sleep_spec ticks current_time z s :
  sleep_inv z -> exclusive z ->
  thread_sleep ticks current_time z = Some s ->
  sleep_inv s
  ∧ running z ∈ sleeping_list s
  ∧ wake_time s (running z) = int64 (current_time + ticks)
  ∧ has_status THREAD_BLOCKED s (running z)
  ∧ has_status THREAD_RUNNING s (running s)
  ∧ sleeping_list s ≡ₚ running z :: sleeping_list z.
Proof.
  intros (Hnd & Hbl & Hasc) (Hx1 & Hx2 & Hx3 & Hx4 & Hx5) H.
  unfold thread_sleep in H.
  destruct (thread_current z) as [cur|] eqn:Hcur; cbn [mbind option_bind] in H;
    [|done].
  apply thread_current_inv in Hcur as [-> Hst].
  set (d := int64 (current_time + ticks)) in *.
  set (X1 := update_thread (upd_waik_up_time d) (running z) z) in *.
  assert (Hst1 : has_status THREAD_RUNNING X1 (running X1)).
  { unfold has_status, X1 in *. cbn [running update_thread set_threads].
    rewrite lookup_update_thread_eq. by destruct (threads z !! running z). }
  rewrite thread_current_Some in H by done. cbn [mbind option_bind] in H.
  change (running X1) with (running z) in H.
  set (X2 := set_sleeping_list _ X1) in *.
  unfold thread_block in H. rewrite !option_guard_bool_decide in H.
  case_bool_decide as Hctx; [|done]. case_bool_decide as Hoff; [|done].
  rewrite (thread_current_Some X2) in H by exact Hst1.
  cbn [mbind option_bind] in H. change (running X2) with (running z) in H.
  set (X3 := update_thread (upd_status THREAD_BLOCKED) (running z) X2) in *.
  assert (Hth3 : threads X3
                 = alter (upd_status THREAD_BLOCKED) (running z)
                     (alter (upd_waik_up_time d) (running z) (threads z)))
    by done.
  assert (Hw1 : wake_time X1 (running z) = d).
  { unfold wake_time, X1. rewrite lookup_update_thread_eq.
    unfold has_status in Hst. by destruct (threads z !! running z). }
  assert (Hw1' : ∀ x, x ≠ running z -> wake_time X1 x = wake_time z x).
  { intros x Hx. unfold wake_time, X1. by rewrite lookup_update_thread_ne. }
  apply (schedule_inv _ _ THREAD_BLOCKED) in H; [| |done].
  2:{ unfold has_status. change (running X3) with (running z).
      rewrite Hth3, lookup_alter_eq, lookup_alter_eq.
      unfold has_status in Hst. by destruct (threads z !! running z). }
  destruct H as (next & Hnx & [n Hn] & _ & _ & Hr & Hrl & Hth & _ & Hg).
  destruct Hg as (_ & _ & Hsl & _).
  assert (Hne : next ≠ running z).
  { intros ->. change (ready_list X3) with (ready_list z) in Hnx.
    change (idle_thread X3) with (idle_thread z) in Hnx.
    unfold next_from in Hnx. destruct (ready_list z) as [|f r] eqn:Hrz.
    - by apply Hx3.
    - injection Hnx as ->. apply Hx2. left. }
  assert (Hnsl : next ∉ sleeping_list z).
  { change (ready_list X3) with (ready_list z) in Hnx.
    change (idle_thread X3) with (idle_thread z) in Hnx.
    unfold next_from in Hnx. destruct (ready_list z) as [|f r] eqn:Hrz.
    - change (idle_thread X3) with (idle_thread z) in Hnx.
      by rewrite Hnx in Hx5.
    - injection Hnx as ->. by apply Forall_cons in Hx4 as [? _]. }
  assert (Hws : ∀ x, wake_time s x = wake_time X1 x).
  { intros x. unfold wake_time. rewrite Hth, Hth3.
    change (threads X1) with (alter (upd_waik_up_time d) (running z) (threads z)).
    rewrite !lookup_alter. repeat case_decide; subst;
      by destruct (alter _ _ _ !! _) || by destruct (threads z !! _). }
  assert (Hsl' : sleeping_list s
                 = list_insert_ordered (thread_less_waik X1) (running z)
                     (sleeping_list z)) by (rewrite Hsl; done).
  assert (Hperm : sleeping_list s ≡ₚ running z :: sleeping_list z)
    by (rewrite Hsl'; apply list_insert_ordered_perm).
  split; [|split; [|split; [|split; [|split]]]].
  - unfold sleep_inv. split; [|split].
    + rewrite Hperm. by apply NoDup_cons.
    + rewrite Forall_forall. intros x Hx. rewrite Hperm in Hx.
      unfold has_status. rewrite Hth, Hth3.
      apply elem_of_cons in Hx as [->|Hx].
      * rewrite lookup_alter_ne, lookup_alter_eq, lookup_alter_eq by done.
        unfold has_status in Hst. by destruct (threads z !! running z).
      * assert (x ≠ running z) by (intros ->; done).
        assert (x ≠ next) by (intros ->; done).
        rewrite !lookup_alter_ne by done.
        rewrite Forall_forall in Hbl. by apply Hbl.
    + unfold ascending_wake in *. rewrite Hsl'.
      apply (StronglySorted_key_ext (wake_time X1) (wake_time s) (λ a b, a <= b));
        [done|].
      apply (list_insert_ordered_ascending (wake_time X1)).
      apply (StronglySorted_key_ext_in (wake_time z) (wake_time X1)
               (λ a b, a <= b)); [|done].
      intros x Hx. apply Hw1'. by intros ->.
  - rewrite Hperm. left.
  - by rewrite Hws.
  - unfold has_status. rewrite Hth, Hth3.
    rewrite lookup_alter_ne, lookup_alter_eq, lookup_alter_eq by done.
    unfold has_status in Hst. by destruct (threads z !! running z).
  - unfold has_status. rewrite Hr, Hth, lookup_alter_eq, Hn. done.
  - done.
Qed.

(** Ticks at times before its deadline leave a sleeping thread asleep. *)
Lemma tick_all_early times : ∀ s t,
  has_status THREAD_RUNNING s (running s) -> sleep_inv s ->
  intr_ctx s = true ->
  t ∈ sleeping_list s ->
  Forall (λ now, now < wake_time s t) times ->
  ∃ s', tick_all times s = Some s'
        ∧ has_status THREAD_RUNNING s' (running s') ∧ sleep_inv s'
        ∧ intr_ctx s' = true
        ∧ t ∈ sleeping_list s'
        ∧ has_status THREAD_BLOCKED s' t
        ∧ (∀ x, wake_time s' x = wake_time s x).
Proof.
  induction times as [|now r IH]; intros s t Hst Hinv Hctx Hin Hearly;
    cbn [tick_all].
  - exists s. do 5 (split; [done|]). split; [|done].
    destruct Hinv as (_ & Hbl & _). rewrite Forall_forall in Hbl. by apply Hbl.
  - apply Forall_cons in Hearly as [Hnow Hearly].
    destruct (thread_tick_spec now s Hst Hinv Hctx) as
      (s1 & woken & Hrun & Hsplit & Hdue & _ & Hw & _ & _ & _ & _ & Hinv1 & Hst1
       & Hctx1).
    rewrite Hrun. cbn [mbind option_bind].
    assert (Hin1 : t ∈ sleeping_list s1).
    { rewrite Hsplit in Hin. apply elem_of_app in Hin as [Hin|Hin]; [|done].
      rewrite Forall_forall in Hdue. specialize (Hdue t Hin). lia. }
    destruct (IH s1 t Hst1 Hinv1 Hctx1 Hin1)
      as (s' & Hrun' & ? & ? & ? & ? & ? & Hw').
    { eapply Forall_impl; [exact Hearly|]. intros x. simpl. by rewrite Hw. }
    exists s'. do 6 (split; [done|]). intros x. by rewrite Hw', Hw.
Qed.

(** C5.  A thread goes to sleep with deadline [d] (thread_sleep succeeds on
    a machine whose sleeping list is without repetition, holds blocked
    threads and is ascending by wake-up time, the lists being exclusive).
    Then the sleeping list still has these properties with the thread in it.
    The ticks that follow run where thread_tick is made to run, in the timer
    interrupt: any run of ticks at times before [d] succeeds and leaves the
    thread blocked and in the sleeping list; and the first tick at a time
    [now] with [d <= now] succeeds, takes the thread out of the sleeping
    list and makes it ready.  That tick unblocks exactly a prefix of the
    sleeping list, the threads whose deadline has passed, and stops at the
    first thread whose deadline has not: no thread it leaves behind is
    due. *)
Theorem C5_sleeper_wakes_at_first_due_tick
    (z s : sched) (ticks current_time : Z) (earlier : list Z) (now : Z) :
  let d := int64 (current_time + ticks) in
  let sleeper := running z in
  sleep_inv z -> exclusive z ->
  thread_sleep ticks current_time z = Some s ->
  Forall (λ t, t < d) earlier ->
  d <= now ->
  sleep_inv s ∧ sleeper ∈ sleeping_list s ∧ wake_time s sleeper = d
  ∧ ∃ s1 s2 woken,
      tick_all earlier (in_interrupt_context s) = Some s1
      ∧ intr_ctx s1 = true
      ∧ sleeper ∈ sleeping_list s1
      ∧ has_status THREAD_BLOCKED s1 sleeper
      ∧ thread_tick now s1 = Some s2
      ∧ (sleeper ∉ sleeping_list s2)
      ∧ sleeper ∈ ready_list s2
      ∧ has_status THREAD_READY s2 sleeper
      ∧ sleeping_list s1 = woken ++ sleeping_list s2
      ∧ Forall (λ t, wake_time s1 t <= now) woken
      ∧ Forall (λ t, now < wake_time s1 t) (sleeping_list s2)
      ∧ Forall (has_status THREAD_READY s2) woken
      ∧ Forall (has_status THREAD_BLOCKED s2) (sleeping_list s2)
      ∧ ascending_wake s2 (sleeping_list s2).
Proof.
  intros d sleeper Hinv Hex Hsleep Hearly Hnow.
  destruct (thread_sleep_spec _ _ _ _ Hinv Hex Hsleep)
    as (Hinv' & Hin & Hw & Hb & Hrun & _).
  fold d sleeper in Hw, Hin, Hb.
  do 3 (split; [done|]).
  destruct (tick_all_early earlier (in_interrupt_context s) sleeper)
    as (s1 & Hticks & Hrun1 & Hinv1 & Hctx1 & Hin1 & Hb1 & Hw1);
    [exact Hrun|exact Hinv'|reflexivity|exact Hin| |].
  { change (wake_time (in_interrupt_context s) sleeper)
      with (wake_time s sleeper). by rewrite Hw. }
  change (∀ x, wake_time s1 x = wake_time s x) in Hw1.
  destruct (thread_tick_spec now s1 Hrun1 Hinv1 Hctx1)
    as (s2 & woken & Htick & Hsplit & Hdue & Hnot & Hw2 & Hfr & Hrd & Hready
        & _ & Hinv2 & _).
  assert (Hwoken : sleeper ∈ woken).
  { rewrite Hsplit in Hin1. apply elem_of_app in Hin1 as [?|Hin2]; [done|].
    rewrite Forall_forall in Hnot. specialize (Hnot _ Hin2).
    rewrite Hw1, Hw in Hnot. lia. }
  exists s1, s2, woken. do 5 (split; [done|]).
  split.
  { intros Hin2. destruct Hinv1 as (Hnd & _). rewrite Hsplit in Hnd.
    apply NoDup_app in Hnd as (_ & Hdis & _). by apply (Hdis sleeper). }
  split; [apply Hready; by right|].
  split; [rewrite Forall_forall in Hrd; by apply Hrd|].
  do 4 (split; [done|]).
  destruct Hinv2 as (_ & ? & ?). done.
Qed.

(** ** thread_set_priority *)

Lemma priority_alter_status st t (m : gmap Z thread) x :
  from_option priority 0 (alter (upd_status st) t m !! x)
  = from_option priority 0 (m !! x).
Proof.
  rewrite lookup_alter. case_decide as E; [subst x|done].
  by destruct (m !! t).
Qed.

Lemma update_thread_insert f t s th :
  threads s !! t = Some th ->
  update_thread f t s = set_threads (<[t := f th]> (threads s)) s.
Proof.
  intros Hth. unfold update_thread. f_equal. apply map_eq. intros x.
  destruct (decide (t = x)) as [<-|Hne].
  - by rewrite lookup_alter_eq, lookup_insert_eq, Hth.
  - by rewrite lookup_alter_ne, lookup_insert_ne.
Qed.

(** thread_set_priority outside MLFQS mode, for the running thread [th]: the
    base priority is written; when the thread owns no lock or the new
    priority is above its priority, the priority is written too and the
    thread yields; otherwise nothing else happens. *)
Lemma thread_set_priority_eq new_priority s th :
  thread_mlfqs s = false ->
  threads s !! running s = Some th -> status th = THREAD_RUNNING ->
  thread_set_priority new_priority s
  = if bool_decide (Owned_locks th = [] ∨ new_priority > priority th)
    then thread_yield
           (set_threads
              (<[running s := upd_priority new_priority
                                (upd_real_priority new_priority th)]>
                 (threads s)) s)
    else Some (set_threads
                 (<[running s := upd_real_priority new_priority th]>
                    (threads s)) s).
Proof.
  intros Hm Hth Hrun. unfold thread_set_priority. rewrite Hm.
  rewrite (thread_current_Some (intr_set_level false s))
    by (unfold has_status; cbn [running threads intr_set_level];
        by rewrite Hth, <- Hrun).
  cbn [mbind option_bind running threads intr_set_level]. rewrite Hth.
  cbn [mbind option_bind].
  destruct (bool_decide (Owned_locks th = [] ∨ new_priority > priority th)).
  - f_equal. unfold update_thread.
    destruct s; unfold set_threads, intr_set_level; simpl in *. f_equal.
    rewrite alter_alter_eq. apply map_eq. intros x.
    destruct (decide (running0 = x)) as [<-|Hne].
    + by rewrite lookup_alter_eq, lookup_insert_eq, Hth.
    + by rewrite lookup_alter_ne, lookup_insert_ne.
  - f_equal. unfold update_thread.
    destruct s; unfold set_threads, intr_set_level; simpl in *. f_equal.
    apply map_eq. intros x.
    destruct (decide (running0 = x)) as [<-|Hne].
    + by rewrite lookup_alter_eq, lookup_insert_eq, Hth.
    + by rewrite lookup_alter_ne, lookup_insert_ne.
Qed.

(** C7, amended.  Outside MLFQS mode, when the running thread owns no
    lock and asks for a priority below the one it has, thread_set_priority
    writes the new value as base and as effective priority and then calls
    thread_yield: outside interrupt context, on a ready list that holds
    threads, the call succeeds; a front of the ready list whose priority is
    at least the new one is dispatched at once, and the caller keeps running
    only when the ready list is empty or its front has a lower priority.
    When the thread owns a lock and the new priority is not above its
    priority, only the base priority is written: the effective priority is
    not lowered and there is no yield. *)
Theorem C7_lowering_set_priority_yields
    (s : sched) (new_priority : Z) (th : thread) :
  thread_mlfqs s = false ->
  threads s !! running s = Some th -> status th = THREAD_RUNNING ->
  new_priority <= priority th ->
  let s1 := set_threads
              (<[running s := upd_priority new_priority
                                (upd_real_priority new_priority th)]>
                 (threads s)) s in
  (Owned_locks th = [] ->
     thread_set_priority new_priority s = thread_yield s1
     ∧ (intr_ctx s = false -> all_valid s (ready_list s) ->
        ∃ s', thread_set_priority new_priority s = Some s'
              ∧ prio s' (running s) = new_priority
              ∧ (∀ f r, ready_list s = f :: r -> prio s f >= new_priority ->
                   f ≠ running s -> running s' = f)
              ∧ (idle_thread s ≠ Some (running s) ->
                 (∀ f, head (ready_list s) = Some f -> prio s f < new_priority) ->
                 running s' = running s)))
  ∧ (Owned_locks th ≠ [] ->
     thread_set_priority new_priority s
     = Some (set_threads
               (<[running s := upd_real_priority new_priority th]>
                  (threads s)) s)).
Proof.
  intros Hm Hth Hrun Hlow s1.
  pose proof (thread_set_priority_eq new_priority s th Hm Hth Hrun) as E.
  split.
  - intros Hnil. rewrite bool_decide_true in E by (by left).
    split; [exact E|]. intros Hctx Hval. rewrite E.
    assert (Hst1 : has_status THREAD_RUNNING s1 (running s1)).
    { unfold has_status, s1. cbn [running threads set_threads].
      rewrite lookup_insert_eq. simpl. by rewrite Hrun. }
    assert (Hp1 : prio s1 (running s) = new_priority).
    { unfold prio, s1. cbn [threads set_threads]. by rewrite lookup_insert_eq. }
    assert (Hp1' : ∀ x, x ≠ running s -> prio s1 x = prio s x).
    { intros x Hx. unfold prio, s1. cbn [threads set_threads].
      by rewrite lookup_insert_ne. }
    destruct (thread_yield_total s1) as [s' Hs']; [done|done| |].
    { unfold all_valid in *. unfold s1. cbn [ready_list threads set_threads].
      eapply Forall_impl; [exact Hval|]. intros x [y Hy].
      destruct (decide (running s = x)) as [<-|Hne].
      - rewrite lookup_insert_eq. by eexists.
      - rewrite lookup_insert_ne by done. by eexists. }
    exists s'. split; [done|].
    pose proof Hs' as Hinv.
    apply thread_yield_inv in Hinv
      as (_ & _ & next & Hnx & _ & Hr & _ & Hths & _).
    split.
    { unfold prio in *. by rewrite Hths, !priority_alter_status. }
    unfold queue_at_yield, next_from in Hnx.
    change (running s1) with (running s) in Hnx.
    change (idle_thread s1) with (idle_thread s) in Hnx.
    change (ready_list s1) with (ready_list s) in Hnx.
    split.
    + intros f r Hrl Hge Hne. rewrite Hrl in Hnx.
      case_bool_decide; simpl in Hnx.
      * unfold ComparePriority in Hnx. rewrite Hp1, Hp1' in Hnx by done.
        rewrite bool_decide_false in Hnx by lia. congruence.
      * congruence.
    + intros Hidle Hfront.
      rewrite bool_decide_true in Hnx by congruence.
      destruct (ready_list s) as [|f r] eqn:Hrl; simpl in Hnx; [congruence|].
      specialize (Hfront f eq_refl).
      destruct (decide (f = running s)) as [->|Hne].
      * unfold ComparePriority in Hnx. destruct (bool_decide _); congruence.
      * unfold ComparePriority in Hnx. rewrite Hp1, Hp1' in Hnx by done.
        rewrite bool_decide_true in Hnx by lia. congruence.
  - intros Hne. rewrite bool_decide_false in E; [exact E|].
    intros [?|?]; [done|lia].
Qed.

(** ** The base priority and the effective priority *)

Lemma priorities_related_status st th :
  priorities_related th -> priorities_related (upd_status st th).
Proof. done. Qed.

(** A change of status only keeps the relation between the priorities. *)
Lemma donation_inv_status_only (m m' : gmap Z thread) :
  (∀ x, ∃ st, m' !! x = upd_status st <$> m !! x) ->
  map_Forall (λ _ th, priorities_related th) m ->
  map_Forall (λ _ th, priorities_related th) m'.
Proof.
  intros H Hinv x th' Hx. destruct (H x) as [st Hst]. rewrite Hst in Hx.
  destruct (m !! x) as [th|] eqn:Hm; simplify_eq/=.
  apply priorities_related_status. by apply (Hinv x).
Qed.

Lemma alter_status_lookup st t (m : gmap Z thread) x :
  ∃ st', alter (upd_status st) t m !! x = upd_status st' <$> m !! x.
Proof.
  rewrite lookup_alter. case_decide; [subst; by eexists|].
  destruct (m !! x) as [th|]; [|by exists st].
  exists (status th). by destruct th.
Qed.

Lemma thread_yield_lookup s s' :
  thread_yield s = Some s' ->
  thread_mlfqs s' = thread_mlfqs s
  ∧ ∀ x, ∃ st, threads s' !! x = upd_status st <$> threads s !! x.
Proof.
  intros H. apply thread_yield_inv in H
    as (_ & _ & next & _ & _ & _ & _ & Hth & Hg).
  split; [by destruct Hg as (_ & _ & _ & _ & _ & ? & _)|].
  intros x. rewrite Hth.
  destruct (alter_status_lookup THREAD_RUNNING next
              (alter (upd_status THREAD_READY) (running s) (threads s)) x)
    as [st1 ->].
  destruct (alter_status_lookup THREAD_READY (running s) (threads s) x)
    as [st2 ->].
  exists st1. by destruct (threads s !! x).
Qed.

Lemma thread_yield_donation_inv s s' :
  thread_yield s = Some s' -> donation_inv s ->
  donation_inv s' ∧ thread_mlfqs s' = thread_mlfqs s.
Proof.
  intros H Hinv. apply thread_yield_lookup in H as [Hm Hl].
  split; [|done]. by apply (donation_inv_status_only (threads s)).
Qed.

Lemma thread_update_priority_donation_inv t s s' :
  thread_update_priority t s = Some s' -> donation_inv s ->
  donation_inv s' ∧ thread_mlfqs s' = thread_mlfqs s.
Proof.
  intros H Hinv. destruct (threads s !! t) as [th|] eqn:Hth.
  - rewrite (thread_update_priority_eq _ _ _ Hth) in H. injection H as <-.
    split; [|done]. unfold donation_inv.
    rewrite (update_thread_insert _ _ _ _ Hth). cbn [threads set_threads].
    apply map_Forall_insert_2; [|done].
    unfold priorities_related. case_bool_decide as Hne; simpl.
    + split; [apply foldr_max_lower|]. intros Hnil. exfalso. apply Hne.
      pose proof (list_sort_perm (lock_cmp_priority s) (Owned_locks th)) as Hp.
      rewrite Hnil in Hp. by apply Permutation_nil_l in Hp.
    + split; [apply foldr_max_lower|]. intros _.
      unfold donation_max. by rewrite Hne.
  - unfold thread_update_priority in H. simpl in H. by rewrite Hth in H.
Qed.

Lemma thread_donate_priority_donation_inv t s s' :
  thread_donate_priority t s = Some s' -> donation_inv s ->
  donation_inv s' ∧ thread_mlfqs s' = thread_mlfqs s.
Proof.
  intros H Hinv. destruct (threads s !! t) as [th|] eqn:Hth.
  - rewrite (thread_donate_priority_eq _ _ _ Hth) in H.
    destruct (thread_update_priority t s) as [s1|] eqn:H1;
      cbn [mbind option_bind] in H; [|done].
    apply thread_update_priority_donation_inv in H1 as [Hi Hm]; [|done].
    injection H as <-. by case_bool_decide.
  - unfold thread_donate_priority, thread_update_priority in H.
    simpl in H. by rewrite Hth in H.
Qed.

Lemma thread_set_priority_donation_inv n s s' :
  thread_mlfqs s = false ->
  thread_set_priority n s = Some s' -> donation_inv s ->
  donation_inv s' ∧ thread_mlfqs s' = thread_mlfqs s.
Proof.
  intros Hm H Hinv.
  destruct (threads s !! running s) as [th|] eqn:Hth.
  - destruct (decide (status th = THREAD_RUNNING)) as [Hrun|Hrun].
    + rewrite (thread_set_priority_eq n s th Hm Hth Hrun) in H.
      case_bool_decide as Hflag.
      * apply thread_yield_donation_inv in H; [done|].
        unfold donation_inv. cbn [threads set_threads].
        apply map_Forall_insert_2; [|done]. by split.
      * injection H as <-. split; [|done].
        unfold donation_inv. cbn [threads set_threads].
        apply map_Forall_insert_2; [|done].
        split; simpl; [lia|]. intros Hnil. exfalso. apply Hflag. by left.
    + unfold thread_set_priority, thread_current in H. rewrite Hm in H.
      cbn [running threads intr_set_level] in H. rewrite Hth in H.
      cbn [mbind option_bind] in H.
      rewrite option_guard_False in H by done. done.
  - unfold thread_set_priority, thread_current in H. rewrite Hm in H.
    cbn [running threads intr_set_level] in H. rewrite Hth in H. done.
Qed.

Lemma donation_inv_alter f t (m : gmap Z thread) :
  (∀ th, priorities_related th -> priorities_related (f th)) ->
  map_Forall (λ _ th, priorities_related th) m ->
  map_Forall (λ _ th, priorities_related th) (alter f t m).
Proof.
  intros Hf Hinv x th' Hx.
  apply lookup_alter_Some in Hx as [(-> & th & Hth & ->)|[_ Hth]].
  - apply Hf. by apply (Hinv x).
  - by apply (Hinv x).
Qed.

(** Outside MLFQS mode thread_create gives the new thread equal base and
    effective priorities and changes the priorities of no other thread. *)
Lemma thread_create_donation_inv page priority s r :
  thread_mlfqs s = false ->
  thread_create page priority s = Some r -> donation_inv s ->
  donation_inv r.2 ∧ thread_mlfqs r.2 = thread_mlfqs s.
Proof.
  intros Hm H Hinv. destruct page as [t|]; [|by injection H as <-].
  unfold thread_create in H.
  destruct (init_thread t priority s) as [s1|] eqn:Hi;
    cbn [mbind option_bind] in H; [|done].
  assert (Hi1 : donation_inv s1 ∧ thread_mlfqs s1 = false).
  { unfold init_thread in Hi. rewrite option_guard_bool_decide in Hi.
    case_bool_decide; [|done]. injection Hi as <-. split; [|done].
    unfold donation_inv. cbn [threads set_threads intr_set_level set_all_list].
    apply map_Forall_insert_2; [|done]. by split. }
  destruct Hi1 as [Hinv1 Hm1]. clear Hi.
  unfold allocate_tid in H.
  set (s2 := update_thread (upd_tid (next_tid s1)) t
               (set_next_tid (int32 (next_tid s1 + 1)) s1)) in *.
  assert (Hinv2 : donation_inv s2 ∧ thread_mlfqs s2 = false).
  { split; [|done]. unfold donation_inv, s2.
    cbn [threads update_thread set_threads set_next_tid].
    by apply donation_inv_alter. }
  destruct Hinv2 as [Hinv2 Hm2].
  rewrite Hm2 in H. cbn [mbind option_bind] in H.
  destruct (thread_unblock t s2) as [s3|] eqn:Hu;
    cbn [mbind option_bind] in H; [|done].
  assert (Hinv3 : donation_inv s3 ∧ thread_mlfqs s3 = false).
  { apply thread_unblock_inv in Hu as [_ ->]. split; [|done].
    unfold donation_inv.
    cbn [threads update_thread set_threads set_ready_list].
    by apply donation_inv_alter. }
  destruct Hinv3 as [Hinv3 Hm3]. clear Hu.
  destruct (thread_current s3) as [cur|]; cbn [mbind option_bind] in H; [|done].
  destruct (bool_decide (prio s3 cur < priority)).
  - destruct (thread_yield s3) as [s4|] eqn:Hy;
      cbn [mbind option_bind] in H; [|done].
    injection H as <-. cbn [snd].
    apply thread_yield_donation_inv in Hy as [? ?]; [|done].
    split; [done|congruence].
  - injection H as <-. cbn [snd]. split; [done|congruence].
Qed.

(** Outside MLFQS mode the priority of the new thread is the argument of
    thread_create, and the creator yields exactly when the new thread, made
    ready in the machine [s3], has a priority above its own. *)
Lemma thread_create_outside_mlfqs t priority s r :
  thread_mlfqs s = false ->
  thread_create (Some t) priority s = Some r ->
  ∃ s3, has_status THREAD_READY s3 t
        ∧ t ∈ ready_list s3
        ∧ prio s3 t = priority
        ∧ running s3 = running s
        ∧ (prio s3 (running s) < prio s3 t -> thread_yield s3 = Some r.2)
        ∧ (¬ prio s3 (running s) < prio s3 t -> r.2 = s3).
Proof.
  intros Hm H. unfold thread_create in H.
  destruct (init_thread t priority s) as [s1|] eqn:Hi;
    cbn [mbind option_bind] in H; [|done].
  assert (Hi1 : thread_mlfqs s1 = false ∧ running s1 = running s
                ∧ prio s1 t = priority ∧ has_status THREAD_BLOCKED s1 t).
  { unfold init_thread in Hi. rewrite option_guard_bool_decide in Hi.
    case_bool_decide; [|done]. injection Hi as <-.
    unfold prio, has_status.
    cbn [threads running thread_mlfqs set_threads intr_set_level set_all_list].
    by rewrite lookup_insert_eq. }
  destruct Hi1 as (Hm1 & Hr1 & Hp1 & Hb1). clear Hi.
  unfold allocate_tid in H.
  set (s2 := update_thread (upd_tid (next_tid s1)) t
               (set_next_tid (int32 (next_tid s1 + 1)) s1)) in *.
  assert (Hi2 : thread_mlfqs s2 = false ∧ running s2 = running s
                ∧ prio s2 t = priority ∧ has_status THREAD_BLOCKED s2 t).
  { split; [done|]. split; [done|]. unfold prio, has_status, s2 in *.
    rewrite lookup_update_thread_eq.
    cbn [threads set_next_tid]. by destruct (threads s1 !! t). }
  destruct Hi2 as (Hm2 & Hr2 & Hp2 & Hb2).
  rewrite Hm2 in H. cbn [mbind option_bind] in H.
  rewrite (thread_unblock_blocked _ _ Hb2) in H. cbn [mbind option_bind] in H.
  set (s3 := update_thread (upd_status THREAD_READY) t _) in *.
  assert (Hi3 : running s3 = running s ∧ prio s3 t = priority
                ∧ has_status THREAD_READY s3 t ∧ t ∈ ready_list s3).
  { split; [done|]. unfold prio, has_status, s3 in *.
    rewrite lookup_update_thread_eq. cbn [threads ready_list update_thread
                                           set_threads set_ready_list].
    split; [|split].
    - by destruct (threads s2 !! t).
    - by destruct (threads s2 !! t).
    - apply elem_of_list_insert_ordered. by left. }
  destruct Hi3 as (Hr3 & Hp3 & Hst3 & Hin3).
  exists s3. do 4 (split; [done|]).
  destruct (thread_current s3) as [cur|] eqn:Hc; cbn [mbind option_bind] in H;
    [|done].
  apply thread_current_inv in Hc as [-> _]. rewrite Hr3, <- Hp3 in H.
  case_bool_decide as Hlt.
  - destruct (thread_yield s3) as [s4|]; cbn [mbind option_bind] in H; [|done].
    injection H as <-. split; [done|]. by intros [].
  - injection H as <-. split; [by intros ?|done].
Qed.

(** C9, amended.  Outside MLFQS mode, a run of thread_create,
    thread_set_priority, thread_donate_priority and thread_update_priority
    calls that starts on a machine where every thread has an effective
    priority at least its base priority, equal to it when the thread owns no
    lock, ends on a machine where this still holds. *)
Theorem C9_donation_operations_keep_priorities_related
    (os : list op) (s s' : sched) :
  thread_mlfqs s = false ->
  Forall donation_op os ->
  donation_inv s ->
  run_ops os s = Some s' ->
  donation_inv s'
  ∧ ∀ t th, threads s' !! t = Some th ->
      real_priority th <= priority th
      ∧ (Owned_locks th = [] -> priority th = real_priority th).
Proof.
  intros Hm Hops Hinv Hrun.
  assert (H : donation_inv s').
  { revert s Hm Hinv Hrun.
    induction Hops as [|o r Ho Hr IH]; intros s Hm Hinv Hrun;
      cbn [run_ops] in Hrun; [by injection Hrun as <-|].
    destruct (run_op o s) as [s1|] eqn:H1; cbn [mbind option_bind] in Hrun;
      [|done].
    assert (H1' : donation_inv s1 ∧ thread_mlfqs s1 = thread_mlfqs s).
    { destruct o as [page pr|n|t|t|n|]; cbn [run_op donation_op] in *;
        try done.
      - destruct (thread_create page pr s) as [r0|] eqn:Hc; [|done].
        injection H1 as <-. by apply (thread_create_donation_inv page pr s r0).
      - by apply (thread_set_priority_donation_inv n s s1).
      - by apply (thread_donate_priority_donation_inv t s s1).
      - by apply (thread_update_priority_donation_inv t s s1). }
    destruct H1' as [Hinv1 Hm1].
    apply (IH s1); [congruence|done|done]. }
  split; [done|]. intros t th Hth. by apply (H t th).
Qed.

(** * Further properties of the scheduler *)

(** ** schedule *)

(** schedule as a whole: its three assertions, then the dispatch. *)
Lemma schedule_dispatched s :
  schedule s
  = (guard (intr_on s = false);;
     c ← threads s !! running s;
     guard (status c ≠ THREAD_RUNNING);;
     next ← next_from s (ready_list s);
     _ ← threads s !! next;
     Some (dispatched s c next)).
Proof.
  unfold schedule, next_thread_to_run, next_from, dispatched.
  assert (Hgen : ∀ (q : list Z) (nx : option Z),
    (guard (intr_on s = false);;
     c0 ← threads s !! running s;
     guard (status c0 ≠ THREAD_RUNNING);;
     next ← nx;
     _ ← threads s !! next;
     if bool_decide (running s ≠ next)
     then thread_schedule_tail (Some (running s))
            (set_running next (set_ready_list q s))
     else thread_schedule_tail None (set_ready_list q s))
    = (guard (intr_on s = false);;
       c ← threads s !! running s;
       guard (status c ≠ THREAD_RUNNING);;
       next ← nx;
       _ ← threads s !! next;
       Some (let s1 := set_thread_ticks 0
                         (update_thread (upd_status THREAD_RUNNING) next
                            (set_running next (set_ready_list q s))) in
             if bool_decide (running s ≠ next ∧ status c = THREAD_DYING
                             ∧ Some (running s) ≠ initial_thread s)
             then set_threads (delete (running s) (threads s1)) s1
             else s1))).
  { intros q nx. rewrite !option_guard_bool_decide.
    destruct (bool_decide (intr_on s = false)) eqn:Hoff; [|done].
    apply bool_decide_eq_true in Hoff.
    destruct (threads s !! running s) as [c|] eqn:Hc; [|done].
    cbn [mbind option_bind]. rewrite !option_guard_bool_decide.
    destruct (bool_decide (status c ≠ THREAD_RUNNING)); [|done].
    destruct nx as [next|]; [|done]. cbn [mbind option_bind].
    destruct (threads s !! next) as [n|] eqn:Hn; [|done].
    cbn [mbind option_bind]. unfold thread_schedule_tail.
    cbn [intr_on set_running set_ready_list running].
    rewrite !option_guard_True by done. cbn [mbind option_bind].
    destruct (decide (running s = next)) as [Heq|Hne].
    - rewrite bool_decide_false by (intros ?; congruence).
      rewrite bool_decide_false by (intros [? _]; congruence).
      rewrite option_guard_True by done. cbn [mbind option_bind].
      f_equal. rewrite <- Heq. by destruct s.
    - rewrite bool_decide_true by done.
      cbn [threads update_thread set_threads set_thread_ticks set_running
           set_ready_list initial_thread running].
      rewrite lookup_alter_ne by done. rewrite Hc.
      cbn [from_option].
      destruct (decide (status c = THREAD_DYING
                        ∧ Some (running s) ≠ initial_thread s)) as [Hd|Hd].
      + rewrite bool_decide_true by done.
        rewrite bool_decide_true by tauto.
        rewrite option_guard_True by done. done.
      + rewrite bool_decide_false by done.
        rewrite bool_decide_false by tauto. done. }
  destruct (ready_list s) as [|n r] eqn:Hrl.
  - specialize (Hgen [] (idle_thread s)). cbn [tail].
    assert (E : set_ready_list [] s = s) by (destruct s; simpl in *; by subst).
    rewrite E in Hgen |- *. exact Hgen.
  - cbn [tail]. exact (Hgen r (Some n)).
Qed.

(** ** thread_unblock and thread_yield *)

(** X1.  thread_unblock succeeds exactly on a blocked thread.  It puts the
    thread in the ready list behind every thread whose priority is at least
    its own and in front of the first thread of lower priority, marks it
    ready, and neither changes a priority nor the running thread. *)
Theorem X1_unblock_takes_its_place (s : sched) (t : ptr) :
  (is_Some (thread_unblock t s) <-> has_status THREAD_BLOCKED s t)
  ∧ ∀ s', thread_unblock t s = Some s' ->
      ∃ l1 l2, ready_list s = l1 ++ l2
               ∧ ready_list s' = l1 ++ t :: l2
               ∧ Forall (λ e, prio s t <= prio s e) l1
               ∧ (∀ e, head l2 = Some e -> prio s e < prio s t)
               ∧ running s' = running s
               ∧ has_status THREAD_READY s' t
               ∧ (∀ x, prio s' x = prio s x)
               ∧ (∀ x, x ≠ t -> threads s' !! x = threads s !! x).
Proof.
  split.
  - split.
    + intros [s' H]. by apply thread_unblock_inv in H as [? _].
    + intros H. rewrite (thread_unblock_blocked _ _ H). by eexists.
  - intros s' H. apply thread_unblock_inv in H as [Hb ->].
    destruct (list_insert_ordered_split (prio s) t (ready_list s))
      as (l1 & l2 & E1 & E2 & Hall & Hhd).
    exists l1, l2. split; [done|]. split; [exact E2|].
    do 3 (split; [done|]). split.
    { unfold has_status in *. rewrite lookup_update_thread_eq.
      cbn [threads set_ready_list]. by destruct (threads s !! t). }
    split; [intros x; by rewrite prio_update_thread|].
    intros x Hx. by rewrite lookup_update_thread_ne.
Qed.

Lemma prio_thread_yield s s' :
  thread_yield s = Some s' -> ∀ x, prio s' x = prio s x.
Proof.
  intros H x. apply thread_yield_inv in H
    as (_ & _ & next & _ & _ & _ & _ & Hth & _).
  unfold prio. by rewrite Hth, !priority_alter_status.
Qed.

Lemma queue_at_yield_descending s :
  descending s (ready_list s) -> descending s (queue_at_yield s).
Proof.
  intros H. unfold queue_at_yield. case_bool_decide; [|done].
  by apply (list_insert_ordered_descending (prio s)).
Qed.

(** X2.  Called by the running thread outside interrupt context on a ready
    list in descending order of priority, thread_yield succeeds, leaves the
    ready list in descending order and hands the processor to a thread that
    no ready thread outranks; no priority changes.  The threads are
    conserved: the caller joins the ready list and its front leaves it,
    except that an idle caller is not put in the list. *)
Theorem X2_yield_runs_a_highest_thread (s : sched) :
  has_status THREAD_RUNNING s (running s) ->
  intr_ctx s = false ->
  all_valid s (ready_list s) ->
  descending s (ready_list s) ->
  ∃ s', thread_yield s = Some s'
        ∧ descending s' (ready_list s')
        ∧ Forall (λ x, prio s' x <= prio s' (running s')) (ready_list s')
        ∧ (∀ x, prio s' x = prio s x)
        ∧ has_status THREAD_RUNNING s' (running s')
        ∧ (Some (running s) ≠ idle_thread s ->
           running s' :: ready_list s' ≡ₚ running s :: ready_list s)
        ∧ (Some (running s) = idle_thread s -> ready_list s ≠ [] ->
           running s' :: ready_list s' = ready_list s)
        ∧ (Some (running s) = idle_thread s -> ready_list s = [] ->
           running s' = running s ∧ ready_list s' = []).
Proof.
  intros Hst Hctx Hval Hdesc.
  destruct (thread_yield_total s Hst Hctx Hval) as [s' Hs'].
  exists s'. split; [done|].
  pose proof (prio_thread_yield _ _ Hs') as Hp.
  pose proof (queue_at_yield_descending s Hdesc) as Hq.
  apply thread_yield_inv in Hs'
    as (_ & _ & next & Hnx & [n Hn] & Hr & Hrl & Hth & _).
  assert (Hsort : descending s (ready_list s')
                  ∧ Forall (λ x, prio s x <= prio s next) (ready_list s')).
  { rewrite Hrl. unfold descending in *.
    destruct (queue_at_yield s) as [|f r]; [split; constructor|].
    injection Hnx as ->. apply StronglySorted_inv in Hq as [Hs Hall].
    split; [done|]. eapply Forall_impl; [exact Hall|]. simpl. intros; lia. }
  destruct Hsort as [Hs1 Hs2].
  split.
  { unfold descending in *.
    by apply (StronglySorted_key_ext (prio s) (prio s') (λ a b, a >= b)). }
  split.
  { rewrite Hr. eapply Forall_impl; [exact Hs2|]. simpl. intros x.
    by rewrite !Hp. }
  split; [done|]. split.
  { unfold has_status. rewrite Hr, Hth, lookup_alter_eq.
    destruct (decide (running s = next)) as [->|Hne].
    - rewrite lookup_alter_eq, Hn. done.
    - rewrite lookup_alter_ne, Hn by done. done. }
  unfold queue_at_yield, next_from in *.
  split; [|split].
  - intros Hidle. rewrite bool_decide_true in Hnx, Hrl by done.
    pose proof (list_insert_ordered_perm (ComparePriority s) (running s)
                  (ready_list s)) as Hperm.
    destruct (list_insert_ordered _ _ _) as [|f r].
    + by apply Permutation_nil_cons in Hperm.
    + injection Hnx as ->. by rewrite Hr, Hrl.
  - intros Hidle Hne. rewrite bool_decide_false in Hnx, Hrl by (by intros ?).
    rewrite Hr, Hrl. destruct (ready_list s) as [|f r]; [done|].
    by injection Hnx as ->.
  - intros Hidle Hnil. rewrite bool_decide_false in Hnx, Hrl by (by intros ?).
    rewrite Hnil in Hnx, Hrl. rewrite Hr, Hrl. split; [congruence|done].
Qed.

Lemma sched_ext (s s' : sched) :
  threads s = threads s' -> locks s = locks s' ->
  ready_list s = ready_list s' -> all_list s = all_list s' ->
  sleeping_list s = sleeping_list s' -> idle_thread s = idle_thread s' ->
  initial_thread s = initial_thread s' -> running s = running s' ->
  idle_ticks s = idle_ticks s' -> kernel_ticks s = kernel_ticks s' ->
  thread_ticks s = thread_ticks s' -> thread_mlfqs s = thread_mlfqs s' ->
  load_avg s = load_avg s' -> next_tid s = next_tid s' ->
  intr_on s = intr_on s' -> intr_ctx s = intr_ctx s' ->
  yield_on_return s = yield_on_return s' -> s = s'.
Proof. destruct s, s'; simpl; intros; by subst. Qed.

Lemma running_dispatched s c next : running (dispatched s c next) = next.
Proof. unfold dispatched. cbn zeta. by destruct (bool_decide _). Qed.

Lemma thread_yield_eq s c :
  threads s !! running s = Some c -> status c = THREAD_RUNNING ->
  intr_ctx s = false ->
  thread_yield s
  = (let X := update_thread (upd_status THREAD_READY) (running s)
                (set_ready_list (queue_at_yield s) (intr_set_level false s)) in
     next ← next_from s (queue_at_yield s);
     _ ← threads X !! next;
     let s1 := dispatched X (upd_status THREAD_READY c) next in
     Some (if bool_decide (next = running s)
           then intr_set_level (intr_on s) s1 else s1)).
Proof.
  intros Hc Hrun Hctx. unfold thread_yield.
  rewrite thread_current_Some by (unfold has_status; by rewrite Hc, <- Hrun).
  cbn [mbind option_bind]. rewrite option_guard_True by done.
  cbn [mbind option_bind]. rewrite schedule_dispatched.
  assert (EX : (if bool_decide (Some (running s) ≠ idle_thread (intr_set_level false s))
                then set_ready_list
                       (list_insert_ordered (ComparePriority (intr_set_level false s))
                          (running s) (ready_list (intr_set_level false s)))
                       (intr_set_level false s)
                else intr_set_level false s)
               = set_ready_list (queue_at_yield s) (intr_set_level false s)).
  { unfold queue_at_yield. cbn [idle_thread ready_list intr_set_level].
    destruct (bool_decide (Some (running s) ≠ idle_thread s)); [done|].
    by destruct s. }
  rewrite EX.
  set (X := update_thread (upd_status THREAD_READY) (running s) _).
  assert (HX : intr_on X = false ∧ running X = running s
               ∧ ready_list X = queue_at_yield s
               ∧ idle_thread X = idle_thread s
               ∧ threads X !! running s = Some (upd_status THREAD_READY c)).
  { do 4 (split; [done|]). unfold X. rewrite lookup_update_thread_eq.
    cbn [threads set_ready_list intr_set_level]. by rewrite Hc. }
  destruct HX as (H1 & H2 & H3 & H4 & H5).
  rewrite option_guard_True by done. cbn [mbind option_bind].
  rewrite H2, H5. cbn [mbind option_bind].
  rewrite option_guard_True by done. cbn [mbind option_bind].
  rewrite H3. unfold next_from at 1. rewrite H4. fold (next_from s (queue_at_yield s)).
  destruct (next_from s (queue_at_yield s)) as [next|]; [|done].
  cbn [mbind option_bind].
  destruct (threads X !! next) as [n|]; [|done]. cbn [mbind option_bind].
  f_equal. by rewrite running_dispatched.
Qed.

(** X3.  A thread that yields while the front of the ready list has a
    priority at least its own gives way to that thread and waits in the
    ready list.  A thread that yields while every ready thread has a lower
    priority keeps the processor: the call only starts a new time slice. *)
Theorem X3_yield_round_robin (s : sched) (c : thread) :
  threads s !! running s = Some c -> status c = THREAD_RUNNING ->
  intr_ctx s = false ->
  Some (running s) ≠ idle_thread s ->
  all_valid s (ready_list s) ->
  (∀ f r, ready_list s = f :: r -> prio s (running s) <= prio s f ->
          f ≠ running s ->
          ∃ s', thread_yield s = Some s'
                ∧ running s' = f
                ∧ has_status THREAD_RUNNING s' f
                ∧ has_status THREAD_READY s' (running s)
                ∧ running s ∈ ready_list s'
                ∧ thread_ticks s' = 0)
  ∧ ((∀ f, head (ready_list s) = Some f -> prio s f < prio s (running s)) ->
     thread_yield s = Some (set_thread_ticks 0 s)).
Proof.
  intros Hc Hrun Hctx Hidle Hval.
  pose proof (thread_yield_eq s c Hc Hrun Hctx) as E. cbn zeta in E.
  assert (Hq : queue_at_yield s
               = list_insert_ordered (ComparePriority s) (running s) (ready_list s)).
  { unfold queue_at_yield. by rewrite bool_decide_true. }
  split.
  - intros f r Hrl Hge Hne.
    assert (Hq' : ∃ r', queue_at_yield s = f :: r' ∧ running s ∈ r').
    { rewrite Hq, Hrl. cbn [list_insert_ordered]. unfold ComparePriority at 1.
      rewrite bool_decide_false by lia. eexists. split; [done|].
      apply elem_of_list_insert_ordered. by left. }
    destruct Hq' as (r' & Hq' & Hin).
    rewrite Hq' in E. cbn [next_from mbind option_bind] in E.
    rewrite lookup_update_thread_ne in E by done.
    cbn [threads set_ready_list intr_set_level] in E.
    rewrite Hrl in Hval. apply Forall_cons in Hval as [[n Hn] _].
    rewrite Hn in E. cbn [mbind option_bind] in E.
    rewrite bool_decide_false in E by done.
    eexists. split; [exact E|].
    unfold dispatched.
    cbn [running ready_list update_thread set_threads set_ready_list
         intr_set_level status upd_status initial_thread].
    rewrite bool_decide_false by (intros (_ & ? & _); done).
    unfold has_status.
    cbn [running ready_list threads thread_ticks set_thread_ticks update_thread
         set_threads set_running set_ready_list intr_set_level tail].
    rewrite lookup_alter_eq, lookup_alter_ne, lookup_alter_ne, lookup_alter_eq,
      Hn, Hc by done.
    done.
  - intros Hlow.
    assert (Hq' : queue_at_yield s = running s :: ready_list s).
    { rewrite Hq. destruct (ready_list s) as [|f r]; [done|].
      cbn [list_insert_ordered]. unfold ComparePriority.
      specialize (Hlow f eq_refl). by rewrite bool_decide_true by lia. }
    rewrite Hq' in E. cbn [next_from mbind option_bind] in E.
    rewrite lookup_update_thread_eq in E.
    cbn [threads set_ready_list intr_set_level] in E.
    rewrite Hc in E. cbn [fmap option_fmap option_map mbind option_bind] in E.
    rewrite bool_decide_true in E by done.
    rewrite E. f_equal. unfold dispatched.
    cbn [running update_thread set_threads set_ready_list intr_set_level].
    rewrite bool_decide_false by (intros (? & _); done).
    apply sched_ext; try reflexivity.
    cbn [threads set_thread_ticks intr_set_level update_thread set_threads
         set_running set_ready_list].
    rewrite alter_alter_eq. apply map_eq. intros x.
    destruct (decide (running s = x)) as [<-|Hx].
    + rewrite lookup_alter_eq, Hc. cbn [fmap option_fmap option_map]. f_equal.
      destruct c as [a b c d e f g h i]. cbn [status] in Hrun. by subst b.
    + by rewrite lookup_alter_ne.
Qed.

(** ** The bookkeeping of thread states *)

Lemma schedule_Some_inv X s' :
  schedule X = Some s' ->
  ∃ c next, intr_on X = false
            ∧ threads X !! running X = Some c
            ∧ status c ≠ THREAD_RUNNING
            ∧ next_from X (ready_list X) = Some next
            ∧ is_Some (threads X !! next)
            ∧ s' = dispatched X c next.
Proof.
  rewrite schedule_dispatched. intros H.
  rewrite option_guard_bool_decide in H.
  case_bool_decide as Hi; [|done]. cbn [mbind option_bind] in H.
  destruct (threads X !! running X) as [c|]; [|done].
  cbn [mbind option_bind] in H.
  destruct (decide (status c ≠ THREAD_RUNNING)) as [Hc|Hc].
  2: { by rewrite option_guard_False in H. }
  rewrite option_guard_True in H by done. cbn [mbind option_bind] in H.
  destruct (next_from X (ready_list X)) as [next|]; [|done].
  cbn [mbind option_bind] in H.
  destruct (threads X !! next) as [n|] eqn:Hn; [|done].
  cbn [mbind option_bind] in H. injection H as <-.
  exists c, next. by rewrite Hn.
Qed.

Lemma schedule_Some X c next :
  intr_on X = false ->
  threads X !! running X = Some c -> status c ≠ THREAD_RUNNING ->
  next_from X (ready_list X) = Some next -> is_Some (threads X !! next) ->
  schedule X = Some (dispatched X c next).
Proof.
  intros Hi Hc Hst Hnx [n Hn]. rewrite schedule_dispatched.
  rewrite option_guard_True by done. cbn [mbind option_bind].
  rewrite Hc. cbn [mbind option_bind].
  rewrite option_guard_True by done. cbn [mbind option_bind].
  rewrite Hnx. cbn [mbind option_bind]. by rewrite Hn.
Qed.

Lemma ready_list_dispatched s c next :
  ready_list (dispatched s c next) = tail (ready_list s).
Proof. unfold dispatched. cbn zeta. by destruct (bool_decide _). Qed.

Lemma thread_ticks_dispatched s c next :
  thread_ticks (dispatched s c next) = 0.
Proof. unfold dispatched. cbn zeta. by destruct (bool_decide _). Qed.

Lemma all_list_dispatched s c next :
  all_list (dispatched s c next) = all_list s.
Proof. unfold dispatched. cbn zeta. by destruct (bool_decide _). Qed.

Lemma sleeping_list_dispatched s c next :
  sleeping_list (dispatched s c next) = sleeping_list s.
Proof. unfold dispatched. cbn zeta. by destruct (bool_decide _). Qed.

Lemma lookup_dispatched_next s c next :
  threads (dispatched s c next) !! next
  = upd_status THREAD_RUNNING <$> threads s !! next.
Proof.
  unfold dispatched. cbn zeta. case_bool_decide as Hb;
    cbn [threads set_threads set_thread_ticks update_thread set_running
         set_ready_list].
  - destruct Hb as (Hne & _). by rewrite lookup_delete_ne, lookup_alter_eq.
  - by rewrite lookup_alter_eq.
Qed.

Lemma lookup_dispatched_Some s c next x th :
  x ≠ next -> threads (dispatched s c next) !! x = Some th ->
  threads s !! x = Some th.
Proof.
  intros Hx. unfold dispatched. cbn zeta. case_bool_decide as Hb;
    cbn [threads set_threads set_thread_ticks update_thread set_running
         set_ready_list].
  - destruct (decide (running s = x)) as [->|Hne].
    + by rewrite lookup_delete_eq.
    + by rewrite lookup_delete_ne, lookup_alter_ne.
  - by rewrite lookup_alter_ne.
Qed.

Lemma lookup_dispatched_other s c next x :
  x ≠ next -> (status c = THREAD_DYING -> x ≠ running s) ->
  threads (dispatched s c next) !! x = threads s !! x.
Proof.
  intros Hx Hd. unfold dispatched. cbn zeta. case_bool_decide as Hb;
    cbn [threads set_threads set_thread_ticks update_thread set_running
         set_ready_list].
  - destruct Hb as (_ & Hdy & _).
    rewrite lookup_delete_ne, lookup_alter_ne; [done..|].
    intros E. by apply Hd.
  - by rewrite lookup_alter_ne.
Qed.

Lemma lookup_dispatched_freed s c next :
  running s ≠ next -> status c = THREAD_DYING ->
  Some (running s) ≠ initial_thread s ->
  threads (dispatched s c next) !! running s = None.
Proof.
  intros H1 H2 H3. unfold dispatched. cbn zeta.
  rewrite bool_decide_true by done.
  cbn [threads set_threads]. by rewrite lookup_delete_eq.
Qed.

Lemma lookup_dispatched_kept s c next :
  running s ≠ next -> Some (running s) = initial_thread s ->
  threads (dispatched s c next) !! running s = threads s !! running s.
Proof.
  intros H1 H2. unfold dispatched. cbn zeta.
  rewrite bool_decide_false by (intros (_ & _ & ?); done).
  cbn [threads set_threads set_thread_ticks update_thread set_running
       set_ready_list].
  by rewrite lookup_alter_ne.
Qed.

Lemma sched_wf_core s s' :
  threads s' = threads s -> ready_list s' = ready_list s ->
  running s' = running s -> sched_wf s -> sched_wf s'.
Proof. destruct s, s'; unfold sched_wf, has_status; simpl. by intros -> -> ->. Qed.

Lemma next_from_head s q next :
  next_from s q = Some next -> q = [] ∨ ∃ r, q = next :: r.
Proof.
  destruct q as [|f r]; [by left|]. simpl. intros [= ->]. right. by eexists.
Qed.

Lemma sched_wf_dispatched X c next :
  threads X !! running X = Some c ->
  (∀ t th, threads X !! t = Some th -> status th ≠ THREAD_RUNNING) ->
  Forall (has_status THREAD_READY X) (ready_list X) ->
  NoDup (ready_list X) ->
  next_from X (ready_list X) = Some next ->
  is_Some (threads X !! next) ->
  sched_wf (dispatched X c next).
Proof.
  intros Hc Hnone Hrdy Hnd Hnx [n Hn]. unfold sched_wf.
  rewrite running_dispatched, ready_list_dispatched.
  assert (Htl : ∀ x, x ∈ tail (ready_list X) -> x ∈ ready_list X ∧ x ≠ next).
  { intros x Hx. apply next_from_head in Hnx as [E|[r E]]; rewrite E in *.
    - by apply elem_of_nil in Hx.
    - simpl in Hx. apply NoDup_cons in Hnd as [Hnot _].
      split; [by right|]. intros ->. done. }
  split; [|split; [|split]].
  - unfold has_status. by rewrite lookup_dispatched_next, Hn.
  - intros t th Ht Hst. destruct (decide (t = next)) as [|Hne]; [done|].
    apply lookup_dispatched_Some in Ht; [|done].
    by apply Hnone in Ht.
  - apply Forall_forall. intros x Hx. apply Htl in Hx as [Hx Hne].
    rewrite Forall_forall in Hrdy. specialize (Hrdy x Hx).
    unfold has_status in *. rewrite lookup_dispatched_other; [done..|].
    intros Hd ->. rewrite Hc in Hrdy. simpl in Hrdy. congruence.
  - destruct (ready_list X); [constructor|].
    by apply NoDup_cons in Hnd as [_ ?].
Qed.

(** The state [X] a thread leaves behind when it gives up the processor with
    status [st] and calls schedule. *)
Lemma sched_wf_leave s st X s' :
  sched_wf s -> st ≠ THREAD_RUNNING ->
  threads X = alter (upd_status st) (running s) (threads s) ->
  running X = running s ->
  (∀ x, x ∈ ready_list X -> x ∈ ready_list s ∨ (x = running s ∧ st = THREAD_READY)) ->
  NoDup (ready_list X) ->
  schedule X = Some s' ->
  sched_wf s'.
Proof.
  intros (Hrun & Huniq & Hrdy & _) Hst Hth Hr Hin Hnd H.
  assert (Hnot : running s ∉ ready_list s).
  { intros Hx. rewrite Forall_forall in Hrdy. apply Hrdy in Hx.
    unfold has_status in *. congruence. }
  apply schedule_Some_inv in H as (c & next & _ & Hc & _ & Hnx & Hn & ->).
  apply sched_wf_dispatched; try done.
  - intros t th. rewrite Hth. destruct (decide (running s = t)) as [<-|Hne].
    + rewrite lookup_alter_eq. destruct (threads s !! running s); [|done].
      simpl. intros [= <-]. done.
    + rewrite lookup_alter_ne by done. intros Ht E.
      by apply (Huniq _ _ Ht) in E.
  - apply Forall_forall. intros x Hx. unfold has_status in *. rewrite Hth.
    destruct (decide (running s = x)) as [<-|Hne].
    + rewrite lookup_alter_eq. destruct (threads s !! running s); [|done].
      simpl. by apply Hin in Hx as [Hx|[_ ->]].
    + rewrite lookup_alter_ne by done.
      apply Hin in Hx as [Hx|[-> _]]; [|done].
      rewrite Forall_forall in Hrdy. by apply Hrdy.
Qed.

Lemma running_not_ready s : sched_wf s -> running s ∉ ready_list s.
Proof.
  intros (Hrun & _ & Hrdy & _) Hin. rewrite Forall_forall in Hrdy.
  apply Hrdy in Hin. unfold has_status in *. congruence.
Qed.

Lemma sched_wf_unblock s t s' :
  sched_wf s -> thread_unblock t s = Some s' -> sched_wf s'.
Proof.
  intros Hwf H. pose proof Hwf as (Hrun & Huniq & Hrdy & Hnd).
  apply thread_unblock_inv in H as [Hb ->].
  assert (Hne : t ≠ running s).
  { intros ->. unfold has_status in *. congruence. }
  unfold sched_wf, has_status in *.
  cbn [running ready_list update_thread set_threads set_ready_list threads].
  split; [|split; [|split]].
  - by rewrite lookup_alter_ne.
  - intros x th. destruct (decide (t = x)) as [<-|Hx].
    + rewrite lookup_alter_eq. destruct (threads s !! t); [|done].
      simpl. by intros [= <-].
    + rewrite lookup_alter_ne by done. apply Huniq.
  - apply Forall_forall. intros x Hx.
    apply elem_of_list_insert_ordered in Hx.
    destruct (decide (t = x)) as [<-|Hne'].
    + rewrite lookup_alter_eq. by destruct (threads s !! t).
    + rewrite lookup_alter_ne by done. destruct Hx as [->|Hx]; [done|].
      rewrite Forall_forall in Hrdy. by apply Hrdy.
  - rewrite list_insert_ordered_perm. apply NoDup_cons. split; [|done].
    intros Hin. rewrite Forall_forall in Hrdy. apply Hrdy in Hin. congruence.
Qed.

Lemma sched_wf_yield s s' :
  sched_wf s -> thread_yield s = Some s' -> sched_wf s'.
Proof.
  intros Hwf H. pose proof Hwf as (Hrun & Huniq & Hrdy & Hnd).
  pose proof (running_not_ready s Hwf) as Hnot.
  pose proof H as Hinv. apply thread_yield_inv in Hinv as (_ & Hctx & _).
  unfold has_status in Hrun.
  destruct (threads s !! running s) as [c|] eqn:Hc; [|done].
  simpl in Hrun. injection Hrun as Hrun.
  rewrite (thread_yield_eq s c Hc Hrun Hctx) in H. cbn zeta in H.
  set (X := update_thread _ _ _) in H.
  destruct (next_from s (queue_at_yield s)) as [next|] eqn:Hnx; [|done].
  cbn [mbind option_bind] in H.
  destruct (threads X !! next) as [n|] eqn:Hn; [|done].
  cbn [mbind option_bind] in H.
  assert (Hwf' : sched_wf (dispatched X (upd_status THREAD_READY c) next)).
  { apply (sched_wf_leave s THREAD_READY X); try done.
    - intros x Hx. change (ready_list X) with (queue_at_yield s) in Hx.
      unfold queue_at_yield in Hx.
      destruct (bool_decide (Some (running s) ≠ idle_thread s)); [|by left].
      apply elem_of_list_insert_ordered in Hx as [->|Hx]; [by right|by left].
    - change (ready_list X) with (queue_at_yield s).
      unfold queue_at_yield.
      destruct (bool_decide (Some (running s) ≠ idle_thread s)); [|done].
      rewrite list_insert_ordered_perm. by apply NoDup_cons.
    - apply schedule_Some; try done.
      unfold X. rewrite lookup_update_thread_eq.
      cbn [threads set_ready_list intr_set_level]. by rewrite Hc. }
  injection H as <-. case_bool_decide; [|done].
  by apply (sched_wf_core _ _ eq_refl eq_refl eq_refl).
Qed.

Lemma sched_wf_block s s' :
  sched_wf s -> thread_block s = Some s' -> sched_wf s'.
Proof.
  intros Hwf H. unfold thread_block in H.
  rewrite !option_guard_bool_decide in H.
  do 2 (case_bool_decide; [|done]). cbn [mbind option_bind] in H.
  destruct (thread_current s) as [cur|] eqn:Hcur; [|done].
  apply thread_current_inv in Hcur as [-> _]. cbn [mbind option_bind] in H.
  apply (sched_wf_leave s THREAD_BLOCKED _ _ Hwf) in H; try done.
  - intros x Hx. by left.
  - by destruct Hwf as (_ & _ & _ & ?).
Qed.

Lemma thread_exit_inv s s' :
  thread_exit s = Some s' ->
  intr_ctx s = false
  ∧ has_status THREAD_RUNNING s (running s)
  ∧ running s' ≠ running s
  ∧ schedule (update_thread (upd_status THREAD_DYING) (running s)
                (set_all_list (list_remove (running s) (all_list s))
                   (intr_set_level false s))) = Some s'.
Proof.
  unfold thread_exit. intros H. rewrite option_guard_bool_decide in H.
  case_bool_decide as Hctx; [|done]. cbn [mbind option_bind] in H.
  destruct (thread_current (intr_set_level false s)) as [cur|] eqn:Hcur; [|done].
  apply thread_current_inv in Hcur as [-> Hrun].
  cbn [mbind option_bind] in H.
  destruct (thread_current (set_all_list _ _)) as [cur|] eqn:Hcur; [|done].
  apply thread_current_inv in Hcur as [-> _].
  cbn [mbind option_bind running set_all_list intr_set_level] in H.
  destruct (schedule _) as [s1|] eqn:Hs; [|done].
  cbn [mbind option_bind] in H. case_bool_decide as Hne; [done|].
  injection H as <-. done.
Qed.

Lemma sched_wf_exit s s' :
  sched_wf s -> thread_exit s = Some s' -> sched_wf s'.
Proof.
  intros Hwf H. apply thread_exit_inv in H as (_ & _ & _ & H).
  apply (sched_wf_leave s THREAD_DYING _ _ Hwf) in H; try done.
  - intros x Hx. by left.
  - by destruct Hwf as (_ & _ & _ & ?).
Qed.

Lemma wake_loop_preserves (P : sched -> Prop) now :
  (∀ s t s', P s -> thread_unblock t s = Some s' -> P s') ->
  (∀ s l, P s -> P (set_sleeping_list l s)) ->
  ∀ l s s', P s -> wake_loop now l s = Some s' -> P s'.
Proof.
  intros Hu Hl l. induction l as [|thr rest IH]; intros s s' HP H;
    cbn [wake_loop] in H.
  - by injection H as <-.
  - case_bool_decide; [by injection H as <-|].
    destruct (thread_unblock thr s) as [s1|] eqn:E; [|done].
    cbn [mbind option_bind] in H. eapply IH; [|exact H].
    apply Hl. by eapply Hu.
Qed.

Lemma sched_wf_tick now s s' :
  sched_wf s -> thread_tick now s = Some s' -> sched_wf s'.
Proof.
  intros Hwf H. apply thread_tick_inv in H as (s1 & _ & Hw & _ & ->).
  assert (Hwf1 : sched_wf s1).
  { eapply (wake_loop_preserves sched_wf); [| |
      |exact Hw].
    - intros ????; by eapply sched_wf_unblock.
    - intros ? ?. by apply sched_wf_core.
    - destruct (bool_decide (Some (running s) = _)); by apply (sched_wf_core s). }
  destruct (bool_decide (_ >= _)); by apply (sched_wf_core s1).
Qed.

Lemma sched_wf_update_thread f t s :
  (∀ th, status (f th) = status th) ->
  sched_wf s -> sched_wf (update_thread f t s).
Proof.
  intros Hf (Hrun & Huniq & Hrdy & Hnd).
  assert (Hst : ∀ x, status <$> threads (update_thread f t s) !! x
                     = status <$> threads s !! x).
  { intros x. rewrite lookup_update_thread. case_decide as E; [subst x|done].
    destruct (threads s !! t); simpl; [by rewrite Hf|done]. }
  unfold sched_wf, has_status in *. split; [|split; [|split]].
  - by rewrite Hst.
  - intros x th Hx Hs. change (running (update_thread f t s)) with (running s).
    pose proof (Hst x) as E. rewrite Hx in E. simpl in E.
    destruct (threads s !! x) as [th'|] eqn:Hx'; [|done].
    apply (Huniq x th'); [done|]. simpl in E. congruence.
  - apply Forall_forall. intros x Hx. rewrite Hst.
    rewrite Forall_forall in Hrdy. by apply Hrdy.
  - done.
Qed.

Lemma sched_wf_sleep ticks now s s' :
  sched_wf s -> thread_sleep ticks now s = Some s' -> sched_wf s'.
Proof.
  intros Hwf H. unfold thread_sleep in H.
  destruct (thread_current s) as [cur|]; [|done]. cbn [mbind option_bind] in H.
  destruct (thread_current _) as [cur'|]; [|done].
  cbn [mbind option_bind] in H.
  apply sched_wf_block in H; [done|].
  apply (sched_wf_core (update_thread (upd_waik_up_time (int64 (now + ticks))) cur s));
    [done..|].
  apply sched_wf_update_thread; [|done]. by intros [].
Qed.

Lemma sched_wf_status s s' :
  (∀ x, status <$> threads s' !! x = status <$> threads s !! x) ->
  running s' = running s ->
  Forall (has_status THREAD_READY s) (ready_list s') -> NoDup (ready_list s') ->
  sched_wf s -> sched_wf s'.
Proof.
  intros Hst Hr Hin Hnd' (Hrun & Huniq & Hrdy & Hnd).
  unfold sched_wf, has_status in *. split; [|split; [|split]].
  - by rewrite Hr, Hst.
  - intros x th Hx Hs. rewrite Hr. pose proof (Hst x) as E.
    rewrite Hx in E. simpl in E.
    destruct (threads s !! x) as [th'|] eqn:Hx'; [|done].
    apply (Huniq x th'); [done|]. simpl in E. congruence.
  - apply Forall_forall. intros x Hx. rewrite Hst.
    rewrite Forall_forall in Hin. by apply Hin.
  - done.
Qed.

Lemma sched_wf_foldl (func : ptr -> sched -> sched) l :
  (∀ t s, sched_wf s -> sched_wf (func t s)) ->
  ∀ s, sched_wf s -> sched_wf (foldl (λ acc t, func t acc) s l).
Proof.
  intros Hf. induction l as [|t r IH]; intros s Hwf; cbn [foldl]; [done|].
  by apply IH, Hf.
Qed.

Lemma sched_wf_foreach (func : ptr -> sched -> sched) s s' :
  (∀ t s, sched_wf s -> sched_wf (func t s)) ->
  sched_wf s -> thread_foreach func s = Some s' -> sched_wf s'.
Proof.
  intros Hf Hwf H. unfold thread_foreach in H.
  rewrite option_guard_bool_decide in H. case_bool_decide; [|done].
  cbn [mbind option_bind] in H. injection H as <-. by apply sched_wf_foldl.
Qed.

Lemma sched_wf_update_priority_mlfqs t s :
  sched_wf s -> sched_wf (thread_update_priority_mlfqs t s).
Proof. intros. by apply sched_wf_update_thread. Qed.

Lemma sched_wf_update_recent_cpu t s :
  sched_wf s -> sched_wf (thread_update_recent_cpu t s).
Proof.
  intros. unfold thread_update_recent_cpu.
  apply sched_wf_update_priority_mlfqs. by apply sched_wf_update_thread.
Qed.

Lemma sched_wf_try_yeild s s' :
  sched_wf s -> thread_try_yeild s = Some s' -> sched_wf s'.
Proof.
  intros Hwf H. apply thread_try_yeild_inv in H as [->|(_ & _ & H)]; [done|].
  by eapply sched_wf_yield.
Qed.

Lemma thread_update_priority_None t s :
  threads s !! t = None -> thread_update_priority t s = None.
Proof.
  intros Ht. unfold thread_update_priority.
  cbn [threads intr_set_level]. by rewrite Ht.
Qed.

Lemma sched_wf_update_priority t s s' :
  sched_wf s -> thread_update_priority t s = Some s' -> sched_wf s'.
Proof.
  intros Hwf H. destruct (threads s !! t) as [th|] eqn:Ht.
  - rewrite (thread_update_priority_eq _ _ _ Ht) in H. injection H as <-.
    apply sched_wf_update_thread; [|done]. intros x. by case_bool_decide.
  - by rewrite thread_update_priority_None in H.
Qed.

Lemma sched_wf_donate_priority t s s' :
  sched_wf s -> thread_donate_priority t s = Some s' -> sched_wf s'.
Proof.
  intros Hwf H. destruct (threads s !! t) as [th|] eqn:Ht.
  2: { unfold thread_donate_priority in H.
       cbn [mbind option_bind] in H.
       rewrite thread_update_priority_None in H; done. }
  rewrite (thread_donate_priority_eq _ _ _ Ht) in H.
  destruct (thread_update_priority t s) as [s1|] eqn:E; [|done].
  cbn [mbind option_bind] in H. injection H as <-.
  pose proof (thread_update_priority_frame _ _ _ E) as (_ & _ & Hrl & Hst).
  destruct (Hst th Ht) as (th' & Ht' & _ & Hst' & _).
  apply sched_wf_update_priority in E; [|done].
  case_bool_decide as Hrdy; [|done].
  pose proof E as (_ & _ & Hall & Hnd). rewrite Forall_forall in Hall.
  rewrite Hrl in Hall, Hnd.
  apply (sched_wf_status s1); try done.
  - apply Forall_forall. intros x Hx. cbn [ready_list set_ready_list] in Hx.
    apply elem_of_list_insert_ordered in Hx as [->|Hx].
    + unfold has_status. rewrite Ht'. simpl. congruence.
    + apply Hall. unfold list_remove in Hx.
      by apply list_elem_of_filter in Hx as [_ ?].
  - cbn [ready_list set_ready_list]. rewrite list_insert_ordered_perm.
    apply NoDup_cons. split.
    + unfold list_remove. intros Hin.
      apply list_elem_of_filter in Hin as [Hne _]. done.
    + unfold list_remove. by apply NoDup_filter.
Qed.

Lemma sched_wf_set_priority new_priority s s' :
  sched_wf s -> thread_set_priority new_priority s = Some s' -> sched_wf s'.
Proof.
  intros Hwf H. destruct (thread_mlfqs s) eqn:Hm.
  { unfold thread_set_priority in H. rewrite Hm in H. by injection H as <-. }
  pose proof Hwf as (Hrun & _). unfold has_status in Hrun.
  destruct (threads s !! running s) as [c|] eqn:Hc; [|done].
  simpl in Hrun. injection Hrun as Hrun.
  rewrite (thread_set_priority_eq _ _ _ Hm Hc Hrun) in H.
  assert (Hins : ∀ f, status (f c) = status c ->
            sched_wf (set_threads (<[running s := f c]> (threads s)) s)).
  { intros f Hf. apply (sched_wf_status s); try done;
      [|by destruct Hwf as (_ & _ & ? & _)|by destruct Hwf as (_ & _ & _ & ?)].
    intros x. cbn [threads set_threads].
    destruct (decide (running s = x)) as [<-|Hne].
    - rewrite lookup_insert_eq, Hc. simpl. by rewrite Hf.
    - by rewrite lookup_insert_ne. }
  case_bool_decide.
  - eapply sched_wf_yield; [|exact H].
    apply (Hins (λ c, upd_priority new_priority (upd_real_priority new_priority c))).
    done.
  - injection H as <-. by apply (Hins (upd_real_priority new_priority)).
Qed.

Lemma sched_wf_set_nice new_nice s s' :
  sched_wf s -> thread_set_nice new_nice s = Some s' -> sched_wf s'.
Proof.
  intros Hwf H. unfold thread_set_nice in H.
  destruct (thread_current s) as [cur|]; [|done]. cbn [mbind option_bind] in H.
  eapply sched_wf_try_yeild; [|exact H].
  apply sched_wf_update_priority_mlfqs. by apply sched_wf_update_thread.
Qed.

Lemma sched_wf_recent_cpu_and_load_avg s s' :
  sched_wf s -> thread_update_recent_cpu_and_load_avg s = Some s' -> sched_wf s'.
Proof.
  intros Hwf H. unfold thread_update_recent_cpu_and_load_avg in H.
  destruct (get_ready_threads s) as [n|]; [|done]. cbn [mbind option_bind] in H.
  destruct (thread_foreach _ _) as [s1|] eqn:E; [|done].
  cbn [mbind option_bind] in H.
  eapply sched_wf_try_yeild; [|exact H].
  eapply sched_wf_foreach; [|
    |exact E].
  - intros ??. apply sched_wf_update_recent_cpu.
  - by apply (sched_wf_core s).
Qed.

Lemma sched_wf_priority_mlfqs_all s s' :
  sched_wf s -> thread_update_priority_mlfqs_all s = Some s' -> sched_wf s'.
Proof.
  intros Hwf H. unfold thread_update_priority_mlfqs_all in H.
  destruct (thread_foreach _ _) as [s1|] eqn:E; [|done].
  cbn [mbind option_bind] in H. injection H as <-.
  apply sched_wf_foreach in E; [|intros ??; apply sched_wf_update_priority_mlfqs|done].
  pose proof E as (_ & _ & Hall & Hnd).
  apply (sched_wf_status s1); try done; cbn [ready_list set_ready_list].
  - by rewrite list_sort_perm.
  - by rewrite list_sort_perm.
Qed.

Lemma sched_wf_inc_recent_cpu t s :
  sched_wf s -> sched_wf (inc_recent_cpu t s).
Proof.
  intros. unfold inc_recent_cpu. case_bool_decide; [|done].
  by apply sched_wf_update_thread.
Qed.

(** X4.  The bookkeeping of thread states is an invariant of the functions
    of thread.c that act on a running system: whatever sequence of
    thread_unblock, thread_yield, thread_block, thread_exit, thread_tick,
    thread_sleep, thread_set_priority, thread_try_yeild, thread_set_nice,
    thread_update_priority, thread_donate_priority,
    thread_update_recent_cpu_and_load_avg, thread_update_priority_mlfqs_all
    and inc_recent_cpu runs without a panic, afterwards the running thread is
    still the one and only thread with status THREAD_RUNNING, and the ready
    list still holds threads with status THREAD_READY, none of them twice. *)
Theorem X4_thread_states_stay_consistent (os : list sched_op) (s s' : sched) :
  sched_wf s -> run_sched_ops os s = Some s' -> sched_wf s'.
Proof.
  revert s. induction os as [|o r IH]; intros s Hwf H; cbn [run_sched_ops] in H.
  - by injection H as <-.
  - destruct (run_sched_op o s) as [s1|] eqn:E; [|done].
    cbn [mbind option_bind] in H. apply (IH s1); [|done].
    destruct o; cbn [run_sched_op] in E.
    + by eapply sched_wf_unblock.
    + by eapply sched_wf_yield.
    + by eapply sched_wf_block.
    + by eapply sched_wf_exit.
    + by eapply sched_wf_tick.
    + by eapply sched_wf_sleep.
    + by eapply sched_wf_set_priority.
    + by eapply sched_wf_try_yeild.
    + by eapply sched_wf_set_nice.
    + by eapply sched_wf_update_priority.
    + by eapply sched_wf_donate_priority.
    + by eapply sched_wf_recent_cpu_and_load_avg.
    + by eapply sched_wf_priority_mlfqs_all.
    + injection E as <-. by apply sched_wf_inc_recent_cpu.
Qed.

(** ** thread_block and thread_exit *)

Lemma is_Some_lookup_update_thread f t s x :
  is_Some (threads (update_thread f t s) !! x) <-> is_Some (threads s !! x).
Proof.
  rewrite lookup_update_thread. case_decide as E; [subst x|done].
  by rewrite fmap_is_Some.
Qed.

Lemma thread_block_eq s :
  has_status THREAD_RUNNING s (running s) ->
  thread_block s
  = (guard (intr_ctx s = false);;
     guard (intr_on s = false);;
     schedule (update_thread (upd_status THREAD_BLOCKED) (running s) s)).
Proof. intros H. unfold thread_block. by rewrite thread_current_Some. Qed.

Lemma thread_block_inv s s' :
  thread_block s = Some s' ->
  intr_ctx s = false ∧ intr_on s = false
  ∧ has_status THREAD_RUNNING s (running s)
  ∧ schedule (update_thread (upd_status THREAD_BLOCKED) (running s) s) = Some s'.
Proof.
  unfold thread_block. intros H. rewrite !option_guard_bool_decide in H.
  do 2 (case_bool_decide; [|done]). cbn [mbind option_bind] in H.
  destruct (thread_current s) as [cur|] eqn:Hcur; [|done].
  by apply thread_current_inv in Hcur as [-> ?].
Qed.

(** What schedule does for a thread that left the processor with status
    [st]. *)
Lemma schedule_leave_inv s st X s' :
  threads X = alter (upd_status st) (running s) (threads s) ->
  running X = running s -> ready_list X = ready_list s ->
  idle_thread X = idle_thread s -> initial_thread X = initial_thread s ->
  schedule X = Some s' ->
  next_from s (ready_list s) = Some (running s')
  ∧ is_Some (threads s !! running s')
  ∧ has_status THREAD_RUNNING s' (running s')
  ∧ ready_list s' = tail (ready_list s)
  ∧ thread_ticks s' = 0
  ∧ (running s' ≠ running s -> st ≠ THREAD_DYING ->
     status <$> threads s' !! running s = (λ _, st) <$> threads s !! running s)
  ∧ (running s' ≠ running s -> st = THREAD_DYING ->
     Some (running s) ≠ initial_thread s -> threads s' !! running s = None)
  ∧ (running s' ≠ running s -> st = THREAD_DYING ->
     Some (running s) = initial_thread s ->
     status <$> threads s' !! running s = (λ _, st) <$> threads s !! running s)
  ∧ (∀ x, x ≠ running s -> x ≠ running s' -> threads s' !! x = threads s !! x).
Proof.
  intros Hth Hr Hrl Hid Hin H.
  apply schedule_Some_inv in H as (c & next & _ & Hc & _ & Hnx & Hn & ->).
  rewrite running_dispatched, ready_list_dispatched, thread_ticks_dispatched.
  rewrite Hr, Hth, lookup_alter_eq in Hc.
  assert (Hn' : is_Some (threads s !! next)).
  { rewrite Hth in Hn. destruct (decide (running s = next)) as [<-|Hne].
    - rewrite lookup_alter_eq in Hn. by apply fmap_is_Some in Hn.
    - by rewrite lookup_alter_ne in Hn. }
  assert (Hstc : status c = st).
  { destruct (threads s !! running s); [|done]. simpl in Hc.
    by injection Hc as <-. }
  split. { unfold next_from in *. by rewrite Hrl, Hid in Hnx. }
  split; [done|]. split.
  { unfold has_status. rewrite lookup_dispatched_next.
    destruct Hn as [n ->]. done. }
  split; [by rewrite Hrl|]. split; [done|].
  assert (Hkeep : ∀ x, x ≠ next -> (status c = THREAD_DYING -> x ≠ running X) ->
            threads (dispatched X c next) !! x = threads X !! x).
  { intros. by apply lookup_dispatched_other. }
  split; [|split; [|split]].
  - intros Hne Hd. rewrite Hkeep; [|done|congruence].
    rewrite Hth, lookup_alter_eq. by destruct (threads s !! running s).
  - intros Hne Hd Hini. rewrite <- Hr. apply lookup_dispatched_freed.
    + by rewrite Hr.
    + congruence.
    + by rewrite Hr, Hin.
  - intros Hne Hd Hini. rewrite <- Hr at 1. rewrite lookup_dispatched_kept.
    + rewrite Hr, Hth, lookup_alter_eq. by destruct (threads s !! running s).
    + by rewrite Hr.
    + by rewrite Hr, Hin.
  - intros x Hx Hx'. rewrite Hkeep; [|done|by rewrite Hr].
    by rewrite Hth, lookup_alter_ne.
Qed.

(** X5.  thread_block succeeds exactly when it is called outside interrupt
    context, with interrupts off, by the running thread, and there is a thread
    to switch to: the front of the ready list or, when that list is empty,
    the idle thread.  In every other case the kernel panics.  On success the
    thread picked runs with a fresh time slice, the caller is left blocked,
    and no other thread is touched. *)
Theorem X5_block_hands_over_the_processor (s : sched) :
  (is_Some (thread_block s)
   <-> intr_ctx s = false ∧ intr_on s = false
       ∧ has_status THREAD_RUNNING s (running s)
       ∧ ∃ next, next_from s (ready_list s) = Some next
                 ∧ is_Some (threads s !! next))
  ∧ ∀ s', thread_block s = Some s' ->
      next_from s (ready_list s) = Some (running s')
      ∧ has_status THREAD_RUNNING s' (running s')
      ∧ ready_list s' = tail (ready_list s)
      ∧ thread_ticks s' = 0
      ∧ (running s' ≠ running s -> has_status THREAD_BLOCKED s' (running s))
      ∧ (∀ x, x ≠ running s -> x ≠ running s' ->
              threads s' !! x = threads s !! x).
Proof.
  split; [split|].
  - intros [s' H]. apply thread_block_inv in H as (Hctx & Hon & Hrun & H).
    do 3 (split; [done|]).
    eapply schedule_leave_inv in H as (Hnx & Hn & _); [|done..].
    by eexists.
  - intros (Hctx & Hon & Hrun & next & Hnx & Hn).
    rewrite thread_block_eq, !option_guard_True by done.
    cbn [mbind option_bind]. unfold has_status in Hrun.
    destruct (threads s !! running s) as [c|] eqn:Hc; [|done].
    rewrite (schedule_Some _ (upd_status THREAD_BLOCKED c) next);
      [by eexists|done| |done|exact Hnx|].
    + rewrite lookup_update_thread_eq.
      cbn [running update_thread set_threads]. by rewrite Hc.
    + by apply is_Some_lookup_update_thread.
  - intros s' H. apply thread_block_inv in H as (Hctx & Hon & Hrun & H).
    eapply (schedule_leave_inv s THREAD_BLOCKED) in H
      as (Hnx & Hn & Hr' & Hrl & Htk & Hcur & _ & _ & Hoth); [|done..].
    do 4 (split; [done|]). split; [|done].
    intros Hne. unfold has_status in *. rewrite Hcur by done.
    by destruct (threads s !! running s).
Qed.

Lemma thread_exit_eq s :
  has_status THREAD_RUNNING s (running s) -> intr_ctx s = false ->
  thread_exit s
  = (s1 ← schedule (update_thread (upd_status THREAD_DYING) (running s)
                      (set_all_list (list_remove (running s) (all_list s))
                         (intr_set_level false s)));
     if bool_decide (running s1 = running s) then None else Some s1).
Proof.
  intros Hrun Hctx. unfold thread_exit.
  rewrite option_guard_True by done. cbn [mbind option_bind].
  rewrite (thread_current_Some (intr_set_level false s)) by done.
  cbn [mbind option_bind].
  rewrite (thread_current_Some (set_all_list _ _)) by done.
  done.
Qed.

(** X6.  thread_exit succeeds exactly when it is called outside interrupt
    context by the running thread and there is another thread to switch to;
    otherwise the kernel panics.  On success the caller is gone from
    all_list, the thread picked runs, the caller's page is freed unless it is
    the initial thread, which stays with status THREAD_DYING, and no other
    thread is touched. *)
Theorem X6_exit_removes_the_caller (s : sched) :
  (is_Some (thread_exit s)
   <-> intr_ctx s = false
       ∧ has_status THREAD_RUNNING s (running s)
       ∧ ∃ next, next_from s (ready_list s) = Some next
                 ∧ next ≠ running s
                 ∧ is_Some (threads s !! next))
  ∧ ∀ s', thread_exit s = Some s' ->
      next_from s (ready_list s) = Some (running s')
      ∧ running s' ≠ running s
      ∧ has_status THREAD_RUNNING s' (running s')
      ∧ all_list s' = list_remove (running s) (all_list s)
      ∧ (running s ∉ all_list s')
      ∧ ready_list s' = tail (ready_list s)
      ∧ (Some (running s) ≠ initial_thread s -> threads s' !! running s = None)
      ∧ (Some (running s) = initial_thread s ->
         has_status THREAD_DYING s' (running s))
      ∧ (∀ x, x ≠ running s -> x ≠ running s' ->
              threads s' !! x = threads s !! x).
Proof.
  split; [split|].
  - intros [s' H]. apply thread_exit_inv in H as (Hctx & Hrun & Hne & H).
    do 2 (split; [done|]).
    eapply (schedule_leave_inv s) in H as (Hnx & Hn & _); [|done..].
    by eexists.
  - intros (Hctx & Hrun & next & Hnx & Hne & Hn).
    rewrite thread_exit_eq by done. unfold has_status in Hrun.
    destruct (threads s !! running s) as [c|] eqn:Hc; [|done].
    rewrite (schedule_Some _ (upd_status THREAD_DYING c) next);
      [|done| |done|exact Hnx|].
    + cbn [mbind option_bind]. rewrite running_dispatched.
      rewrite bool_decide_false by done. by eexists.
    + rewrite lookup_update_thread_eq.
      cbn [running update_thread set_threads set_all_list intr_set_level threads].
      by rewrite Hc.
    + by apply is_Some_lookup_update_thread.
  - intros s' H. apply thread_exit_inv in H as (Hctx & Hrun & Hne & H).
    pose proof H as H0.
    eapply (schedule_leave_inv s THREAD_DYING) in H
      as (Hnx & Hn & Hr' & Hrl & Htk & _ & Hfree & Hkept & Hoth); [|done..].
    apply schedule_Some_inv in H0 as (c & next & _ & _ & _ & _ & _ & E).
    assert (Hal : all_list s' = list_remove (running s) (all_list s)).
    { rewrite E. by rewrite all_list_dispatched. }
    do 4 (split; [done|]). split.
    { rewrite Hal. unfold list_remove. intros Hin.
      by apply list_elem_of_filter in Hin as [? _]. }
    split; [done|]. split; [by apply Hfree|]. split; [|done].
    intros Hini. unfold has_status in *. rewrite Hkept by done.
    by destruct (threads s !! running s).
Qed.

(** ** The time slice *)

Lemma thread_tick_slice now s s' :
  thread_tick now s = Some s' ->
  thread_ticks s' = uint32 (thread_ticks s + 1)
  ∧ yield_on_return s'
    = (bool_decide (thread_ticks s' >= TIME_SLICE) || yield_on_return s)
  ∧ running s' = running s.
Proof.
  intros H. apply thread_tick_inv in H as (s1 & _ & Hw & _ & ->).
  assert (H1 : thread_ticks s1 = thread_ticks s
               ∧ yield_on_return s1 = yield_on_return s
               ∧ running s1 = running s).
  { eapply (wake_loop_preserves
              (λ x, thread_ticks x = thread_ticks s
                    ∧ yield_on_return x = yield_on_return s
                    ∧ running x = running s)); [| | |exact Hw].
    - intros x t x' Hx Hu. apply thread_unblock_inv in Hu as [_ ->]. done.
    - intros x l Hx. done.
    - by case_bool_decide. }
  destruct H1 as (E1 & E2 & E3).
  cbn [thread_ticks set_thread_ticks]. rewrite E1.
  destruct (bool_decide (uint32 (thread_ticks s + 1) >= TIME_SLICE)) eqn:Hb;
    cbn [thread_ticks yield_on_return running set_thread_ticks
         set_yield_on_return]; by rewrite Hb, ?E2, E3.
Qed.

Lemma tick_all_slice times : ∀ s s',
  0 <= thread_ticks s ->
  thread_ticks s + Z.of_nat (length times) < 2 ^ 32 ->
  (yield_on_return s = true <-> TIME_SLICE <= thread_ticks s) ->
  tick_all times s = Some s' ->
  thread_ticks s' = thread_ticks s + Z.of_nat (length times)
  ∧ running s' = running s
  ∧ (yield_on_return s' = true <-> TIME_SLICE <= thread_ticks s').
Proof.
  induction times as [|now r IH]; intros s s' H0 Hlt Hy H; cbn [tick_all] in H.
  - injection H as <-. simpl. split; [lia|done].
  - destruct (thread_tick now s) as [s1|] eqn:E; [|done].
    cbn [mbind option_bind] in H.
    apply thread_tick_slice in E as (E1 & E2 & E3).
    rewrite length_cons, Nat2Z.inj_succ in Hlt |- *.
    assert (E1' : thread_ticks s1 = thread_ticks s + 1).
    { rewrite E1. unfold uint32. apply Z.mod_small. lia. }
    apply IH in H as (I1 & I2 & I3).
    + split; [lia|]. split; [congruence|done].
    + lia.
    + lia.
    + rewrite E2, orb_true_iff, bool_decide_eq_true, Hy. unfold TIME_SLICE.
      lia.
Qed.

(** X7.  The time slice is four ticks.  Counted from a dispatch, which zeroes
    thread_ticks, a run of timer ticks in which the thread keeps the
    processor leaves thread_ticks at the number of ticks, never changes the
    running thread, and has asked for a yield on return from the interrupt
    exactly when four ticks or more have passed. *)
Theorem X7_time_slice_is_four_ticks (times : list Z) (s s' : sched) :
  thread_ticks s = 0 -> yield_on_return s = false ->
  Z.of_nat (length times) < 2 ^ 32 ->
  tick_all times s = Some s' ->
  thread_ticks s' = Z.of_nat (length times)
  ∧ running s' = running s
  ∧ (yield_on_return s' = true <-> 4 <= Z.of_nat (length times)).
Proof.
  intros H0 Hy Hlen H.
  apply tick_all_slice in H as (E1 & E2 & E3); rewrite ?H0; try lia.
  - rewrite H0 in E1. simpl in E1. rewrite E1 in E3. done.
  - rewrite Hy. unfold TIME_SLICE. split; [done|lia].
Qed.

(** ** The order of the ready list *)

Lemma descending_ext s s' l :
  (∀ x, x ∈ l -> prio s' x = prio s x) -> descending s l -> descending s' l.
Proof.
  intros E. unfold descending.
  by apply (StronglySorted_key_ext_in (prio s) (prio s') (λ a b, a >= b)).
Qed.

Lemma descending_tail s l : descending s l -> descending s (tail l).
Proof.
  unfold descending. destruct l; [done|]. simpl. intros H.
  by apply StronglySorted_inv in H as [? _].
Qed.

Lemma descending_insert s t l :
  descending s l -> descending s (list_insert_ordered (ComparePriority s) t l).
Proof. apply (list_insert_ordered_descending (prio s)). Qed.

Lemma ordered_unblock s t s' :
  ordered s -> thread_unblock t s = Some s' -> ordered s'.
Proof.
  intros [Hwf Hd] H. split; [by eapply sched_wf_unblock|].
  apply thread_unblock_inv in H as [_ ->].
  cbn [ready_list update_thread set_threads set_ready_list].
  apply (descending_ext s); [|by apply descending_insert].
  intros x _. by rewrite prio_update_thread.
Qed.

Lemma ordered_yield s s' :
  ordered s -> thread_yield s = Some s' -> ordered s'.
Proof.
  intros [Hwf Hd] H. split; [by eapply sched_wf_yield|].
  pose proof (prio_thread_yield _ _ H) as Hp.
  apply thread_yield_inv in H as (_ & _ & next & _ & _ & _ & -> & _).
  apply (descending_ext s); [done|].
  by apply descending_tail, queue_at_yield_descending.
Qed.

Lemma ordered_leave s st X s' :
  ordered s ->
  threads X = alter (upd_status st) (running s) (threads s) ->
  running X = running s -> ready_list X = ready_list s ->
  idle_thread X = idle_thread s -> initial_thread X = initial_thread s ->
  schedule X = Some s' ->
  descending s' (ready_list s').
Proof.
  intros [Hwf Hd] H1 H2 H3 H4 H5 H.
  pose proof (running_not_ready s Hwf) as Hnot.
  destruct Hwf as (_ & _ & _ & Hnd).
  eapply (schedule_leave_inv s st) in H
    as (Hnx & _ & _ & Hrl & _ & _ & _ & _ & Hoth); [|done..].
  rewrite Hrl. apply (descending_ext s); [|by apply descending_tail].
  intros x Hx. unfold prio. rewrite Hoth; [done| |].
  - intros ->. apply Hnot. destruct (ready_list s); [done|]. by right.
  - intros ->. apply next_from_head in Hnx as [E|[r E]]; rewrite E in *.
    + by apply elem_of_nil in Hx.
    + simpl in Hx. by apply NoDup_cons in Hnd as [? _].
Qed.

Lemma ordered_block s s' :
  ordered s -> thread_block s = Some s' -> ordered s'.
Proof.
  intros Ho H. split; [destruct Ho; by eapply sched_wf_block|].
  apply thread_block_inv in H as (_ & _ & _ & H).
  eapply (ordered_leave s THREAD_BLOCKED); [exact Ho| | | | | |exact H]; done.
Qed.

Lemma ordered_exit s s' :
  ordered s -> thread_exit s = Some s' -> ordered s'.
Proof.
  intros Ho H. split; [destruct Ho; by eapply sched_wf_exit|].
  apply thread_exit_inv in H as (_ & _ & _ & H).
  eapply (ordered_leave s THREAD_DYING); [exact Ho| | | | | |exact H]; done.
Qed.

Lemma ordered_core s s' :
  threads s' = threads s -> ready_list s' = ready_list s ->
  running s' = running s -> ordered s -> ordered s'.
Proof.
  intros H1 H2 H3 [Hwf Hd]. split; [by apply (sched_wf_core s)|].
  rewrite H2. apply (descending_ext s); [|done].
  intros x _. unfold prio. by rewrite H1.
Qed.

Lemma ordered_tick now s s' :
  ordered s -> thread_tick now s = Some s' -> ordered s'.
Proof.
  intros Ho H. apply thread_tick_inv in H as (s1 & _ & Hw & _ & ->).
  assert (Ho1 : ordered s1).
  { eapply (wake_loop_preserves ordered); [| | |exact Hw].
    - intros ????; by eapply ordered_unblock.
    - intros ? ?. by apply ordered_core.
    - destruct (bool_decide (Some (running s) = _)); by apply (ordered_core s). }
  destruct (bool_decide (_ >= _)); by apply (ordered_core s1).
Qed.

Lemma ordered_update_thread f t s :
  (∀ th, status (f th) = status th) ->
  (t ∈ ready_list s -> ∀ th, priority (f th) = priority th) ->
  ordered s -> ordered (update_thread f t s).
Proof.
  intros Hf Hp [Hwf Hd]. split; [by apply sched_wf_update_thread|].
  apply (descending_ext s); [|done].
  intros x Hx. unfold prio. rewrite lookup_update_thread.
  case_decide as E; [subst x|done].
  destruct (threads s !! t); [|done]. simpl. by apply Hp.
Qed.

Lemma ordered_sleep ticks now s s' :
  ordered s -> thread_sleep ticks now s = Some s' -> ordered s'.
Proof.
  intros Ho H. unfold thread_sleep in H.
  destruct (thread_current s) as [cur|]; [|done]. cbn [mbind option_bind] in H.
  destruct (thread_current _) as [cur'|]; [|done].
  cbn [mbind option_bind] in H.
  eapply ordered_block; [|exact H].
  apply (ordered_core (update_thread (upd_waik_up_time (int64 (now + ticks))) cur s));
    [done..|].
  apply ordered_update_thread; [by intros []|by intros _ []|done].
Qed.

Lemma ordered_try_yeild s s' :
  ordered s -> thread_try_yeild s = Some s' -> ordered s'.
Proof.
  intros Ho H. apply thread_try_yeild_inv in H as [->|(_ & _ & H)]; [done|].
  by eapply ordered_yield.
Qed.

Lemma ordered_set_priority new_priority s s' :
  ordered s -> thread_set_priority new_priority s = Some s' -> ordered s'.
Proof.
  intros Ho H. destruct (thread_mlfqs s) eqn:Hm.
  { unfold thread_set_priority in H. rewrite Hm in H. by injection H as <-. }
  pose proof Ho as [Hwf Hd].
  pose proof (running_not_ready s Hwf) as Hnot.
  pose proof Hwf as (Hrun & _). unfold has_status in Hrun.
  destruct (threads s !! running s) as [c|] eqn:Hc; [|done].
  simpl in Hrun. injection Hrun as Hrun.
  rewrite (thread_set_priority_eq _ _ _ Hm Hc Hrun) in H.
  assert (Hins : ∀ f, status (f c) = status c ->
            ordered (set_threads (<[running s := f c]> (threads s)) s)).
  { intros f Hf. split.
    - apply (sched_wf_status s); try done;
        [|by destruct Hwf as (_ & _ & ? & _)|by destruct Hwf as (_ & _ & _ & ?)].
      intros x. cbn [threads set_threads].
      destruct (decide (running s = x)) as [<-|Hne].
      + rewrite lookup_insert_eq, Hc. simpl. by rewrite Hf.
      + by rewrite lookup_insert_ne.
    - apply (descending_ext s); [|done]. intros x Hx. unfold prio.
      cbn [threads set_threads]. rewrite lookup_insert_ne; [done|].
      intros E. by rewrite <- E in Hx. }
  case_bool_decide.
  - eapply ordered_yield; [|exact H].
    by apply (Hins (λ c, upd_priority new_priority
                           (upd_real_priority new_priority c))).
  - injection H as <-. by apply (Hins (upd_real_priority new_priority)).
Qed.

Lemma ordered_set_nice new_nice s s' :
  ordered s -> thread_set_nice new_nice s = Some s' -> ordered s'.
Proof.
  intros Ho H. unfold thread_set_nice in H.
  destruct (thread_current s) as [cur|] eqn:Hcur; [|done].
  apply thread_current_inv in Hcur as [-> _].
  cbn [mbind option_bind] in H.
  eapply ordered_try_yeild; [|exact H].
  pose proof (running_not_ready s (proj1 Ho)) as Hnot.
  unfold thread_update_priority_mlfqs.
  apply ordered_update_thread; [done|done|].
  by apply ordered_update_thread.
Qed.

Lemma ordered_donate_priority t s s' :
  ordered s -> thread_donate_priority t s = Some s' -> ordered s'.
Proof.
  intros Ho H. pose proof Ho as [Hwf Hd].
  split; [by eapply sched_wf_donate_priority|].
  destruct (threads s !! t) as [th|] eqn:Ht.
  2: { unfold thread_donate_priority in H. cbn [mbind option_bind] in H.
       rewrite thread_update_priority_None in H; done. }
  rewrite (thread_donate_priority_eq _ _ _ Ht) in H.
  destruct (thread_update_priority t s) as [s1|] eqn:E; [|done].
  cbn [mbind option_bind] in H. injection H as <-.
  pose proof (thread_update_priority_frame _ _ _ E) as (Hoth & _ & Hrl & _).
  assert (Hp : ∀ x, x ≠ t -> prio s1 x = prio s x).
  { intros x Hx. unfold prio. by rewrite Hoth. }
  case_bool_decide as Hrdy.
  - cbn [ready_list set_ready_list].
    apply (descending_ext s1); [done|]. apply descending_insert.
    apply (descending_ext s).
    + intros x Hx. apply Hp. unfold list_remove in Hx.
      by apply list_elem_of_filter in Hx as [? _].
    + unfold list_remove, descending. by apply StronglySorted_filter_keep.
  - rewrite Hrl. apply (descending_ext s); [|done].
    intros x Hx. apply Hp. intros ->.
    destruct Hwf as (_ & _ & Hall & _). rewrite Forall_forall in Hall.
    apply Hall in Hx. unfold has_status in Hx. rewrite Ht in Hx.
    simpl in Hx. congruence.
Qed.

Lemma ordered_priority_mlfqs_all s s' :
  ordered s -> thread_update_priority_mlfqs_all s = Some s' -> ordered s'.
Proof.
  intros [Hwf Hd] H. split; [by eapply sched_wf_priority_mlfqs_all|].
  unfold thread_update_priority_mlfqs_all in H.
  destruct (thread_foreach _ _) as [s1|]; [|done].
  cbn [mbind option_bind] in H. injection H as <-.
  cbn [ready_list set_ready_list].
  apply (descending_ext s1); [done|].
  apply (list_sort_descending (prio s1)).
Qed.

Lemma ordered_inc_recent_cpu t s :
  ordered s -> ordered (inc_recent_cpu t s).
Proof.
  intros. unfold inc_recent_cpu. case_bool_decide; [|done].
  by apply ordered_update_thread.
Qed.

(** X8.  The ready list stays in descending order of priority.  Starting
    from a consistent machine whose ready list is in that order, any sequence
    of thread_unblock, thread_yield, thread_block, thread_exit, thread_tick,
    thread_sleep, thread_set_priority, thread_try_yeild, thread_set_nice,
    thread_donate_priority, thread_update_priority_mlfqs_all and
    inc_recent_cpu that runs without a panic leaves the list in that order,
    so that its front is a ready thread of the highest priority. *)
Theorem X8_ready_list_stays_in_priority_order
    (os : list sched_op) (s s' : sched) :
  forallb keeps_order os = true ->
  sched_wf s -> descending s (ready_list s) ->
  run_sched_ops os s = Some s' ->
  descending s' (ready_list s')
  ∧ ∀ f x, head (ready_list s') = Some f -> x ∈ ready_list s' ->
           prio s' x <= prio s' f.
Proof.
  intros Hk Hwf Hd H.
  assert (Ho : ordered s') .
  { assert (Ho : ordered s) by done. clear Hwf Hd.
    revert s Ho H. induction os as [|o r IH]; intros s Ho H;
      cbn [run_sched_ops] in H.
    - by injection H as <-.
    - cbn [forallb] in Hk. apply andb_true_iff in Hk as [Hk1 Hk2].
      destruct (run_sched_op o s) as [s1|] eqn:E; [|done].
      cbn [mbind option_bind] in H. apply (IH Hk2 s1); [|done].
      destruct o; cbn [run_sched_op] in E; try done.
      + by eapply ordered_unblock.
      + by eapply ordered_yield.
      + by eapply ordered_block.
      + by eapply ordered_exit.
      + by eapply ordered_tick.
      + by eapply ordered_sleep.
      + by eapply ordered_set_priority.
      + by eapply ordered_try_yeild.
      + by eapply ordered_set_nice.
      + by eapply ordered_donate_priority.
      + by eapply ordered_priority_mlfqs_all.
      + injection E as <-. by apply ordered_inc_recent_cpu. }
  destruct Ho as [_ Hd']. split; [done|].
  intros f x Hf Hx. destruct (ready_list s') as [|f' r]; [done|].
  injection Hf as ->. by apply (descending_head_max (prio s') f r).
Qed.

(** ** thread_create *)

Lemma tid_alter_status st t (m : gmap Z thread) x :
  tid <$> alter (upd_status st) t m !! x = tid <$> m !! x.
Proof.
  destruct (decide (t = x)) as [->|Hne].
  - rewrite lookup_alter_eq. by destruct (m !! x).
  - by rewrite lookup_alter_ne.
Qed.

(** thread_create step by step: [s2] is the machine when the new thread [th]
    is set up and still blocked, [s3] the machine once it is unblocked. *)
Lemma thread_create_inv t pri s id s' :
  thread_create (Some t) pri s = Some (id, s') ->
  (PRI_MIN <= pri ∧ pri <= PRI_MAX) ∧ id = next_tid s
  ∧ ∃ s2 s3 th,
      threads s2 !! t = Some th
      ∧ (∀ x, x ≠ t -> threads s2 !! x = threads s !! x)
      ∧ tid th = id ∧ status th = THREAD_BLOCKED
      ∧ real_priority th = pri
      ∧ Owned_locks th = [] ∧ Waited_on_lock th = None
      ∧ (thread_mlfqs s = false ->
         priority th = pri ∧ nice th = 0 ∧ recent_cpu th = zeroed)
      ∧ (thread_mlfqs s = true ->
         t ≠ running s
         ∧ ∃ c, threads s !! running s = Some c
                ∧ nice th = nice c ∧ recent_cpu th = recent_cpu c
                ∧ priority th = mlfqs_priority th)
      ∧ all_list s2 ≡ₚ t :: all_list s
      ∧ s2 = set_next_tid (int32 (next_tid s + 1))
               (set_all_list (all_list s2) (set_threads (threads s2) s))
      ∧ thread_unblock t s2 = Some s3
      ∧ has_status THREAD_RUNNING s3 (running s)
      ∧ (if bool_decide (prio s3 (running s) < pri)
         then thread_yield s3 = Some s' else s' = s3).
Proof.
  intros H. unfold thread_create in H.
  destruct (init_thread t pri s) as [s1|] eqn:Hi;
    cbn [mbind option_bind] in H; [|done].
  unfold init_thread in Hi. rewrite option_guard_bool_decide in Hi.
  case_bool_decide as Hrange; [|done]. injection Hi as Hs1.
  split; [done|].
  unfold allocate_tid in H.
  set (th0 := {| tid := 0; status := THREAD_BLOCKED; priority := pri;
                 real_priority := pri; Owned_locks := [];
                 Waited_on_lock := None; nice := 0; recent_cpu := zeroed;
                 waik_up_time := 0 |}) in *.
  assert (H1 : threads s1 = <[t := th0]> (threads s)
               ∧ all_list s1 ≡ₚ t :: all_list s
               ∧ next_tid s1 = next_tid s
               ∧ s1 = set_all_list (all_list s1) (set_threads (threads s1) s)).
  { rewrite <- Hs1.
    cbn [threads all_list next_tid set_threads set_all_list intr_set_level].
    split; [done|]. split; [apply list_insert_ordered_perm|].
    split; [done|]. by apply sched_ext. }
  clear Hs1. destruct H1 as (Hth1 & Hal1 & Hnt1 & Heq1).
  rewrite Hnt1 in H.
  set (s2a := update_thread (upd_tid (next_tid s)) t
                (set_next_tid (int32 (next_tid s + 1)) s1)) in *.
  assert (Ha : threads s2a !! t = Some (upd_tid (next_tid s) th0)
               ∧ (∀ x, x ≠ t -> threads s2a !! x = threads s !! x)
               ∧ all_list s2a ≡ₚ t :: all_list s
               ∧ running s2a = running s
               ∧ s2a = set_next_tid (int32 (next_tid s + 1))
                         (set_all_list (all_list s2a)
                            (set_threads (threads s2a) s))).
  { unfold s2a. cbn [threads all_list running update_thread set_threads
                     set_next_tid].
    rewrite Hth1.
    split; [by rewrite lookup_alter_eq, lookup_insert_eq|].
    split; [intros x Hx; by rewrite lookup_alter_ne, lookup_insert_ne|].
    split; [done|].
    split; [by rewrite Heq1|].
    apply sched_ext;
      cbn [threads locks ready_list all_list sleeping_list idle_thread
           initial_thread running idle_ticks kernel_ticks thread_ticks
           thread_mlfqs load_avg next_tid intr_on intr_ctx yield_on_return
           update_thread set_threads set_next_tid set_all_list];
      rewrite ?Hth1; try done; by rewrite Heq1. }
  clearbody s2a. destruct Ha as (Ht & Hoth & Hal & Hr & Heq).
  assert (Hm2 : thread_mlfqs s2a = thread_mlfqs s) by (by rewrite Heq).
  assert (Hfin : ∀ s2 th r,
    threads s2 !! t = Some th ->
    (∀ x, x ≠ t -> threads s2 !! x = threads s !! x) ->
    all_list s2 ≡ₚ t :: all_list s ->
    s2 = set_next_tid (int32 (next_tid s + 1))
           (set_all_list (all_list s2) (set_threads (threads s2) s)) ->
    (s3 ← thread_unblock t s2;
     cur ← thread_current s3;
     if bool_decide (prio s3 cur < pri)
     then s4 ← thread_yield s3; Some (next_tid s, s4)
     else Some (next_tid s, s3)) = Some r ->
    next_tid s = r.1
    ∧ ∃ s3, thread_unblock t s2 = Some s3
            ∧ has_status THREAD_RUNNING s3 (running s)
            ∧ (if bool_decide (prio s3 (running s) < pri)
               then thread_yield s3 = Some r.2 else r.2 = s3)).
  { intros s2 th r H1 H2 H3 H4 H5.
    destruct (thread_unblock t s2) as [s3|] eqn:Hu;
      cbn [mbind option_bind] in H5; [|done].
    destruct (thread_current s3) as [cur|] eqn:Hc;
      cbn [mbind option_bind] in H5; [|done].
    apply thread_current_inv in Hc as [-> Hrun].
    assert (Hr3 : running s3 = running s).
    { apply thread_unblock_inv in Hu as [_ ->]. by rewrite H4. }
    rewrite Hr3 in *.
    assert (Hid : next_tid s = r.1).
    { destruct (bool_decide _); [|by injection H5 as <-].
      destruct (thread_yield s3); [|done]. by injection H5 as <-. }
    split; [done|]. exists s3. do 2 (split; [done|]).
    destruct (bool_decide (prio s3 (running s) < pri)).
    - destruct (thread_yield s3) as [s4|]; cbn [mbind option_bind] in H5;
        [|done].
      by injection H5 as <-.
    - by injection H5 as <-. }
  rewrite Hm2 in H. destruct (thread_mlfqs s) eqn:Hm.
  - destruct (thread_current s2a) as [cur|] eqn:Hc;
      cbn [mbind option_bind] in H; [|done].
    apply thread_current_inv in Hc as [-> Hrun]. rewrite Hr in *.
    assert (Hne : t ≠ running s).
    { intros ->. unfold has_status in Hrun. by rewrite Ht in Hrun. }
    destruct (threads s2a !! running s) as [c|] eqn:Hc;
      cbn [mbind option_bind] in H; [|done].
    rewrite thread_current_Some in H.
    2: { unfold has_status in *.
         change (running (update_thread _ t s2a)) with (running s2a).
         by rewrite Hr, lookup_update_thread_ne. }
    cbn [mbind option_bind] in H.
    change (running (update_thread _ t s2a)) with (running s2a) in H.
    rewrite Hr, lookup_update_thread_ne, Hc in H by done.
    cbn [mbind option_bind] in H.
    set (s2 := thread_update_priority_mlfqs t _) in H.
    set (th1 := upd_nice (nice c) (upd_recent_cpu (recent_cpu c)
                                     (upd_tid (next_tid s) th0))).
    assert (Ht2 : threads s2 !! t
                  = Some (upd_priority (mlfqs_priority th1) th1)).
    { unfold s2, thread_update_priority_mlfqs.
      rewrite !lookup_update_thread_eq, Ht. done. }
    assert (Hoth2 : ∀ x, x ≠ t -> threads s2 !! x = threads s !! x).
    { intros x Hx. unfold s2, thread_update_priority_mlfqs.
      rewrite !lookup_update_thread_ne by done. by apply Hoth. }
    assert (Heq2 : s2 = set_next_tid (int32 (next_tid s + 1))
                          (set_all_list (all_list s2)
                             (set_threads (threads s2) s))).
    { unfold s2, thread_update_priority_mlfqs.
      apply sched_ext;
        cbn [threads locks ready_list all_list sleeping_list idle_thread
             initial_thread running idle_ticks kernel_ticks thread_ticks
             thread_mlfqs load_avg next_tid intr_on intr_ctx yield_on_return
             update_thread set_threads set_next_tid set_all_list];
        try done; by rewrite Heq. }
    assert (Hal2 : all_list s2 ≡ₚ t :: all_list s) by done.
    clearbody s2.
    apply (Hfin s2 _ (id, s') Ht2 Hoth2 Hal2 Heq2) in H
      as (Hid & s3 & Hu & Hrun3 & Hy). cbn [fst snd] in *.
    split; [done|]. eexists s2, s3, _. split; [exact Ht2|].
    split; [done|]. do 5 (split; [done|]). split; [done|]. split.
    { intros _. split; [done|]. exists c.
      rewrite <- Hoth by done. split; [done|]. done. }
    done.
  - cbn [mbind option_bind] in H.
    apply (Hfin s2a _ (id, s') Ht Hoth Hal Heq) in H
      as (Hid & s3 & Hu & Hrun3 & Hy). cbn [fst snd] in *.
    split; [done|]. eexists s2a, s3, _. split; [exact Ht|].
    split; [done|]. do 5 (split; [done|]). split; [done|]. split; [done|].
    done.
Qed.

Lemma thread_create_total t pri s :
  threads s !! t = None ->
  has_status THREAD_RUNNING s (running s) ->
  all_valid s (ready_list s) ->
  intr_ctx s = false ->
  PRI_MIN <= pri ∧ pri <= PRI_MAX ->
  is_Some (thread_create (Some t) pri s).
Proof.
  intros Hfresh Hrun Hval Hctx Hrange.
  assert (Hne : t ≠ running s).
  { intros ->. unfold has_status in Hrun. by rewrite Hfresh in Hrun. }
  unfold thread_create.
  destruct (init_thread t pri s) as [s1|] eqn:Hi.
  2: { unfold init_thread in Hi. by rewrite option_guard_True in Hi. }
  cbn [mbind option_bind].
  unfold init_thread in Hi. rewrite option_guard_True in Hi by done.
  injection Hi as Hs1.
  set (th0 := {| tid := 0; status := THREAD_BLOCKED; priority := pri;
                 real_priority := pri; Owned_locks := [];
                 Waited_on_lock := None; nice := 0; recent_cpu := zeroed;
                 waik_up_time := 0 |}) in *.
  assert (H1 : threads s1 = <[t := th0]> (threads s)
               ∧ s1 = set_all_list (all_list s1) (set_threads (threads s1) s)).
  { rewrite <- Hs1.
    cbn [threads all_list next_tid set_threads set_all_list intr_set_level].
    split; [done|]. by apply sched_ext. }
  clear Hs1. destruct H1 as (Hth1 & Heq1).
  unfold allocate_tid.
  set (s2a := update_thread (upd_tid (next_tid s1)) t
                (set_next_tid (int32 (next_tid s1 + 1)) s1)).
  assert (Ha : (∃ th, threads s2a !! t = Some th ∧ status th = THREAD_BLOCKED)
               ∧ (∀ x, x ≠ t -> threads s2a !! x = threads s !! x)
               ∧ running s2a = running s ∧ ready_list s2a = ready_list s
               ∧ intr_ctx s2a = intr_ctx s ∧ thread_mlfqs s2a = thread_mlfqs s).
  { unfold s2a. cbn [threads running ready_list intr_ctx thread_mlfqs
                     update_thread set_threads set_next_tid].
    rewrite Hth1.
    split; [eexists; by rewrite lookup_alter_eq, lookup_insert_eq|].
    split; [intros x Hx; by rewrite lookup_alter_ne, lookup_insert_ne|].
    by rewrite Heq1. }
  clearbody s2a.
  assert (Hfin : ∀ s2 (k : sched -> Z),
    (∃ th, threads s2 !! t = Some th ∧ status th = THREAD_BLOCKED) ->
    (∀ x, x ≠ t -> threads s2 !! x = threads s !! x) ->
    running s2 = running s -> ready_list s2 = ready_list s ->
    intr_ctx s2 = intr_ctx s ->
    is_Some (s3 ← thread_unblock t s2;
             cur ← thread_current s3;
             if bool_decide (prio s3 cur < pri)
             then s4 ← thread_yield s3; Some (k s2, s4)
             else Some (k s2, s3))).
  { intros s2 k (th & Ht & Hst) Hoth Hr Hrl Hc.
    assert (Hb : has_status THREAD_BLOCKED s2 t).
    { unfold has_status. by rewrite Ht, <- Hst. }
    pose proof (thread_unblock_blocked _ _ Hb) as Hu.
    rewrite Hu. cbn [mbind option_bind].
    set (s3 := update_thread _ _ _) in *.
    assert (Hrun3 : has_status THREAD_RUNNING s3 (running s3)).
    { unfold has_status, s3.
      cbn [running update_thread set_threads set_ready_list].
      rewrite Hr. unfold has_status in Hrun.
      rewrite lookup_update_thread_ne by done.
      cbn [threads set_ready_list]. by rewrite Hoth. }
    rewrite (thread_current_Some _ Hrun3). cbn [mbind option_bind].
    destruct (bool_decide _); [|by eexists].
    destruct (thread_yield_total s3 Hrun3) as [s4 Hs4];
      [change (intr_ctx s2 = false); congruence| |].
    { unfold all_valid, s3.
      cbn [ready_list update_thread set_threads set_ready_list].
      apply Forall_forall. intros x Hx.
      apply is_Some_lookup_update_thread. cbn [threads set_ready_list].
      apply elem_of_list_insert_ordered in Hx as [->|Hx]; [by rewrite Ht|].
      destruct (decide (x = t)) as [->|Hxt]; [by rewrite Ht|].
      rewrite Hoth by done. rewrite Hrl in Hx.
      unfold all_valid in Hval. rewrite Forall_forall in Hval. by apply Hval. }
    rewrite Hs4. by eexists. }
  destruct Ha as (Ht & Hoth & Hr & Hrl & Hc & Hm). rewrite Hm.
  destruct (thread_mlfqs s).
  - assert (Hrun2 : ∀ f, has_status THREAD_RUNNING (update_thread f t s2a)
                            (running (update_thread f t s2a))).
    { intros f. unfold has_status in *.
      change (running (update_thread f t s2a)) with (running s2a).
      by rewrite Hr, lookup_update_thread_ne, Hoth. }
    assert (Hrun2a : has_status THREAD_RUNNING s2a (running s2a)).
    { unfold has_status in *. by rewrite Hr, Hoth. }
    rewrite (thread_current_Some _ Hrun2a). cbn [mbind option_bind].
    unfold has_status in Hrun.
    destruct (threads s !! running s) as [c|] eqn:Hcur; [|done].
    rewrite Hr, Hoth, Hcur by done. cbn [mbind option_bind].
    rewrite (thread_current_Some _ (Hrun2 _)). cbn [mbind option_bind].
    change (running (update_thread _ t s2a)) with (running s2a).
    rewrite Hr, lookup_update_thread_ne, Hoth, Hcur by done.
    cbn [mbind option_bind].
    apply (Hfin _ (λ _, next_tid s1)).
    + destruct Ht as (th & Ht & Hst). unfold thread_update_priority_mlfqs.
      rewrite !lookup_update_thread_eq, Ht. eexists. split; [done|]. done.
    + intros x Hx. unfold thread_update_priority_mlfqs.
      rewrite !lookup_update_thread_ne by done. by apply Hoth.
    + done.
    + done.
    + done.
  - cbn [mbind option_bind]. by apply (Hfin s2a (λ _, next_tid s1)).
Qed.

Lemma prio_thread_unblock t s s' :
  thread_unblock t s = Some s' -> ∀ x, prio s' x = prio s x.
Proof.
  intros H x. apply thread_unblock_inv in H as [_ ->].
  by rewrite prio_update_thread.
Qed.

(** X9.  thread_create on a fresh page, called outside interrupt context on
    a consistent machine with a priority between PRI_MIN and PRI_MAX,
    succeeds and returns the tid it took from next_tid.  The new thread
    carries that tid, has joined all_list, and is either running or waiting
    in the ready list; the machine is consistent again and the tid and the
    priority of every other thread are as before.  Outside MLFQS mode the new
    thread has the priority asked for; in MLFQS mode it inherits nice and
    recent_cpu from its creator and takes the priority computed from them.
    A call that gets no page returns TID_ERROR and changes nothing, and a
    call with a priority outside PRI_MIN..PRI_MAX panics. *)
Theorem X9_create_registers_the_thread (t : ptr) (pri : Z) (s : sched) :
  threads s !! t = None -> sched_wf s -> intr_ctx s = false ->
  PRI_MIN <= pri ∧ pri <= PRI_MAX ->
  (thread_create None pri s = Some (TID_ERROR, s))
  ∧ (∀ bad, ¬ (PRI_MIN <= bad ∧ bad <= PRI_MAX) ->
            thread_create (Some t) bad s = None)
  ∧ ∃ s' th,
    thread_create (Some t) pri s = Some (next_tid s, s')
    ∧ threads s' !! t = Some th
    ∧ tid th = next_tid s
    ∧ next_tid s' = int32 (next_tid s + 1)
    ∧ all_list s' ≡ₚ t :: all_list s
    ∧ (running s' = t ∨ t ∈ ready_list s')
    ∧ sched_wf s'
    ∧ (∀ x, x ≠ t -> tid <$> threads s' !! x = tid <$> threads s !! x)
    ∧ (∀ x, x ≠ t -> prio s' x = prio s x)
    ∧ (thread_mlfqs s = false -> priority th = pri)
    ∧ (thread_mlfqs s = true ->
       ∃ c, threads s !! running s = Some c
            ∧ nice th = nice c ∧ recent_cpu th = recent_cpu c
            ∧ priority th = mlfqs_priority th).
Proof.
  intros Hfresh Hwf Hctx Hrange.
  split; [done|]. split.
  { intros bad Hbad. unfold thread_create, init_thread.
    by rewrite option_guard_False. }
  pose proof Hwf as (Hrun & Huniq & Hrdy & Hnd).
  assert (Hval : all_valid s (ready_list s)).
  { unfold all_valid. eapply Forall_impl; [exact Hrdy|]. simpl.
    unfold has_status. intros x Hx. by destruct (threads s !! x). }
  destruct (thread_create_total t pri s Hfresh Hrun Hval Hctx Hrange)
    as [[id s'] H].
  pose proof (thread_create_inv _ _ _ _ _ H)
    as (_ & -> & s2 & s3 & th & Ht & Hoth & Htid & Hst & Hrp & _ & _ & Hnm
        & Hmq & Hal & Heq & Hu & Hrun3 & Hy).
  assert (Hne : t ≠ running s).
  { intros ->. unfold has_status in Hrun. by rewrite Hfresh in Hrun. }
  assert (Hwf2 : sched_wf s2).
  { unfold sched_wf, has_status in *.
    assert (Hr2 : running s2 = running s) by (by rewrite Heq).
    assert (Hrl2 : ready_list s2 = ready_list s) by (by rewrite Heq).
    rewrite Hr2, Hrl2. split; [|split; [|split]].
    - by rewrite Hoth.
    - intros x th' Hx Hs. destruct (decide (x = t)) as [->|Hxt].
      + rewrite Ht in Hx. injection Hx as <-. congruence.
      + rewrite Hoth in Hx by done. by eapply Huniq.
    - apply Forall_forall. intros x Hx. rewrite Forall_forall in Hrdy.
      pose proof (Hrdy x Hx) as Hx'.
      destruct (decide (x = t)) as [->|Hxt]; [by rewrite Hfresh in Hx'|].
      by rewrite Hoth.
    - done. }
  pose proof (sched_wf_unblock _ _ _ Hwf2 Hu) as Hwf3.
  pose proof (thread_unblock_inv _ _ _ Hu) as [_ E3].
  assert (F3 : threads s3 = alter (upd_status THREAD_READY) t (threads s2)
               ∧ all_list s3 = all_list s2 ∧ next_tid s3 = next_tid s2
               ∧ t ∈ ready_list s3 ∧ running s3 = running s).
  { rewrite E3. cbn [threads all_list next_tid ready_list running
                     update_thread set_threads set_ready_list].
    do 3 (split; [done|]). split.
    - apply elem_of_list_insert_ordered. by left.
    - by rewrite Heq. }
  destruct F3 as (Hth3 & Hal3 & Hnt3 & Hin3 & Hr3).
  assert (Hnt2 : next_tid s2 = int32 (next_tid s + 1)) by (by rewrite Heq).
  assert (Hgen : ∃ th', threads s' !! t = Some th'
             ∧ (∃ st, th' = upd_status st th)
             ∧ next_tid s' = int32 (next_tid s + 1)
             ∧ all_list s' = all_list s2
             ∧ (running s' = t ∨ t ∈ ready_list s')
             ∧ sched_wf s'
             ∧ (∀ x th0, x ≠ t -> threads s !! x = Some th0 ->
                  ∃ st, threads s' !! x = Some (upd_status st th0))
             ∧ (∀ x, x ≠ t -> threads s !! x = None -> threads s' !! x = None)).
  { destruct (bool_decide (prio s3 (running s) < pri)).
    - pose proof (sched_wf_yield _ _ Hwf3 Hy) as Hwf'.
      pose proof (thread_yield_status_only _ _ Hy) as [Hglob Hso].
      apply thread_yield_inv in Hy
        as (_ & _ & next & Hnx & _ & Hr' & Hrl' & Hth' & _).
      destruct Hglob as (_ & Hal' & _ & _ & _ & _ & _ & _ & Hnt').
      destruct (Hso t (upd_status THREAD_READY th)) as [st Hst'].
      { by rewrite Hth3, lookup_alter_eq, Ht. }
      exists (upd_status st (upd_status THREAD_READY th)).
      split; [done|]. split; [exists st; by destruct th|].
      split; [congruence|]. split; [congruence|]. split.
      { assert (Hq : t ∈ queue_at_yield s3).
        { unfold queue_at_yield. destruct (bool_decide _); [|done].
          apply elem_of_list_insert_ordered. by right. }
        rewrite Hr', Hrl'. destruct (queue_at_yield s3) as [|f r].
        - by apply elem_of_nil in Hq.
        - simpl in Hnx. injection Hnx as ->.
          apply elem_of_cons in Hq as [->|Hq]; [by left|by right]. }
      split; [done|]. split.
      + intros x th0 Hx Hl.
        destruct (Hso x th0) as [st' Hst'']; [|by exists st'].
        by rewrite Hth3, lookup_alter_ne, Hoth.
      + intros x Hx Hl. rewrite Hth', Hth3.
        rewrite !lookup_alter_None.
        by rewrite Hoth.
    - subst s'. exists (upd_status THREAD_READY th).
      split; [by rewrite Hth3, lookup_alter_eq, Ht|].
      split; [by exists THREAD_READY|].
      split; [congruence|]. split; [done|]. split; [by right|].
      split; [done|]. split.
      + intros x th0 Hx Hl. exists (status th0).
        rewrite Hth3, lookup_alter_ne, Hoth, Hl by done. by destruct th0.
      + intros x Hx Hl. by rewrite Hth3, lookup_alter_ne, Hoth. }
  destruct Hgen as (th' & Ht' & [st ->] & Hnt' & Hal' & Hwhere & Hwf' & Hso
                    & Hnone).
  exists s', (upd_status st th). split; [done|]. split; [done|].
  split; [by destruct th|]. split; [done|].
  split; [by rewrite Hal'|]. split; [done|]. split; [done|].
  assert (Hlk : ∀ (B : Type) (f : thread -> B),
            (∀ st x, f (upd_status st x) = f x) ->
            ∀ x, x ≠ t -> f <$> threads s' !! x = f <$> threads s !! x).
  { intros B f Hf x Hx. destruct (threads s !! x) as [th0|] eqn:Hl.
    - destruct (Hso x th0 Hx Hl) as [st' ->]. simpl. by rewrite Hf.
    - by rewrite (Hnone x Hx Hl). }
  split; [apply Hlk; by intros ? []|]. split.
  { intros x Hx. unfold prio.
    pose proof (Hlk Z priority (λ st x, ltac:(by destruct x)) x Hx) as E.
    destruct (threads s' !! x), (threads s !! x); simpl in *; congruence. }
  split.
  - intros Hm. destruct (Hnm Hm) as (Hp & _). by destruct th.
  - intros Hm. destruct (Hmq Hm) as (_ & c & Hc & Hn & Hrc & Hp).
    exists c. split; [done|]. by destruct th.
Qed.

(** X10.  Tids are never handed out twice.  While next_tid is positive and
    has not reached the largest int, a successful thread_create returns a tid
    that no existing thread carries and gives it to the new thread, the next
    tid is one more, and every thread still has a tid below the next one to
    be handed out. *)
Theorem X10_create_hands_out_fresh_tids
    (t : ptr) (pri id : Z) (s s' : sched) :
  tids_below s -> 0 < next_tid s -> next_tid s < 2 ^ 31 - 1 ->
  thread_create (Some t) pri s = Some (id, s') ->
  (∀ x th, threads s !! x = Some th -> tid th ≠ id)
  ∧ tid <$> threads s' !! t = Some id
  ∧ next_tid s' = id + 1
  ∧ tids_below s'.
Proof.
  intros Hb Hpos Hmax H.
  pose proof (thread_create_inv _ _ _ _ _ H)
    as (_ & -> & s2 & s3 & th & Ht & Hoth & Htid & Hst & _ & _ & _ & _
        & _ & _ & Heq & Hu & _ & Hy).
  pose proof (thread_unblock_inv _ _ _ Hu) as [_ E3].
  assert (Hnt2 : next_tid s2 = next_tid s + 1).
  { rewrite Heq. cbn [next_tid set_next_tid]. apply int32_id.
    unfold in_int32. lia. }
  assert (Hth3 : threads s3 = alter (upd_status THREAD_READY) t (threads s2))
    by (by rewrite E3).
  assert (Hnt3 : next_tid s3 = next_tid s2) by (by rewrite E3).
  assert (Hfin : (∀ x, tid <$> threads s' !! x = tid <$> threads s2 !! x)
                 ∧ next_tid s' = next_tid s2).
  { destruct (bool_decide _).
    - pose proof (thread_yield_status_only _ _ Hy) as [Hglob _].
      destruct Hglob as (_ & _ & _ & _ & _ & _ & _ & _ & Hnt').
      apply thread_yield_inv in Hy as (_ & _ & next & _ & _ & _ & _ & Hth' & _).
      split; [|congruence]. intros x.
      by rewrite Hth', Hth3, !tid_alter_status.
    - subst s'. split; [|done]. intros x. by rewrite Hth3, tid_alter_status. }
  destruct Hfin as [Htids Hnt'].
  split.
  { intros x th0 Hx. apply Hb in Hx. lia. }
  split; [by rewrite Htids, Ht; simpl; rewrite Htid|].
  split; [congruence|].
  intros x th0 Hx. rewrite Hnt', Hnt2.
  pose proof (Htids x) as E. rewrite Hx in E. simpl in E.
  destruct (decide (x = t)) as [->|Hxt].
  - rewrite Ht in E. simpl in E. injection E as E. lia.
  - rewrite Hoth in E by done.
    destruct (threads s !! x) as [th1|] eqn:Hx1; [|done].
    simpl in E. injection E as E. apply Hb in Hx1. lia.
Qed.

(** ** MLFQS priorities of all threads *)

Lemma mlfqs_priority_range th :
  PRI_MIN <= PRI_MAX -> PRI_MIN <= mlfqs_priority th ∧ mlfqs_priority th <= PRI_MAX.
Proof.
  intros H. unfold mlfqs_priority. cbn zeta.
  destruct (bool_decide (_ < PRI_MIN)) eqn:E1; [lia|].
  destruct (bool_decide (_ > PRI_MAX)) eqn:E2; [lia|].
  apply bool_decide_eq_false in E1, E2. lia.
Qed.

Lemma mlfqs_priority_upd_priority p th :
  mlfqs_priority (upd_priority p th) = mlfqs_priority th.
Proof. by destruct th. Qed.

Lemma foreach_priority_mlfqs l : ∀ s0,
  let s1 := foldl (λ acc t, thread_update_priority_mlfqs t acc) s0 l in
  (∀ x, threads s1 !! x
        = if decide (x ∈ l)
          then (λ th, upd_priority (mlfqs_priority th) th) <$> threads s0 !! x
          else threads s0 !! x)
  ∧ s1 = set_threads (threads s1) s0.
Proof.
  induction l as [|t r IH]; intros s0; cbn [foldl].
  - split; [|by apply sched_ext]. intros x.
    rewrite decide_False; [done|]. apply not_elem_of_nil.
  - destruct (IH (thread_update_priority_mlfqs t s0)) as [Hl Heq].
    cbn zeta in *.
    set (s1 := foldl _ _ r) in *. split.
    + intros x. rewrite Hl. unfold thread_update_priority_mlfqs.
      rewrite lookup_update_thread.
      destruct (decide (t = x)) as [->|Hne].
      * rewrite (decide_True (P := x ∈ x :: r)) by (by left).
        destruct (decide (x ∈ r)); [|done].
        destruct (threads s0 !! x) as [th|]; [|done]. simpl.
        by rewrite mlfqs_priority_upd_priority; destruct th.
      * destruct (decide (x ∈ r)) as [Hin|Hin].
        -- rewrite decide_True; [done|by right].
        -- rewrite decide_False; [done|].
           intros [?|?]%elem_of_cons; congruence.
    + rewrite Heq at 1. by apply sched_ext.
Qed.

(** X11.  thread_update_priority_mlfqs_all needs interrupts off and panics
    otherwise.  It gives every thread of all_list the priority computed from
    its recent_cpu and nice, which lies between PRI_MIN and PRI_MAX whatever
    the arithmetic did, touches no other thread and no other field, and
    leaves the ready list with the same threads in descending order of the
    new priorities. *)
Theorem X11_mlfqs_all_recomputes_and_sorts (s : sched) :
  PRI_MIN <= PRI_MAX ->
  (is_Some (thread_update_priority_mlfqs_all s) <-> intr_on s = false)
  ∧ ∀ s', thread_update_priority_mlfqs_all s = Some s' ->
      (∀ x th, x ∈ all_list s -> threads s !! x = Some th ->
         threads s' !! x = Some (upd_priority (mlfqs_priority th) th)
         ∧ PRI_MIN <= prio s' x ∧ prio s' x <= PRI_MAX)
      ∧ (∀ x, x ∉ all_list s -> threads s' !! x = threads s !! x)
      ∧ ready_list s' ≡ₚ ready_list s
      ∧ descending s' (ready_list s')
      ∧ running s' = running s ∧ all_list s' = all_list s.
Proof.
  intros Hle. unfold thread_update_priority_mlfqs_all, thread_foreach.
  pose proof (foreach_priority_mlfqs (all_list s) s) as [Hl Heq].
  cbn zeta in *. set (s1 := foldl _ _ _) in *.
  split.
  - rewrite option_guard_bool_decide. split.
    + intros [s' H]. by case_bool_decide.
    + intros H. rewrite bool_decide_true by done. by eexists.
  - intros s' H. rewrite option_guard_bool_decide in H.
    destruct (bool_decide (intr_on s = false)); [|done].
    cbn [mbind option_bind] in H. injection H as <-.
    cbn [threads ready_list running all_list set_ready_list].
    split; [|split; [|split; [|split]]].
    + intros x th Hx Hth. rewrite Hl, decide_True, Hth by done.
      split; [done|]. unfold prio. cbn [threads set_ready_list].
      rewrite Hl, decide_True, Hth by done. simpl.
      by apply mlfqs_priority_range.
    + intros x Hx. by rewrite Hl, decide_False.
    + rewrite list_sort_perm. by rewrite Heq.
    + apply (list_sort_descending (prio s1)).
    + by rewrite Heq.
Qed.

(** ** thread_set_priority and thread_get_priority *)

Lemma thread_yield_running s s' :
  thread_yield s = Some s' -> has_status THREAD_RUNNING s' (running s').
Proof.
  intros H. apply thread_yield_inv in H
    as (_ & _ & next & _ & [n Hn] & Hr & _ & Hth & _).
  unfold has_status. rewrite Hr, Hth, lookup_alter_eq.
  destruct (decide (running s = next)) as [->|Hne].
  - by rewrite lookup_alter_eq, Hn.
  - by rewrite lookup_alter_ne, Hn.
Qed.

(** X12.  Outside MLFQS mode thread_set_priority stores the new base
    priority, and for a thread that owns no lock, or that raises its
    priority, the new effective priority as well; a thread that owns a lock
    and does not raise its priority keeps its effective priority.  When the
    caller is still running afterwards, thread_get_priority returns the
    effective priority just described.  In MLFQS mode the call changes
    nothing. *)
Theorem X12_set_priority_then_get (new_priority : Z) (s : sched) (c : thread) :
  threads s !! running s = Some c -> status c = THREAD_RUNNING ->
  intr_ctx s = false -> all_valid s (ready_list s) ->
  (thread_mlfqs s = true -> thread_set_priority new_priority s = Some s)
  ∧ (thread_mlfqs s = false ->
     ∃ s' th,
       thread_set_priority new_priority s = Some s'
       ∧ threads s' !! running s = Some th
       ∧ real_priority th = new_priority
       ∧ priority th
         = (if bool_decide (Owned_locks c = [] ∨ new_priority > priority c)
            then new_priority else priority c)
       ∧ Owned_locks th = Owned_locks c
       ∧ (∀ x, x ≠ running s -> prio s' x = prio s x)
       ∧ (running s' = running s ->
          thread_get_priority s' = Some (priority th))).
Proof.
  intros Hc Hrun Hctx Hval. split.
  { intros Hm. unfold thread_set_priority. by rewrite Hm. }
  intros Hm. rewrite (thread_set_priority_eq _ _ _ Hm Hc Hrun).
  assert (Hget : ∀ s' th, has_status THREAD_RUNNING s' (running s') ->
            threads s' !! running s = Some th -> running s' = running s ->
            thread_get_priority s' = Some (priority th)).
  { intros s' th Hr Hth E. unfold thread_get_priority.
    rewrite thread_current_Some by done. cbn [mbind option_bind].
    unfold prio. by rewrite E, Hth. }
  destruct (bool_decide (Owned_locks c = [] ∨ new_priority > priority c)).
  - set (s1 := set_threads _ s).
    assert (H1 : threads s1 !! running s
                 = Some (upd_priority new_priority
                           (upd_real_priority new_priority c))).
    { unfold s1. cbn [threads set_threads]. by rewrite lookup_insert_eq. }
    assert (Hoth : ∀ x, x ≠ running s -> threads s1 !! x = threads s !! x).
    { intros x Hx. unfold s1. cbn [threads set_threads].
      by rewrite lookup_insert_ne. }
    destruct (thread_yield_total s1) as [s' Hs'].
    { unfold has_status. change (running s1) with (running s).
      rewrite H1. simpl. by rewrite Hrun. }
    { done. }
    { unfold all_valid in *. change (ready_list s1) with (ready_list s).
      eapply Forall_impl; [exact Hval|]. cbv beta. intros x Hx.
      destruct (decide (x = running s)) as [->|Hne]; [by rewrite H1|].
      by rewrite Hoth. }
    pose proof (thread_yield_running _ _ Hs') as Hr'.
    pose proof (prio_thread_yield _ _ Hs') as Hp.
    pose proof (thread_yield_status_only _ _ Hs') as [_ Hso].
    destruct (Hso _ _ H1) as [st Hst].
    exists s', (upd_status st (upd_priority new_priority
                                 (upd_real_priority new_priority c))).
    split; [done|]. split; [done|]. do 3 (split; [by destruct c|]). split.
    + intros x Hx. rewrite Hp. unfold prio. by rewrite Hoth.
    + intros E. by apply Hget.
  - set (s1 := set_threads _ s).
    assert (H1 : threads s1 !! running s = Some (upd_real_priority new_priority c)).
    { unfold s1. cbn [threads set_threads]. by rewrite lookup_insert_eq. }
    exists s1, (upd_real_priority new_priority c).
    split; [done|]. split; [done|]. do 3 (split; [by destruct c|]). split.
    + intros x Hx. unfold prio, s1. cbn [threads set_threads].
      by rewrite lookup_insert_ne.
    + intros _. apply Hget; [|done..]. unfold has_status.
      change (running s1) with (running s). rewrite H1. simpl.
      by rewrite Hrun.
Qed.

(** ** thread_init *)

(** X13.  thread_init, entered with interrupts off on a machine without
    threads whose tid counter stands at 1, turns the running code into the
    thread "main": the only thread, running, with tid 1, priority
    PRI_DEFAULT, nice 0 and no lock, alone in all_list, recorded as the
    initial thread, with empty ready and sleeping lists.  The machine is
    consistent, its ready list is in order and its tids are below the next
    one; thread_tid, thread_get_priority and thread_get_nice then answer 1,
    PRI_DEFAULT and 0.  With interrupts on thread_init panics. *)
Theorem X13_init_sets_up_main (s : sched) :
  threads s = ∅ -> next_tid s = 1 ->
  PRI_MIN <= PRI_DEFAULT ∧ PRI_DEFAULT <= PRI_MAX ->
  (intr_on s = true -> thread_init s = None)
  ∧ (intr_on s = false ->
     ∃ s' th,
       thread_init s = Some s'
       ∧ threads s' = {[ running s := th ]}
       ∧ status th = THREAD_RUNNING ∧ tid th = 1
       ∧ priority th = PRI_DEFAULT ∧ real_priority th = PRI_DEFAULT
       ∧ nice th = 0 ∧ Owned_locks th = []
       ∧ running s' = running s
       ∧ all_list s' = [running s]
       ∧ ready_list s' = [] ∧ sleeping_list s' = []
       ∧ initial_thread s' = Some (running s)
       ∧ next_tid s' = 2
       ∧ (thread_mlfqs s = true ->
          load_avg s' = int_to_real 0 ∧ recent_cpu th = int_to_real 0)
       ∧ sched_wf s' ∧ descending s' (ready_list s') ∧ tids_below s'
       ∧ thread_tid s' = Some 1
       ∧ thread_get_priority s' = Some PRI_DEFAULT
       ∧ thread_get_nice s' = Some 0).
Proof.
  intros Hempty Hnt Hrange. split.
  { intros Hon. unfold thread_init. rewrite option_guard_False; [done|].
    by rewrite Hon. }
  intros Hoff. unfold thread_init. rewrite option_guard_True by done.
  cbn [mbind option_bind]. cbn zeta. unfold init_thread.
  rewrite option_guard_True by done. cbn [mbind option_bind]. cbn zeta.
  unfold allocate_tid.
  set (th0 := {| tid := 0; status := THREAD_BLOCKED; priority := PRI_DEFAULT;
                 real_priority := PRI_DEFAULT; Owned_locks := [];
                 Waited_on_lock := None; nice := 0; recent_cpu := zeroed;
                 waik_up_time := 0 |}).
  set (th1 := upd_tid 1 (upd_status THREAD_RUNNING th0)).
  set (th := if thread_mlfqs s
             then upd_recent_cpu (int_to_real 0) (upd_nice 0 th1) else th1).
  match goal with |- ∃ s' _, Some ?r = Some s' ∧ _ => set (R := r) end.
  assert (HR : threads R = {[ running s := th ]}
               ∧ running R = running s ∧ all_list R = [running s]
               ∧ ready_list R = [] ∧ sleeping_list R = []
               ∧ initial_thread R = Some (running s) ∧ next_tid R = 2
               ∧ (thread_mlfqs s = true -> load_avg R = int_to_real 0)).
  { unfold R, th.
    cbn [threads all_list running next_tid intr_on thread_mlfqs update_thread
         set_threads set_next_tid set_all_list set_ready_list
         set_sleeping_list intr_set_level list_insert_ordered].
    rewrite Hempty, Hnt.
    destruct (thread_mlfqs s);
      cbn [threads all_list running next_tid ready_list sleeping_list
           initial_thread load_avg update_thread set_threads set_next_tid
           set_all_list set_ready_list set_sleeping_list set_load_avg
           intr_set_level];
      (split; [|done]);
      rewrite !alter_alter_eq, alter_insert_eq; by rewrite insert_empty. }
  destruct HR as (Hth & Hr & Hal & Hrl & Hsl & Hini & Hnt' & Hla).
  assert (Hfields : status th = THREAD_RUNNING ∧ tid th = 1
                    ∧ priority th = PRI_DEFAULT ∧ real_priority th = PRI_DEFAULT
                    ∧ nice th = 0 ∧ Owned_locks th = []
                    ∧ (thread_mlfqs s = true -> recent_cpu th = int_to_real 0)).
  { unfold th. by destruct (thread_mlfqs s). }
  destruct Hfields as (F1 & F2 & F3 & F4 & F5 & F6 & F7).
  assert (Hlk : threads R !! running R = Some th).
  { by rewrite Hth, Hr, lookup_singleton_eq. }
  assert (Hrun : has_status THREAD_RUNNING R (running R)).
  { unfold has_status. by rewrite Hlk, <- F1. }
  clearbody R th.
  exists R, th. split; [done|]. do 13 (split; [done|]).
  split; [intros Hm; split; [by apply Hla|by apply F7]|].
  split.
  { unfold sched_wf. rewrite Hrl. split; [done|]. split; [|split].
    - intros x th' Hx _. rewrite Hth in Hx.
      apply lookup_singleton_Some in Hx as [<- _]. done.
    - constructor.
    - constructor. }
  split; [rewrite Hrl; constructor|]. split.
  { intros x th' Hx. rewrite Hth in Hx.
    apply lookup_singleton_Some in Hx as [_ <-]. lia. }
  unfold thread_tid, thread_get_priority, thread_get_nice, prio.
  rewrite (thread_current_Some _ Hrun). cbn [mbind option_bind].
  rewrite Hlk. cbn [mbind option_bind from_option]. by rewrite F2, F3, F5.
Qed.

(** ** Who gets the processor *)

Lemma leave_not_outranked s st X s' :
  ordered s ->
  threads X = alter (upd_status st) (running s) (threads s) ->
  running X = running s -> ready_list X = ready_list s ->
  idle_thread X = idle_thread s -> initial_thread X = initial_thread s ->
  schedule X = Some s' ->
  sorted_and_not_outranked s'.
Proof.
  intros Ho H1 H2 H3 H4 H5 H.
  split; [eapply (ordered_leave s st); [exact Ho| | | | | |exact H]; done|].
  destruct Ho as [Hwf Hd].
  pose proof (running_not_ready s Hwf) as Hnot.
  destruct Hwf as (_ & _ & _ & Hnd).
  pose proof H as H0.
  eapply (schedule_leave_inv s st) in H
    as (Hnx & _ & _ & Hrl & _ & _ & _ & _ & Hoth); [|done..].
  apply schedule_Some_inv in H0 as (c & next & _ & _ & _ & _ & _ & E).
  assert (Hnext : running s' = next) by (by rewrite E, running_dispatched).
  assert (Hlk : threads s' !! next = upd_status THREAD_RUNNING <$> threads X !! next)
    by (by rewrite E, lookup_dispatched_next).
  rewrite Hrl. rewrite Hnext in *.
  apply next_from_head in Hnx as [E0|[r E0]]; rewrite E0 in *; [constructor|].
  simpl. apply NoDup_cons in Hnd as [Hnr Hnd].
  assert (Hne : running s ≠ next).
  { intros Heq. apply Hnot. rewrite Heq. by left. }
  assert (Hpn : prio s' next = prio s next).
  { unfold prio. rewrite Hlk, H1, lookup_alter_ne by done.
    by destruct (threads s !! next). }
  apply Forall_forall. intros x Hx. rewrite Hpn.
  assert (Hpx : prio s' x = prio s x).
  { unfold prio. rewrite Hoth; [done| |].
    - intros ->. apply Hnot. by right.
    - by intros ->. }
  rewrite Hpx. apply (descending_head_max (prio s) next r); [done|by right].
Qed.

Lemma yield_not_outranked s s' :
  descending s (ready_list s) -> thread_yield s = Some s' ->
  sorted_and_not_outranked s'.
Proof.
  intros Hd H.
  pose proof (prio_thread_yield _ _ H) as Hp.
  pose proof (queue_at_yield_descending s Hd) as Hq.
  apply thread_yield_inv in H as (_ & _ & next & Hnx & _ & Hr & Hrl & _).
  assert (Hs : descending s (ready_list s')
               ∧ Forall (λ x, prio s x <= prio s next) (ready_list s')).
  { rewrite Hrl. unfold descending in *.
    destruct (queue_at_yield s) as [|f r]; [split; constructor|].
    injection Hnx as ->. apply StronglySorted_inv in Hq as [Hs Hall].
    split; [done|]. eapply Forall_impl; [exact Hall|]. cbv beta. intros; lia. }
  destruct Hs as [Hs1 Hs2]. split.
  - by apply (descending_ext s).
  - rewrite Hr. eapply Forall_impl; [exact Hs2|]. cbv beta. intros x.
    by rewrite !Hp.
Qed.

Lemma block_not_outranked s s' :
  ordered s -> thread_block s = Some s' -> sorted_and_not_outranked s'.
Proof.
  intros Ho H. apply thread_block_inv in H as (_ & _ & _ & H).
  eapply (leave_not_outranked s THREAD_BLOCKED); [exact Ho| | | | | |exact H];
    done.
Qed.

(** X14.  Whoever gets the processor is a ready thread of the highest
    priority.  On a consistent machine whose ready list is in priority
    order, after a successful thread_yield, thread_block, thread_exit or
    thread_sleep, and after thread_try_yeild outside interrupt context, no
    thread of the ready list has a priority above that of the running
    thread, and the list is still in order.  thread_try_yeild changes
    nothing when the front of the ready list does not outrank the running
    thread. *)
Theorem X14_the_processor_goes_to_a_highest_thread
    (o : sched_op) (s s' : sched) :
  sched_wf s -> descending s (ready_list s) -> intr_ctx s = false ->
  gives_up o = true ->
  run_sched_op o s = Some s' ->
  sorted_and_not_outranked s'
  ∧ (o = STryYield -> front_outranks s = false -> s' = s).
Proof.
  intros Hwf Hd Hctx Hg H.
  assert (Ho : ordered s) by done.
  destruct o; try done; cbn [run_sched_op] in H.
  - split; [by eapply yield_not_outranked|done].
  - split; [by eapply block_not_outranked|done].
  - split; [|done]. apply thread_exit_inv in H as (_ & _ & _ & H).
    eapply (leave_not_outranked s THREAD_DYING); [exact Ho| | | | | |exact H];
      done.
  - split; [|done]. unfold thread_sleep in H.
    destruct (thread_current s) as [cur|]; [|done].
    cbn [mbind option_bind] in H.
    destruct (thread_current _) as [cur'|]; [|done].
    cbn [mbind option_bind] in H.
    eapply block_not_outranked; [|exact H].
    apply (ordered_core
             (update_thread (upd_waik_up_time (int64 (current_time + ticks))) cur s));
      [done..|].
    apply ordered_update_thread; [by intros []|by intros _ []|done].
  - pose proof Hwf as (Hrun & _).
    rewrite (thread_try_yeild_cases _ Hrun), Hctx in H.
    destruct (front_outranks s) eqn:Hf.
    + split; [by eapply yield_not_outranked|done].
    + injection H as <-. split; [|done]. split; [done|].
      unfold front_outranks in Hf. destruct (ready_list s) as [|f r] eqn:E;
        [constructor|].
      apply bool_decide_eq_false in Hf.
      apply Forall_forall. intros x Hx.
      pose proof (descending_head_max (prio s) f r x Hd Hx). lia.
Qed.

(** ** thread_donate_priority *)




(** ** all_list and the pages of threads *)

Lemma pages_kept_refl s : pages_kept s s.
Proof. by split. Qed.

Lemma pages_kept_trans s1 s2 s3 :
  pages_kept s1 s2 -> pages_kept s2 s3 -> pages_kept s1 s3.
Proof.
  intros [A1 B1] [A2 B2]. split; [congruence|]. intros x Hx. by apply B2, B1.
Qed.

Lemma pages_kept_core s s' :
  threads s' = threads s -> all_list s' = all_list s -> pages_kept s s'.
Proof. intros H1 H2. split; [done|]. intros x. by rewrite H1. Qed.

Lemma pages_kept_update_thread f t s : pages_kept s (update_thread f t s).
Proof. split; [done|]. intros x Hx. by apply is_Some_lookup_update_thread. Qed.

Lemma pages_kept_status_only s s' :
  all_list s' = all_list s ->
  (∀ x th, threads s !! x = Some th ->
     ∃ st, threads s' !! x = Some (upd_status st th)) ->
  pages_kept s s'.
Proof.
  intros H1 H2. split; [done|]. intros x [th Hx].
  destruct (H2 x th Hx) as [st ->]. by eexists.
Qed.

Lemma pages_kept_unblock t s s' :
  thread_unblock t s = Some s' -> pages_kept s s'.
Proof.
  intros H. apply thread_unblock_inv in H as [_ ->].
  eapply pages_kept_trans; [|apply pages_kept_update_thread].
  by apply pages_kept_core.
Qed.

Lemma pages_kept_yield s s' :
  thread_yield s = Some s' -> pages_kept s s'.
Proof.
  intros H. apply thread_yield_status_only in H as [Hg Hso].
  apply pages_kept_status_only; [|done]. by destruct Hg as (_ & ? & _).
Qed.

Lemma pages_kept_try_yeild s s' :
  thread_try_yeild s = Some s' -> pages_kept s s'.
Proof.
  intros H. apply thread_try_yeild_status_only in H as [Hg Hso].
  apply pages_kept_status_only; [|done]. by destruct Hg as (_ & ? & _).
Qed.

Lemma lookup_dispatched_is_Some X c next x :
  (x = running X -> x ≠ next -> status c ≠ THREAD_DYING) ->
  is_Some (threads X !! x) -> is_Some (threads (dispatched X c next) !! x).
Proof.
  intros Hd Hx. destruct (decide (x = next)) as [->|Hne].
  - rewrite lookup_dispatched_next. by apply fmap_is_Some.
  - rewrite lookup_dispatched_other; [done..|].
    intros Hdy ->. by apply Hd.
Qed.

Lemma pages_kept_block s s' :
  thread_block s = Some s' -> pages_kept s s'.
Proof.
  intros H. apply thread_block_inv in H as (_ & _ & Hrun & H).
  apply schedule_Some_inv in H as (c & next & _ & Hc & _ & _ & _ & ->).
  split; [by rewrite all_list_dispatched|].
  intros x Hx. apply lookup_dispatched_is_Some.
  - intros _ _. rewrite lookup_update_thread_eq in Hc.
    cbn [running update_thread set_threads] in Hc.
    destruct (threads s !! running s); [|done]. simpl in Hc.
    by injection Hc as <-.
  - by apply is_Some_lookup_update_thread.
Qed.

Lemma pages_kept_foldl (func : ptr -> sched -> sched) l :
  (∀ t s, pages_kept s (func t s)) ->
  ∀ s, pages_kept s (foldl (λ acc t, func t acc) s l).
Proof.
  intros Hf. induction l as [|t r IH]; intros s; cbn [foldl].
  - apply pages_kept_refl.
  - eapply pages_kept_trans; [apply Hf|apply IH].
Qed.

Lemma pages_kept_foreach (func : ptr -> sched -> sched) s s' :
  (∀ t s, pages_kept s (func t s)) ->
  thread_foreach func s = Some s' -> pages_kept s s'.
Proof.
  intros Hf H. unfold thread_foreach in H.
  rewrite option_guard_bool_decide in H.
  destruct (bool_decide (intr_on s = false)); [|done].
  cbn [mbind option_bind] in H. injection H as <-. by apply pages_kept_foldl.
Qed.

Lemma pages_kept_step o s s' :
  frees_no_page o = true -> run_sched_op o s = Some s' -> pages_kept s s'.
Proof.
  intros Ho H. destruct o; try done; cbn [run_sched_op] in H.
  - by eapply pages_kept_unblock.
  - by apply pages_kept_yield.
  - by apply pages_kept_block.
  - apply thread_tick_inv in H as (s1 & _ & Hw & _ & ->).
    assert (H1 : pages_kept s s1).
    { eapply (wake_loop_preserves (pages_kept s)); [| | |exact Hw].
      - intros x t x' Hx Hu. eapply pages_kept_trans; [exact Hx|].
        by eapply pages_kept_unblock.
      - intros x l Hx. eapply pages_kept_trans; [exact Hx|].
        by apply pages_kept_core.
      - destruct (bool_decide (Some (running s) = _)); by apply pages_kept_core. }
    eapply pages_kept_trans; [exact H1|].
    destruct (bool_decide (_ >= _)); by apply pages_kept_core.
  - unfold thread_sleep in H.
    destruct (thread_current s) as [cur|]; [|done].
    cbn [mbind option_bind] in H.
    destruct (thread_current _) as [cur'|]; [|done].
    cbn [mbind option_bind] in H.
    apply pages_kept_block in H.
    eapply pages_kept_trans; [|exact H].
    eapply pages_kept_trans; [apply pages_kept_update_thread|].
    by apply pages_kept_core.
  - unfold thread_set_priority in H.
    destruct (thread_mlfqs s); [injection H as <-; apply pages_kept_refl|].
    destruct (thread_current _) as [cur|]; [|done].
    cbn [mbind option_bind] in H.
    destruct (threads _ !! cur) as [c|]; [|done].
    cbn [mbind option_bind] in H.
    set (s1 := update_thread (upd_real_priority new_priority) cur _) in H.
    assert (H1 : pages_kept s s1).
    { eapply pages_kept_trans; [|apply pages_kept_update_thread].
      by apply pages_kept_core. }
    destruct (bool_decide (Owned_locks c = [] ∨ new_priority > priority c)).
    + apply pages_kept_yield in H.
      eapply pages_kept_trans; [|exact H].
      eapply pages_kept_trans; [exact H1|].
      eapply pages_kept_trans; [apply pages_kept_update_thread|].
      by apply pages_kept_core.
    + injection H as <-. eapply pages_kept_trans; [exact H1|].
      by apply pages_kept_core.
  - by apply pages_kept_try_yeild.
  - unfold thread_set_nice in H.
    destruct (thread_current s) as [cur|]; [|done].
    cbn [mbind option_bind] in H. apply pages_kept_try_yeild in H.
    eapply pages_kept_trans; [|exact H].
    eapply pages_kept_trans; apply pages_kept_update_thread.
  - destruct (threads s !! t) as [th|] eqn:Ht.
    + rewrite (thread_update_priority_eq _ _ _ Ht) in H. injection H as <-.
      apply pages_kept_update_thread.
    + by rewrite thread_update_priority_None in H.
  - destruct (threads s !! t) as [th|] eqn:Ht.
    + rewrite (thread_donate_priority_eq _ _ _ Ht) in H.
      rewrite (thread_update_priority_eq _ _ _ Ht) in H.
      cbn [mbind option_bind] in H. injection H as <-.
      eapply pages_kept_trans; [apply pages_kept_update_thread|].
      destruct (bool_decide (status th = THREAD_READY));
        by apply pages_kept_core.
    + unfold thread_donate_priority in H. cbn [mbind option_bind] in H.
      by rewrite thread_update_priority_None in H.
  - unfold thread_update_recent_cpu_and_load_avg in H.
    destruct (get_ready_threads s) as [n|]; [|done].
    cbn [mbind option_bind] in H.
    destruct (thread_foreach _ _) as [s1|] eqn:E; [|done].
    cbn [mbind option_bind] in H. apply pages_kept_try_yeild in H.
    eapply pages_kept_trans; [|exact H].
    apply pages_kept_foreach in E.
    + eapply pages_kept_trans; [|exact E]. by apply pages_kept_core.
    + intros t x. unfold thread_update_recent_cpu, thread_update_priority_mlfqs.
      eapply pages_kept_trans; apply pages_kept_update_thread.
  - unfold thread_update_priority_mlfqs_all in H.
    destruct (thread_foreach _ _) as [s1|] eqn:E; [|done].
    cbn [mbind option_bind] in H. injection H as <-.
    apply pages_kept_foreach in E.
    + eapply pages_kept_trans; [exact E|]. by apply pages_kept_core.
    + intros t x. apply pages_kept_update_thread.
  - injection H as <-. unfold inc_recent_cpu.
    destruct (bool_decide _); [apply pages_kept_update_thread|].
    apply pages_kept_refl.
Qed.

Lemma all_live_kept s s' : pages_kept s s' -> all_live s -> all_live s'.
Proof.
  intros [Ha Hp] [Hnd Hval]. unfold all_live, all_valid in *. rewrite Ha.
  split; [done|]. eapply Forall_impl; [exact Hval|]. cbv beta. apply Hp.
Qed.

Lemma all_live_exit s s' :
  thread_exit s = Some s' -> all_live s ->
  all_live s' ∧ all_list s' = list_remove (running s) (all_list s).
Proof.
  intros H [Hnd Hval]. apply thread_exit_inv in H as (_ & Hrun & Hne & H).
  apply schedule_Some_inv in H as (c & next & _ & Hc & _ & _ & Hn & E).
  assert (Hal : all_list s' = list_remove (running s) (all_list s))
    by (by rewrite E, all_list_dispatched).
  split; [|done]. unfold all_live, all_valid in *. rewrite Hal.
  unfold list_remove. split; [by apply NoDup_filter|].
  apply Forall_forall. intros x Hx.
  apply list_elem_of_filter in Hx as [Hxr Hx].
  rewrite Forall_forall in Hval. specialize (Hval x Hx).
  rewrite E. apply lookup_dispatched_is_Some; [by intros ->|].
  by apply is_Some_lookup_update_thread.
Qed.

(** X16.  all_list holds live threads.  When all_list holds no thread twice
    and only pointers to threads, the same is true after any sequence of the
    operations that runs without a panic, and no thread has joined the list.
    Only thread_exit takes a thread out of all_list or frees a page: a
    sequence without thread_exit leaves all_list as it is and every page in
    place.  A thread_create on a fresh page adds the new thread to a list
    that still holds live threads only, none of them twice. *)
Theorem X16_all_list_holds_live_threads (os : list sched_op) (s s' : sched) :
  all_live s -> run_sched_ops os s = Some s' ->
  all_live s'
  ∧ (∀ x, x ∈ all_list s' -> x ∈ all_list s)
  ∧ (forallb frees_no_page os = true -> pages_kept s s')
  ∧ ∀ t pri id s'', threads s' !! t = None ->
      thread_create (Some t) pri s' = Some (id, s'') ->
      all_live s'' ∧ all_list s'' ≡ₚ t :: all_list s'.
Proof.
  intros Hl H.
  assert (Hrun : all_live s' ∧ (∀ x, x ∈ all_list s' -> x ∈ all_list s)
                 ∧ (forallb frees_no_page os = true -> pages_kept s s')).
  { revert s Hl H. induction os as [|o r IH]; intros s Hl H;
      cbn [run_sched_ops] in H.
    - injection H as <-. split; [done|]. split; [done|].
      intros _. apply pages_kept_refl.
    - destruct (run_sched_op o s) as [s1|] eqn:E; [|done].
      cbn [mbind option_bind] in H.
      destruct (frees_no_page o) eqn:Ho.
      + pose proof (pages_kept_step _ _ _ Ho E) as Hk.
        destruct (IH s1 (all_live_kept _ _ Hk Hl) H) as (I1 & I2 & I3).
        split; [done|]. split.
        * intros x Hx. apply I2 in Hx. by rewrite (proj1 Hk) in Hx.
        * cbn [forallb]. rewrite Ho. intros Hr.
          eapply pages_kept_trans; [exact Hk|by apply I3].
      + destruct o; try done. cbn [run_sched_op] in E.
        destruct (all_live_exit _ _ E Hl) as [Hl1 Hal].
        destruct (IH s1 Hl1 H) as (I1 & I2 & I3).
        split; [done|]. split; [|done].
        intros x Hx. apply I2 in Hx. rewrite Hal in Hx.
        unfold list_remove in Hx. by apply list_elem_of_filter in Hx as [_ ?]. }
  destruct Hrun as (R1 & R2 & R3). do 3 (split; [done|]).
  intros t pri id s'' Hfresh Hc.
  pose proof (thread_create_inv _ _ _ _ _ Hc)
    as (_ & _ & s2 & s3 & th & Ht & Hoth & _ & _ & _ & _ & _ & _ & _ & Hal
        & Heq & Hu & _ & Hy).
  assert (H2 : all_live s2).
  { destruct R1 as [Hnd Hval]. unfold all_live, all_valid in *.
    rewrite Forall_forall in Hval.
    assert (Hnot : t ∉ all_list s').
    { intros Hin. apply Hval in Hin. rewrite Hfresh in Hin. by destruct Hin. }
    split.
    - rewrite Hal. by apply NoDup_cons.
    - apply Forall_forall. intros x Hx. rewrite Hal in Hx.
      apply elem_of_cons in Hx as [->|Hx]; [by rewrite Ht|].
      destruct (decide (x = t)) as [->|Hne]; [by rewrite Ht|].
      rewrite Hoth by done. by apply Hval. }
  pose proof (pages_kept_unblock _ _ _ Hu) as K3.
  assert (K4 : pages_kept s3 s'').
  { destruct (bool_decide _); [by apply pages_kept_yield|].
    subst s''. apply pages_kept_refl. }
  pose proof (pages_kept_trans _ _ _ K3 K4) as K.
  split; [by apply (all_live_kept s2)|].
  by rewrite (proj1 K).
Qed.

(** ** Tick statistics *)

Lemma int64_id z : - 2 ^ 63 <= z < 2 ^ 63 -> int64 z = z.
Proof. unfold int64, wrap. intros H. rewrite Z.mod_small; lia. Qed.

Lemma thread_tick_counts now s s' :
  thread_tick now s = Some s' ->
  idle_thread s' = idle_thread s
  ∧ idle_ticks s'
    = (if bool_decide (Some (running s) = idle_thread s)
       then int64 (idle_ticks s + 1) else idle_ticks s)
  ∧ kernel_ticks s'
    = (if bool_decide (Some (running s) = idle_thread s)
       then kernel_ticks s else int64 (kernel_ticks s + 1)).
Proof.
  intros H. apply thread_tick_inv in H as (s1 & _ & Hw & _ & ->).
  set (s0 := if bool_decide (Some (running s) = idle_thread s) then _ else _)
    in Hw.
  assert (H1 : idle_thread s1 = idle_thread s0 ∧ idle_ticks s1 = idle_ticks s0
               ∧ kernel_ticks s1 = kernel_ticks s0).
  { eapply (wake_loop_preserves
              (λ x, idle_thread x = idle_thread s0
                    ∧ idle_ticks x = idle_ticks s0
                    ∧ kernel_ticks x = kernel_ticks s0)); [| | |exact Hw].
    - intros x t x' Hx Hu. apply thread_unblock_inv in Hu as [_ ->]. done.
    - intros x l Hx. done.
    - done. }
  destruct H1 as (E1 & E2 & E3).
  set (s2 := set_thread_ticks (uint32 (thread_ticks s1 + 1)) s1).
  assert (E : ∀ b : bool,
            idle_thread (if b then set_yield_on_return true s2 else s2)
            = idle_thread s1
            ∧ idle_ticks (if b then set_yield_on_return true s2 else s2)
              = idle_ticks s1
            ∧ kernel_ticks (if b then set_yield_on_return true s2 else s2)
              = kernel_ticks s1).
  { by intros []. }
  destruct (E (bool_decide (uint32 (thread_ticks s1 + 1) >= TIME_SLICE)))
    as (-> & -> & ->).
  rewrite E1, E2, E3. unfold s0.
  by destruct (bool_decide (Some (running s) = idle_thread s)).
Qed.

Lemma tick_all_counts times : ∀ s s',
  0 <= idle_ticks s -> 0 <= kernel_ticks s ->
  idle_ticks s + kernel_ticks s + Z.of_nat (length times) < 2 ^ 63 ->
  tick_all times s = Some s' ->
  (Some (running s) = idle_thread s ->
   idle_ticks s' = idle_ticks s + Z.of_nat (length times)
   ∧ kernel_ticks s' = kernel_ticks s)
  ∧ (Some (running s) ≠ idle_thread s ->
     kernel_ticks s' = kernel_ticks s + Z.of_nat (length times)
     ∧ idle_ticks s' = idle_ticks s).
Proof.
  induction times as [|now r IH]; intros s s' Hi Hk Hlt H; cbn [tick_all] in H.
  - injection H as <-. simpl. split; intros _; lia.
  - destruct (thread_tick now s) as [s1|] eqn:E; [|done].
    cbn [mbind option_bind] in H.
    pose proof (thread_tick_slice _ _ _ E) as (_ & _ & Hr).
    apply thread_tick_counts in E as (E1 & E2 & E3).
    rewrite length_cons, Nat2Z.inj_succ in Hlt |- *.
    destruct (decide (Some (running s) = idle_thread s)) as [Hidle|Hidle].
    + rewrite bool_decide_true in E2, E3 by done.
      rewrite int64_id in E2 by lia.
      apply IH in H as [I1 _]; [|lia..].
      split; [|done]. intros _. destruct I1 as [I1 I2]; [congruence|]. lia.
    + rewrite bool_decide_false in E2, E3 by done.
      rewrite int64_id in E3 by lia.
      apply IH in H as [_ I1]; [|lia..].
      split; [done|]. intros _. destruct I1 as [I1 I2]; [congruence|]. lia.
Qed.

(** X17.  Every timer tick is counted once: a run of ticks in which the
    thread keeps the processor adds the number of ticks to idle_ticks when
    the running thread is the idle thread and to kernel_ticks otherwise, and
    leaves the other counter alone (the counters being far from the largest
    int64). *)
Theorem X17_every_tick_is_counted_once (times : list Z) (s s' : sched) :
  0 <= idle_ticks s -> 0 <= kernel_ticks s ->
  idle_ticks s + kernel_ticks s + Z.of_nat (length times) < 2 ^ 63 ->
  tick_all times s = Some s' ->
  idle_ticks s' + kernel_ticks s'
  = idle_ticks s + kernel_ticks s + Z.of_nat (length times)
  ∧ (Some (running s) = idle_thread s ->
     idle_ticks s' = idle_ticks s + Z.of_nat (length times)
     ∧ kernel_ticks s' = kernel_ticks s)
  ∧ (Some (running s) ≠ idle_thread s ->
     kernel_ticks s' = kernel_ticks s + Z.of_nat (length times)
     ∧ idle_ticks s' = idle_ticks s).
Proof.
  intros Hi Hk Hlt H.
  destruct (tick_all_counts times s s' Hi Hk Hlt H) as [H1 H2].
  split; [|done].
  destruct (decide (Some (running s) = idle_thread s)) as [E|E].
  - destruct (H1 E). lia.
  - destruct (H2 E). lia.
Qed.

End Properties.

(** * The properties on concrete machines *)

(** Discharges a decidable closed statement by evaluation. *)
Ltac evaluate_goal :=
  match goal with
  | |- ?P =>
      first
        [ let d := constr:(_ : Decision P) in
          apply (@bool_decide_unpack P d); vm_compute; exact I
        | vm_compute; exact I ]
  end.

Ltac by_evaluation :=
  unfold sleep_inv, exclusive, ascending_wake, descending, strictly_descending,
    all_valid, has_status, donation_inv, priorities_related;
  first [ evaluate_goal | repeat split; evaluate_goal ].

Lemma from_option_id_Some {A} (o : option A) (d : A) :
  is_Some o -> o = Some (from_option id d o).
Proof. by intros [x ->]. Qed.

(** Unblocking the threads of priorities 5, 9 and 7 in this order leaves the
    one of priority 9 in front. *)
Lemma C1_unblock_three_witness :
  ∃ s', unblock_all [200; 300; 400] three_blocked = Some s'
        ∧ (∀ x, prio s' x = prio three_blocked x)
        ∧ Forall (has_status THREAD_READY s') [200; 300; 400]
        ∧ ready_list s' ≡ₚ ready_list three_blocked ++ [200; 300; 400]
        ∧ strictly_descending s' (ready_list s')
        ∧ ∀ front rest, ready_list s' = front :: rest ->
            (∀ t, t ∈ ready_list s' -> prio s' t <= prio s' front)
            ∧ (∀ t, t ∈ rest -> prio s' t < prio s' front).
Proof.
  apply (C1_unblock_keeps_max_priority_in_front
           three_blocked [200; 300; 400] [200; 300; 400] []).
  - constructor.
  - repeat constructor.
  - by_evaluation.
  - reflexivity.
Defined.

Example unblock_three_front :
  ready_list <$> unblock_all [200; 300; 400] three_blocked
  = Some [300; 400; 200].
Proof. vm_compute. reflexivity. Qed.

(** On the chain of the spec, recomputing A yields 2, the donation of B,
    before and after C has raised B to 5. *)
Lemma C2_donation_chain_witness :
  ∃ s', thread_update_priority 100 donation_chain = Some s'
        ∧ prio s' 100 = donation_max donation_chain thread_A
        ∧ (Owned_locks thread_A = [] -> prio s' 100 = real_priority thread_A)
        ∧ (∀ l, l ∈ Owned_locks thread_A -> lock_pri donation_chain l <= prio s' 100)
        ∧ real_priority thread_A <= prio s' 100
        ∧ (∀ x, x ≠ 100 -> threads s' !! x = threads donation_chain !! x)
        ∧ locks s' = locks donation_chain
        ∧ ∀ b s1 s2, b ≠ 100 ->
            thread_donate_priority b donation_chain = Some s1 ->
            thread_update_priority 100 s1 = Some s2 ->
            prio s2 100 = prio s' 100 ∧ locks s1 = locks donation_chain.
Proof.
  apply (C2_recompute_is_single_level_max donation_chain 100 thread_A).
  reflexivity.
Defined.

Example donation_chain_stops_at_B :
  (s1 ← thread_donate_priority 200 donation_chain;
   s2 ← thread_update_priority 100 s1;
   Some (prio donation_chain 200, prio s1 200, prio s2 100))
  = Some (2, 5, 2).
Proof. vm_compute. reflexivity. Qed.

(** The per-second recomputation on a machine with two ready threads. *)
Lemma C3_per_second_witness :
  ∃ s', thread_update_recent_cpu_and_load_avg second_in_thread = Some s'
        ∧ load_avg s' = next_load_avg (load_avg second_in_thread) 3
        ∧ (∀ t th, t ∈ all_list second_in_thread ->
             threads second_in_thread !! t = Some th ->
             ∃ th', threads s' !! t = Some th'
                    ∧ recent_cpu th'
                      = next_recent_cpu (load_avg s') (recent_cpu th) (nice th)
                    ∧ nice th' = nice th
                    ∧ priority th' = mlfqs_priority th')
        ∧ (∀ t th, t ∉ all_list second_in_thread ->
             threads second_in_thread !! t = Some th ->
             ∃ th', threads s' !! t = Some th'
                    ∧ recent_cpu th' = recent_cpu th
                    ∧ priority th' = priority th).
Proof.
  apply (C3_per_second_load_avg_and_recent_cpu second_in_thread).
  - reflexivity.
  - reflexivity.
  - by_evaluation.
  - by_evaluation.
  - by vm_compute.
Defined.

(** The thread of recent_cpu 100 and nice 0 gets 63 - 25 - 0. *)
Lemma C4_mlfqs_priority_witness :
  prio (thread_update_priority_mlfqs 300 second_in_thread) 300
    = clamp (63 - 25 - 0 * 2) 0 63
  ∧ 0 <= prio (thread_update_priority_mlfqs 300 second_in_thread) 300 <= 63
  ∧ threads (thread_update_priority_mlfqs 300 second_in_thread) !! 300
    = Some (upd_priority
              (prio (thread_update_priority_mlfqs 300 second_in_thread) 300)
              (mlfqs_thread 3 THREAD_READY 38 0 (100 * FRACTION)))
  ∧ ∀ x, x ≠ 300 ->
      threads (thread_update_priority_mlfqs 300 second_in_thread) !! x
      = threads second_in_thread !! x.
Proof.
  refine (C4_mlfqs_priority_is_clamped_formula second_in_thread 300
            (mlfqs_thread 3 THREAD_READY 38 0 (100 * FRACTION)) _ _ _ _ _).
  - reflexivity.
  - by vm_compute.
  - by vm_compute.
  - by vm_compute.
  - by vm_compute.
Defined.

Lemma extreme_nice_thread :
  (λ th, (nice th, recent_cpu th)) <$> threads extreme_nice !! 100
  = Some (-1073741824, 0).
Proof. vm_compute. reflexivity. Qed.

Lemma extreme_nice_recomputed :
  prio (thread_update_priority_mlfqs 100 extreme_nice) 100 = 0.
Proof. vm_compute. reflexivity. Qed.

(** thread_set_nice accepts a nice of -2^30.  For the thread that has it,
    with no recent_cpu, the formula is 63 + 2^31, whose clamp is 63; the int
    computation wraps to 63 - 2^31 and the priority written is 0. *)
Lemma C4_extreme_nice_counterexample :
  thread_set_nice (-1073741824) nice_creator = Some extreme_nice
  ∧ (λ th, (nice th, recent_cpu th)) <$> threads extreme_nice !! 100
    = Some (-1073741824, 0)
  ∧ prio (thread_update_priority_mlfqs 100 extreme_nice) 100 = 0
  ∧ clamp (63 - 0 - (-1073741824) * 2) 0 63 = 63
  ∧ ¬ writes_clamped_formula 100 extreme_nice.
Proof.
  split; [apply from_option_id_Some; by_evaluation|].
  split; [exact extreme_nice_thread|].
  split; [exact extreme_nice_recomputed|].
  split; [by vm_compute|].
  intros H. pose proof extreme_nice_thread as E.
  destruct (threads extreme_nice !! 100) as [th|] eqn:Hth; [|discriminate E].
  injection E as Hn Hr.
  specialize (H th Hth).
  rewrite extreme_nice_recomputed, Hn, Hr in H.
  by vm_compute in H.
Qed.

Example extreme_nice_priority :
  (λ s', prio s' 100) <$> thread_set_nice (-1073741824) nice_creator = Some 0.
Proof. vm_compute. reflexivity. Qed.

(** A thread sleeps until tick 100: in the timer interrupt the ticks at 50
    and at 99 leave it asleep, the tick at 100 wakes it. *)
Lemma C5_sleep_until_100_witness :
  sleep_inv after_sleep ∧ 100 ∈ sleeping_list after_sleep
  ∧ wake_time after_sleep 100 = int64 (0 + 100)
  ∧ ∃ s1 s2 woken,
      tick_all [50; 99] (in_interrupt_context after_sleep) = Some s1
      ∧ intr_ctx s1 = true
      ∧ 100 ∈ sleeping_list s1
      ∧ has_status THREAD_BLOCKED s1 100
      ∧ thread_tick 100 s1 = Some s2
      ∧ (100 ∉ sleeping_list s2)
      ∧ 100 ∈ ready_list s2
      ∧ has_status THREAD_READY s2 100
      ∧ sleeping_list s1 = woken ++ sleeping_list s2
      ∧ Forall (λ t, wake_time s1 t <= 100) woken
      ∧ Forall (λ t, 100 < wake_time s1 t) (sleeping_list s2)
      ∧ Forall (has_status THREAD_READY s2) woken
      ∧ Forall (has_status THREAD_BLOCKED s2) (sleeping_list s2)
      ∧ ascending_wake s2 (sleeping_list s2).
Proof.
  apply (C5_sleeper_wakes_at_first_due_tick before_sleep after_sleep 100 0
           [50; 99] 100).
  - by_evaluation.
  - by_evaluation.
  - apply from_option_id_Some. by_evaluation.
  - by_evaluation.
  - by vm_compute.
Defined.

Example sleeper_through_ticks_99_and_100 :
  (s1 ← tick_all [50; 99] (in_interrupt_context after_sleep);
   s2 ← thread_tick 100 s1;
   Some (sleeping_list after_sleep, sleeping_list s1, ready_list s1,
         sleeping_list s2, ready_list s2))
  = Some ([300; 100; 400], [100; 400], [300], [400], [300; 100]).
Proof. vm_compute. reflexivity. Qed.

(** Outside interrupt context the tick that ends the time slice is an
    assertion failure. *)
Example slice_end_outside_interrupt_panics :
  (yield_on_return <$> tick_all [1; 2; 3] before_sleep,
   yield_on_return <$> tick_all [1; 2; 3; 4] before_sleep)
  = (Some false, None).
Proof. vm_compute. reflexivity. Qed.

(** C6.  In MLFQS mode, thread_init followed by the thread_create call of
    thread_start, whose priority argument is PRI_MIN: the creator has
    priority 31, the new thread gets the derived priority 63, and
    thread_create compares the creator's priority with its argument: the
    creator does not yield and is still the running thread when the call
    returns, the new thread waiting in the ready list. *)
Theorem C6_mlfqs_create_compares_the_argument :
  (s0 ← thread_init boot_mlfqs;
   r ← thread_create (Some 8192) PRI_MIN s0;
   Some (running s0, prio s0 (running s0),
         prio r.2 8192, prio r.2 (running s0),
         running r.2, ready_list r.2))
  = Some (4096, 31, 63, 31, 4096, [8192]).
Proof. vm_compute. reflexivity. Qed.

(** The same comparison forces a yield that the priorities do not call for:
    creator and new thread both derive priority 23 from nice 20, and the
    argument 31 makes the creator yield to a thread that does not outrank
    it. *)
Example mlfqs_create_yields_to_an_equal :
  (r ← thread_create (Some 8192) 31 nice_creator;
   Some (running nice_creator, prio nice_creator (running nice_creator),
         prio r.2 8192, running r.2, ready_list r.2))
  = Some (100, 23, 23, 8192, [100]).
Proof. vm_compute. reflexivity. Qed.

(** The thread of priority 31 asks for 10 while a thread of priority 20 is
    ready. *)
Lemma C7_lowering_witness :
  let th := mk_thread 1 THREAD_RUNNING 31 31 [] None 0 0 0 in
  let s1 := set_threads
              (<[running one_ready_below := upd_priority 10 (upd_real_priority 10 th)]>
                 (threads one_ready_below)) one_ready_below in
  (Owned_locks th = [] ->
     thread_set_priority 10 one_ready_below = thread_yield s1
     ∧ (intr_ctx one_ready_below = false ->
        all_valid one_ready_below (ready_list one_ready_below) ->
        ∃ s', thread_set_priority 10 one_ready_below = Some s'
              ∧ prio s' (running one_ready_below) = 10
              ∧ (∀ f r, ready_list one_ready_below = f :: r ->
                   prio one_ready_below f >= 10 ->
                   f ≠ running one_ready_below -> running s' = f)
              ∧ (idle_thread one_ready_below ≠ Some (running one_ready_below) ->
                 (∀ f, head (ready_list one_ready_below) = Some f ->
                       prio one_ready_below f < 10) ->
                 running s' = running one_ready_below)))
  ∧ (Owned_locks th ≠ [] ->
     thread_set_priority 10 one_ready_below
     = Some (set_threads
               (<[running one_ready_below := upd_real_priority 10 th]>
                  (threads one_ready_below)) one_ready_below)).
Proof.
  apply (C7_lowering_set_priority_yields one_ready_below 10
           (mk_thread 1 THREAD_RUNNING 31 31 [] None 0 0 0)).
  - reflexivity.
  - reflexivity.
  - reflexivity.
  - by vm_compute.
Defined.

(** The thread that lowers its priority from 31 to 10 is switched out at
    once: the ready thread of priority 20 runs and the caller waits in the
    ready list. *)
Lemma C7_lowering_switches_counterexample :
  ¬ lowering_forces_no_switch 10 one_ready_below.
Proof.
  intros H.
  assert (E : (λ s', (prio s' 100, running s'))
                <$> thread_set_priority 10 one_ready_below = Some (10, 200))
    by (vm_compute; reflexivity).
  destruct (thread_set_priority 10 one_ready_below) as [s'|] eqn:Hs;
    [|discriminate E].
  injection E as Hp Hr.
  destruct (H s' Hs) as [Hsame _].
  - change (running one_ready_below) with 100. rewrite Hp. by vm_compute.
  - rewrite Hr in Hsame. discriminate Hsame.
Qed.

(** Outside interrupt context the recomputation takes the running thread
    of nice 20 down to priority 18; the ready thread keeps 63, outranks it
    and runs, the caller waiting in the ready list. *)
Lemma C8_yield_check_witness :
  (∃ s1, thread_foreach thread_update_recent_cpu
          (set_load_avg
             (next_load_avg (load_avg second_outranked)
                (int32 (Z.of_nat (length (ready_list second_outranked))
                        + (if bool_decide (Some (running second_outranked)
                                           ≠ idle_thread second_outranked)
                           then 1 else 0)))) second_outranked) = Some s1
        ∧ thread_update_recent_cpu_and_load_avg second_outranked
          = thread_try_yeild s1
        ∧ intr_ctx s1 = intr_ctx second_outranked
        ∧ running s1 = running second_outranked
        ∧ ready_list s1 = ready_list second_outranked
        ∧ (intr_ctx second_outranked = true ->
             thread_update_recent_cpu_and_load_avg second_outranked = Some s1)
        ∧ (intr_ctx second_outranked = false -> front_outranks s1 = true ->
             thread_update_recent_cpu_and_load_avg second_outranked
             = thread_yield s1)
        ∧ (intr_ctx second_outranked = false -> front_outranks s1 = false ->
             thread_update_recent_cpu_and_load_avg second_outranked = Some s1)
        ∧ (intr_ctx second_outranked = false ->
           all_valid second_outranked (ready_list second_outranked) ->
           ∀ f r, ready_list second_outranked = f :: r ->
             prio s1 f > prio s1 (running second_outranked) ->
             ∃ s', thread_update_recent_cpu_and_load_avg second_outranked
                   = Some s'
                   ∧ running s' = f
                   ∧ has_status THREAD_RUNNING s' f
                   ∧ has_status THREAD_READY s' (running second_outranked)
                   ∧ (Some (running second_outranked)
                      ≠ idle_thread second_outranked ->
                      running second_outranked ∈ ready_list s')
                   ∧ (∀ x, prio s' x = prio s1 x)))
  ∧ (λ s', (running s', ready_list s', prio s' 100, prio s' 200,
            status <$> threads s' !! 100, status <$> threads s' !! 200))
      <$> thread_update_recent_cpu_and_load_avg second_outranked
    = Some (200, [100], 18, 63, Some THREAD_READY, Some THREAD_RUNNING).
Proof.
  split.
  - apply (C8_recomputation_then_yield_check second_outranked).
    + reflexivity.
    + reflexivity.
  - vm_compute. reflexivity.
Defined.

(** Inside the timer interrupt the recomputation leaves the running thread
    at priority 18 in place although the front of the ready list has
    priority 63.  Outside interrupt context it leaves the ready list in the
    order it had, now 40 before 61, and the running thread of priority 52 in
    place although a ready thread of priority 61 outranks it. *)
Lemma C8_no_resort_no_yield_counterexample :
  (∃ s', thread_update_recent_cpu_and_load_avg second_in_handler = Some s'
         ∧ running s' = 100 ∧ prio s' 100 = 18
         ∧ ready_list s' = [200] ∧ prio s' 200 = 63
         ∧ ¬ sorted_and_not_outranked s')
  ∧ (∃ s', thread_update_recent_cpu_and_load_avg second_in_thread = Some s'
           ∧ running s' = 100 ∧ prio s' 100 = 52
           ∧ ready_list s' = [200; 300]
           ∧ prio s' 200 = 40 ∧ prio s' 300 = 61
           ∧ ¬ descending s' (ready_list s')
           ∧ ¬ sorted_and_not_outranked s').
Proof.
  split.
  - assert (E : (λ s', (running s', prio s' 100, ready_list s', prio s' 200))
                  <$> thread_update_recent_cpu_and_load_avg second_in_handler
                = Some (100, 18, [200], 63)) by (vm_compute; reflexivity).
    destruct (thread_update_recent_cpu_and_load_avg second_in_handler)
      as [s'|]; [|discriminate E].
    injection E as Hr Hp Hl Hq. exists s'. do 5 (split; [done|]).
    intros [_ H]. rewrite Hl in H. apply Forall_cons in H as [H _].
    rewrite Hr, Hp, Hq in H. by vm_compute in H.
  - assert (E : (λ s', (running s', prio s' 100, ready_list s',
                         prio s' 200, prio s' 300))
                  <$> thread_update_recent_cpu_and_load_avg second_in_thread
                = Some (100, 52, [200; 300], 40, 61)) by (vm_compute; reflexivity).
    destruct (thread_update_recent_cpu_and_load_avg second_in_thread)
      as [s'|]; [|discriminate E].
    injection E as Hr Hp Hl H2 H3. exists s'. do 6 (split; [done|]).
    assert (Hd : ¬ descending s' (ready_list s')).
    { intros Hs. unfold descending in Hs. rewrite Hl in Hs.
      apply StronglySorted_inv in Hs as [_ Hall].
      apply Forall_cons in Hall as [Hall _]. lia. }
    split; [done|]. by intros [Hs _].
Qed.

(** The two priorities stay related along a run of the donation protocol. *)
Lemma C9_donation_run_witness :
  donation_inv after_donation_run
  ∧ ∀ t th, threads after_donation_run !! t = Some th ->
      real_priority th <= priority th
      ∧ (Owned_locks th = [] -> priority th = real_priority th).
Proof.
  apply (C9_donation_operations_keep_priorities_related
           donation_run donation_chain after_donation_run).
  - reflexivity.
  - repeat constructor.
  - by_evaluation.
  - apply from_option_id_Some. by_evaluation.
Defined.

(** In MLFQS mode, after thread_init, thread_set_nice 20 takes "main",
    which has base priority 31 and owns no lock, down to the derived
    priority 23.  The same call does the same outside MLFQS mode. *)
Lemma C9_set_nice_breaks_relation_counterexample :
  (thread_mlfqs after_init_mlfqs = true
   ∧ donation_inv after_init_mlfqs
   ∧ ∃ s' th, run_ops [OpSetNice 20] after_init_mlfqs = Some s'
              ∧ threads s' !! 4096 = Some th
              ∧ priority th = 23 ∧ real_priority th = 31
              ∧ Owned_locks th = []
              ∧ ¬ donation_inv s')
  ∧ (thread_mlfqs one_ready_below = false
     ∧ donation_inv one_ready_below
     ∧ ∃ s' th, run_ops [OpSetNice 20] one_ready_below = Some s'
                ∧ threads s' !! 100 = Some th
                ∧ priority th = 23 ∧ real_priority th = 31
                ∧ Owned_locks th = []
                ∧ ¬ donation_inv s').
Proof.
  assert (Hgen : ∀ (s : sched) (t : Z),
    (λ s', (λ th, (priority th, real_priority th, Owned_locks th))
             <$> threads s' !! t) <$> run_ops [OpSetNice 20] s
    = Some (Some (23, 31, [])) ->
    ∃ s' th, run_ops [OpSetNice 20] s = Some s'
             ∧ threads s' !! t = Some th
             ∧ priority th = 23 ∧ real_priority th = 31
             ∧ Owned_locks th = []
             ∧ ¬ donation_inv s').
  { intros s t E.
    destruct (run_ops [OpSetNice 20] s) as [s'|]; [|discriminate E].
    injection E as E.
    destruct (threads s' !! t) as [th|] eqn:Hth; [|discriminate E].
    injection E as Hp Hr Ho.
    exists s', th. do 5 (split; [done|]).
    intros H. destruct (H t th Hth) as [H1 _]. lia. }
  split.
  - split; [vm_compute; reflexivity|]. split; [by_evaluation|].
    apply Hgen. vm_compute. reflexivity.
  - split; [reflexivity|]. split; [by_evaluation|].
    apply Hgen. vm_compute. reflexivity.
Qed.


(** With a nice of 20 the priority written is 23, still above the ready
    thread: the caller keeps the processor.  In MLFQS mode the same call
    writes the same value. *)
Example set_nice_outside_mlfqs :
  ((λ s', (prio s' 100, running s')) <$> thread_set_nice 20 one_ready_below,
   (λ s', (prio s' 100, running s')) <$> thread_set_nice 20 nice_creator,
   thread_mlfqs one_ready_below, thread_mlfqs nice_creator)
  = (Some (23, 100), Some (23, 100), false, true).
Proof. vm_compute. reflexivity. Qed.

(** * Further properties on concrete machines *)

Ltac by_evaluation_wf :=
  unfold ordered, sorted_and_not_outranked, sched_wf, tids_below;
  by_evaluation.

(** Unblocking the thread of priority 9 when threads of priorities 5 and 7
    are ready puts it in front. *)
Example unblock_takes_the_front :
  (s1 ← unblock_all [200; 400] three_blocked;
   s2 ← thread_unblock 300 s1;
   Some (ready_list s1, ready_list s2))
  = Some ([400; 200], [300; 400; 200]).
Proof. vm_compute. reflexivity. Qed.

(** The thread of priority 31 yields while its equal is ready. *)
Lemma X2_yield_to_an_equal_witness :
  ∃ s', thread_yield before_sleep = Some s'
        ∧ descending s' (ready_list s')
        ∧ Forall (λ x, prio s' x <= prio s' (running s')) (ready_list s')
        ∧ (∀ x, prio s' x = prio before_sleep x)
        ∧ has_status THREAD_RUNNING s' (running s')
        ∧ (Some (running before_sleep) ≠ idle_thread before_sleep ->
           running s' :: ready_list s'
           ≡ₚ running before_sleep :: ready_list before_sleep)
        ∧ (Some (running before_sleep) = idle_thread before_sleep ->
           ready_list before_sleep ≠ [] ->
           running s' :: ready_list s' = ready_list before_sleep)
        ∧ (Some (running before_sleep) = idle_thread before_sleep ->
           ready_list before_sleep = [] ->
           running s' = running before_sleep ∧ ready_list s' = []).
Proof.
  apply (X2_yield_runs_a_highest_thread before_sleep).
  - by_evaluation.
  - reflexivity.
  - by_evaluation.
  - by_evaluation.
Defined.

(** The same yield: the equal at the front runs, the caller queues. *)
Lemma X3_round_robin_witness :
  (∀ f r, ready_list before_sleep = f :: r ->
          prio before_sleep (running before_sleep) <= prio before_sleep f ->
          f ≠ running before_sleep ->
          ∃ s', thread_yield before_sleep = Some s'
                ∧ running s' = f
                ∧ has_status THREAD_RUNNING s' f
                ∧ has_status THREAD_READY s' (running before_sleep)
                ∧ running before_sleep ∈ ready_list s'
                ∧ thread_ticks s' = 0)
  ∧ ((∀ f, head (ready_list before_sleep) = Some f ->
           prio before_sleep f < prio before_sleep (running before_sleep)) ->
     thread_yield before_sleep = Some (set_thread_ticks 0 before_sleep)).
Proof.
  apply (X3_yield_round_robin before_sleep
           (mk_thread 1 THREAD_RUNNING 31 31 [] None 0 0 0)).
  - reflexivity.
  - reflexivity.
  - reflexivity.
  - by_evaluation.
  - by_evaluation.
Defined.

Example yield_to_an_equal :
  (λ s', (running s', ready_list s')) <$> thread_yield before_sleep
  = Some (200, [100]).
Proof. vm_compute. reflexivity. Qed.

(** The machine is consistent after the busy stretch. *)
Lemma X4_busy_run_witness : sched_wf after_busy_run.
Proof.
  apply (X4_thread_states_stay_consistent busy_run before_sleep after_busy_run).
  - by_evaluation_wf.
  - apply from_option_id_Some. by_evaluation.
Defined.

Example busy_run_ends :
  (λ s', (running s', ready_list s', sleeping_list s', all_list s'))
    <$> run_sched_ops busy_run before_sleep
  = Some (100, [200], [400], [100; 200; 400]).
Proof. vm_compute. reflexivity. Qed.

(** thread_exit by the second thread of the busy stretch frees its page. *)
Example exit_frees_the_page :
  (s1 ← run_sched_ops (take 6 busy_run) before_sleep;
   s2 ← thread_exit s1;
   Some (running s1, all_list s1, running s2, all_list s2,
         status <$> threads s2 !! 300))
  = Some (300, [100; 200; 300; 400], 200, [100; 200; 400], None).
Proof. vm_compute. reflexivity. Qed.

(** Four ticks use up the time slice. *)
Lemma X7_four_ticks_witness :
  thread_ticks after_four_ticks = Z.of_nat (length [1; 2; 3; 4])
  ∧ running after_four_ticks = running in_timer_interrupt
  ∧ (yield_on_return after_four_ticks = true
     <-> 4 <= Z.of_nat (length [1; 2; 3; 4])).
Proof.
  apply (X7_time_slice_is_four_ticks [1; 2; 3; 4] in_timer_interrupt
           after_four_ticks).
  - reflexivity.
  - reflexivity.
  - by vm_compute.
  - apply from_option_id_Some. by_evaluation.
Defined.

Example three_ticks_do_not_preempt :
  (yield_on_return <$> tick_all [1; 2; 3] in_timer_interrupt,
   yield_on_return <$> tick_all [1; 2; 3; 4] in_timer_interrupt)
  = (Some false, Some true).
Proof. vm_compute. reflexivity. Qed.

(** The ready list is in order after the stretch. *)
Lemma X8_ordered_run_witness :
  descending after_ordered_run (ready_list after_ordered_run)
  ∧ ∀ f x, head (ready_list after_ordered_run) = Some f ->
           x ∈ ready_list after_ordered_run ->
           prio after_ordered_run x <= prio after_ordered_run f.
Proof.
  apply (X8_ready_list_stays_in_priority_order
           ordered_run before_sleep after_ordered_run).
  - reflexivity.
  - by_evaluation_wf.
  - by_evaluation.
  - apply from_option_id_Some. by_evaluation.
Defined.

(** The thread of priority 31 creates a thread of priority 40 on a fresh
    page and is preempted by it. *)
Lemma X9_create_witness :
  (thread_create None 40 one_ready_below = Some (TID_ERROR, one_ready_below))
  ∧ (∀ bad, ¬ (PRI_MIN <= bad ∧ bad <= PRI_MAX) ->
            thread_create (Some 8192) bad one_ready_below = None)
  ∧ ∃ s' th,
    thread_create (Some 8192) 40 one_ready_below
    = Some (next_tid one_ready_below, s')
    ∧ threads s' !! 8192 = Some th
    ∧ tid th = next_tid one_ready_below
    ∧ next_tid s' = int32 (next_tid one_ready_below + 1)
    ∧ all_list s' ≡ₚ 8192 :: all_list one_ready_below
    ∧ (running s' = 8192 ∨ 8192 ∈ ready_list s')
    ∧ sched_wf s'
    ∧ (∀ x, x ≠ 8192 ->
         tid <$> threads s' !! x = tid <$> threads one_ready_below !! x)
    ∧ (∀ x, x ≠ 8192 -> prio s' x = prio one_ready_below x)
    ∧ (thread_mlfqs one_ready_below = false -> priority th = 40)
    ∧ (thread_mlfqs one_ready_below = true ->
       ∃ c, threads one_ready_below !! running one_ready_below = Some c
            ∧ nice th = nice c ∧ recent_cpu th = recent_cpu c
            ∧ priority th = mlfqs_priority th).
Proof.
  apply (X9_create_registers_the_thread 8192 40 one_ready_below).
  - reflexivity.
  - by_evaluation_wf.
  - reflexivity.
  - by_evaluation.
Defined.

Example create_preempts :
  (λ r, (r.1, running r.2, ready_list r.2, all_list r.2))
    <$> thread_create (Some 8192) 40 one_ready_below
  = Some (10, 8192, [100; 200], [100; 200; 8192]).
Proof. vm_compute. reflexivity. Qed.

Lemma thread_create_after_create :
  thread_create (Some 8192) 40 one_ready_below = Some (10, after_create).
Proof.
  assert (E : fst <$> thread_create (Some 8192) 40 one_ready_below = Some 10)
    by (vm_compute; reflexivity).
  unfold after_create.
  destruct (thread_create (Some 8192) 40 one_ready_below) as [[i s']|];
    [|discriminate E].
  injection E as ->. reflexivity.
Defined.

(** The tid of that thread is new. *)
Lemma X10_fresh_tid_witness :
  (∀ x th, threads one_ready_below !! x = Some th -> tid th ≠ 10)
  ∧ tid <$> threads after_create !! 8192 = Some 10
  ∧ next_tid after_create = 10 + 1
  ∧ tids_below after_create.
Proof.
  apply (X10_create_hands_out_fresh_tids 8192 40 10 one_ready_below after_create).
  - by_evaluation_wf.
  - by vm_compute.
  - by vm_compute.
  - exact thread_create_after_create.
Defined.

(** The MLFQS priorities of the machine with two ready threads. *)
Lemma X11_mlfqs_all_witness :
  (is_Some (thread_update_priority_mlfqs_all second_in_thread)
   <-> intr_on second_in_thread = false)
  ∧ ∀ s', thread_update_priority_mlfqs_all second_in_thread = Some s' ->
      (∀ x th, x ∈ all_list second_in_thread ->
         threads second_in_thread !! x = Some th ->
         threads s' !! x = Some (upd_priority (mlfqs_priority th) th)
         ∧ PRI_MIN <= prio s' x ∧ prio s' x <= PRI_MAX)
      ∧ (∀ x, x ∉ all_list second_in_thread ->
           threads s' !! x = threads second_in_thread !! x)
      ∧ ready_list s' ≡ₚ ready_list second_in_thread
      ∧ descending s' (ready_list s')
      ∧ running s' = running second_in_thread
      ∧ all_list s' = all_list second_in_thread.
Proof.
  apply (X11_mlfqs_all_recomputes_and_sorts second_in_thread).
  by vm_compute.
Defined.

(** The thread of priority 31 raises its priority to 40. *)
Lemma X12_set_priority_witness :
  let c := mk_thread 1 THREAD_RUNNING 31 31 [] None 0 0 0 in
  (thread_mlfqs one_ready_below = true ->
   thread_set_priority 40 one_ready_below = Some one_ready_below)
  ∧ (thread_mlfqs one_ready_below = false ->
     ∃ s' th,
       thread_set_priority 40 one_ready_below = Some s'
       ∧ threads s' !! running one_ready_below = Some th
       ∧ real_priority th = 40
       ∧ priority th
         = (if bool_decide (Owned_locks c = [] ∨ 40 > priority c)
            then 40 else priority c)
       ∧ Owned_locks th = Owned_locks c
       ∧ (∀ x, x ≠ running one_ready_below -> prio s' x = prio one_ready_below x)
       ∧ (running s' = running one_ready_below ->
          thread_get_priority s' = Some (priority th))).
Proof.
  apply (X12_set_priority_then_get 40 one_ready_below
           (mk_thread 1 THREAD_RUNNING 31 31 [] None 0 0 0)).
  - reflexivity.
  - reflexivity.
  - reflexivity.
  - by_evaluation.
Defined.

Example set_priority_then_get :
  (s' ← thread_set_priority 40 one_ready_below; thread_get_priority s')
  = Some 40.
Proof. vm_compute. reflexivity. Qed.

(** thread_init on the machine as the loader leaves it. *)
Lemma X13_init_witness :
  (intr_on boot_mlfqs = true -> thread_init boot_mlfqs = None)
  ∧ (intr_on boot_mlfqs = false ->
     ∃ s' th,
       thread_init boot_mlfqs = Some s'
       ∧ threads s' = {[ running boot_mlfqs := th ]}
       ∧ status th = THREAD_RUNNING ∧ tid th = 1
       ∧ priority th = PRI_DEFAULT ∧ real_priority th = PRI_DEFAULT
       ∧ nice th = 0 ∧ Owned_locks th = []
       ∧ running s' = running boot_mlfqs
       ∧ all_list s' = [running boot_mlfqs]
       ∧ ready_list s' = [] ∧ sleeping_list s' = []
       ∧ initial_thread s' = Some (running boot_mlfqs)
       ∧ next_tid s' = 2
       ∧ (thread_mlfqs boot_mlfqs = true ->
          load_avg s' = int_to_real 0 ∧ recent_cpu th = int_to_real 0)
       ∧ sched_wf s' ∧ descending s' (ready_list s') ∧ tids_below s'
       ∧ thread_tid s' = Some 1
       ∧ thread_get_priority s' = Some PRI_DEFAULT
       ∧ thread_get_nice s' = Some 0).
Proof.
  apply (X13_init_sets_up_main boot_mlfqs).
  - reflexivity.
  - reflexivity.
  - by_evaluation.
Defined.

(** After the yield to an equal no ready thread outranks the running one. *)
Lemma X14_yield_witness :
  sorted_and_not_outranked after_yield
  ∧ (SYield = STryYield -> front_outranks before_sleep = false ->
     after_yield = before_sleep).
Proof.
  apply (X14_the_processor_goes_to_a_highest_thread SYield before_sleep after_yield).
  - by_evaluation_wf.
  - by_evaluation.
  - reflexivity.
  - reflexivity.
  - apply from_option_id_Some. by_evaluation.
Defined.


(** all_list after the busy stretch, in which one thread exits. *)
Lemma X16_busy_run_witness :
  all_live after_busy_run
  ∧ (∀ x, x ∈ all_list after_busy_run -> x ∈ all_list before_sleep)
  ∧ (forallb frees_no_page busy_run = true -> pages_kept before_sleep after_busy_run)
  ∧ ∀ t pri id s'', threads after_busy_run !! t = None ->
      thread_create (Some t) pri after_busy_run = Some (id, s'') ->
      all_live s'' ∧ all_list s'' ≡ₚ t :: all_list after_busy_run.
Proof.
  apply (X16_all_list_holds_live_threads busy_run before_sleep after_busy_run).
  - unfold all_live. by_evaluation.
  - apply from_option_id_Some. by_evaluation.
Defined.

(** The four ticks are kernel ticks: the running thread is not the idle
    thread. *)
Lemma X17_four_ticks_counted_witness :
  idle_ticks after_four_ticks + kernel_ticks after_four_ticks
  = idle_ticks in_timer_interrupt + kernel_ticks in_timer_interrupt
    + Z.of_nat (length [1; 2; 3; 4])
  ∧ (Some (running in_timer_interrupt) = idle_thread in_timer_interrupt ->
     idle_ticks after_four_ticks
     = idle_ticks in_timer_interrupt + Z.of_nat (length [1; 2; 3; 4])
     ∧ kernel_ticks after_four_ticks = kernel_ticks in_timer_interrupt)
  ∧ (Some (running in_timer_interrupt) ≠ idle_thread in_timer_interrupt ->
     kernel_ticks after_four_ticks
     = kernel_ticks in_timer_interrupt + Z.of_nat (length [1; 2; 3; 4])
     ∧ idle_ticks after_four_ticks = idle_ticks in_timer_interrupt).
Proof.
  apply (X17_every_tick_is_counted_once [1; 2; 3; 4] in_timer_interrupt
           after_four_ticks).
  - by vm_compute.
  - by vm_compute.
  - by vm_compute.
  - apply from_option_id_Some. by_evaluation.
Defined.

Example four_kernel_ticks :
  (λ s', (idle_ticks s', kernel_ticks s'))
    <$> tick_all [1; 2; 3; 4] in_timer_interrupt
  = Some (0, 4).
Proof. vm_compute. reflexivity. Qed.
